(** * Kawatte: recursive find and replace

    A shallow embedding of the package [replaceall]: of the program in
    [replaceall/replaceall.go] and of its earlier variant, which has one
    logger, walks with [filepath.Walk] and writes files with the mode
    [os.Stat] gives.  With it come models of what the program uses of the
    Go standard library: [strings.Replacer] with its four algorithms,
    [filepath.Match], [filepath.Clean] and [filepath.Join], [filepath.WalkDir]
    and [filepath.Walk], the parsing of flags, and the files.

    Go strings are byte sequences; they are modelled by [string], whose
    characters are the 8-bit [ascii]. *)

From Stdlib Require Import String Ascii List Arith Bool Lia.
Import ListNotations.
#[local] Set Warnings "-abstract-large-number,-register-all".
Open Scope list_scope.
Open Scope string_scope.

(* ================================================================== *)
(** * Slicing of Go strings *)

Module GoString.

(** [s[n:]] *)
Fixpoint drop (n : nat) (s : string) : string :=
  match n, s with
  | O, _ => s
  | S _, EmptyString => EmptyString
  | S n', String _ s' => drop n' s'
  end.

(** [s[:n]] *)
Fixpoint take (n : nat) (s : string) : string :=
  match n, s with
  | O, _ => EmptyString
  | S _, EmptyString => EmptyString
  | S n', String c s' => String c (take n' s')
  end.

(** [strings.HasPrefix(s, prefix)] *)
Fixpoint HasPrefix (s prefix : string) {struct prefix} : bool :=
  match prefix, s with
  | EmptyString, _ => true
  | String a p, String b s' => Ascii.eqb a b && HasPrefix s' p
  | String _ _, EmptyString => false
  end.

(** [s == ""] *)
Definition isEmpty (s : string) : bool :=
  match s with EmptyString => true | String _ _ => false end.

(** The index of the first occurrence of [pattern] in [text]: the result of
    [stringFinder.next], with [None] for its [-1]. *)
Fixpoint Index (pattern text : string) : option nat :=
  if HasPrefix text pattern then Some 0
  else match text with
       | EmptyString => None
       | String _ t => option_map S (Index pattern t)
       end.

(** [strings.Join] of the bytes produced for each byte of [s]. *)
Fixpoint concatMap (f : ascii -> string) (s : string) : string :=
  match s with
  | EmptyString => EmptyString
  | String c s' => f c ++ concatMap f s'
  end.

Fixpoint mapBytes (f : ascii -> ascii) (s : string) : string :=
  match s with
  | EmptyString => EmptyString
  | String c s' => String (f c) (mapBytes f s')
  end.

Fixpoint existsByte (f : ascii -> bool) (s : string) : bool :=
  match s with
  | EmptyString => false
  | String c s' => f c || existsByte f s'
  end.

(** [s[0]] *)
Definition firstByte (s : string) : ascii :=
  match s with String c _ => c | EmptyString => zero end.

(** [strings.Count(s, x)] for a string [x] of one byte: how often its byte
    occurs in [s]. *)
Fixpoint Count (s x : string) : nat :=
  match s with
  | EmptyString => 0
  | String c s' => (if Ascii.eqb c (firstByte x) then 1 else 0) + Count s' x
  end.

End GoString.
Import GoString.

(* ================================================================== *)
(** * [strings.Replacer] *)

Module Strings.

(** ** The lookup trie of the generic replacer

    A [trieNode] has a value and a priority (positive when the node is a
    complete key, zero otherwise) and, as the library documents, zero, one
    or more children: no child ([Leaf]), one child reached through a
    non-empty [prefix] ([PrefixNode]), or a [table] indexed by the next key
    byte ([TableNode]).  The library indexes the table through
    [genericReplacer.mapping], a dense renumbering of the bytes that occur
    in keys; the model indexes it by the byte itself. *)

#[local] Unset Elimination Schemes.
Inductive trieNode : Type :=
| Leaf (value : string) (priority : nat)
| PrefixNode (value : string) (priority : nat) (prefix : string) (next : trieNode)
| TableNode (value : string) (priority : nat) (table : ascii -> option trieNode).
#[local] Set Elimination Schemes.

Definition value (t : trieNode) : string :=
  match t with
  | Leaf v _ | PrefixNode v _ _ _ | TableNode v _ _ => v
  end.

Definition priority (t : trieNode) : nat :=
  match t with
  | Leaf _ p | PrefixNode _ p _ _ | TableNode _ p _ => p
  end.

(** [new(trieNode)] *)
Definition newNode : trieNode := Leaf "" 0.

(** [t.value = val; t.priority = priority] *)
Definition setValue (t : trieNode) (val : string) (prio : nat) : trieNode :=
  match t with
  | Leaf _ _ => Leaf val prio
  | PrefixNode _ _ pre nx => PrefixNode val prio pre nx
  | TableNode _ _ tb => TableNode val prio tb
  end.

(** [make([]*trieNode, r.tableSize)] *)
Definition emptyTable : ascii -> option trieNode := fun _ => None.

(** [table[m] = child] *)
Definition setEntry (table : ascii -> option trieNode) (m : ascii) (child : trieNode)
  : ascii -> option trieNode :=
  fun c => if Ascii.eqb c m then Some child else table c.

(** The length of the longest common prefix of [prefix] and [key]. *)
Fixpoint commonPrefixLen (prefix key : string) : nat :=
  match prefix, key with
  | String a p, String b k => if Ascii.eqb a b then S (commonPrefixLen p k) else 0
  | _, _ => 0
  end.

(** [trieNode.add]; each recursive call is on a shorter key (or on the empty
    key), so [S (length key)] units of fuel are enough. *)
Fixpoint add (fuel : nat) (t : trieNode) (key val : string) (prio : nat) : trieNode :=
  match fuel with
  | O => t
  | S fuel' =>
    match key with
    | EmptyString =>
        if Nat.eqb (priority t) 0 then setValue t val prio else t
    | String k0 krest =>
        match t with
        | PrefixNode v p (String p0 prest as prefix) next =>
            let n := commonPrefixLen prefix key in
            if Nat.eqb n (String.length prefix) then
              PrefixNode v p prefix (add fuel' next (drop n key) val prio)
            else if Nat.eqb n 0 then
              let prefixNode :=
                if Nat.eqb (String.length prefix) 1 then next else PrefixNode "" 0 prest next in
              let keyNode := add fuel' newNode krest val prio in
              TableNode v p (setEntry (setEntry emptyTable p0 prefixNode) k0 keyNode)
            else
              let next' := PrefixNode "" 0 (drop n prefix) next in
              PrefixNode v p (take n prefix) (add fuel' next' (drop n key) val prio)
        | TableNode v p table =>
            let child := match table k0 with Some c => c | None => newNode end in
            TableNode v p (setEntry table k0 (add fuel' child krest val prio))
        | Leaf v p | PrefixNode v p EmptyString _ =>
            PrefixNode v p key (add fuel' newNode "" val prio)
        end
    end
  end.

(** The running best match of [genericReplacer.lookup]. *)
Record best : Type := mkBest {
  bestPriority : nat;
  val : string;
  keylen : nat;
  found : bool
}.

Definition noBest : best := mkBest 0 "" 0 false.

(** One iteration of the loop of [genericReplacer.lookup] and the iterations
    after it; [isRoot] stands for the test [node == &r.root]. *)
Fixpoint lookupFrom (node : trieNode) (isRoot : bool) (s : string) (n : nat)
         (ignoreRoot : bool) (b : best) : best :=
  let b' :=
    if Nat.ltb (bestPriority b) (priority node) && negb (ignoreRoot && isRoot)
    then mkBest (priority node) (value node) n true
    else b in
  match s with
  | EmptyString => b'
  | String c s' =>
      match node with
      | TableNode _ _ table =>
          match table c with
          | Some child => lookupFrom child false s' (S n) ignoreRoot b'
          | None => b'
          end
      | PrefixNode _ _ prefix next =>
          if negb (isEmpty prefix) && HasPrefix s prefix
          then lookupFrom next false (drop (String.length prefix) s) (n + String.length prefix)
                          ignoreRoot b'
          else b'
      | Leaf _ _ => b'
      end
  end.

Definition lookup (root : trieNode) (s : string) (ignoreRoot : bool) : best :=
  lookupFrom root true s 0 ignoreRoot noBest.

(** ** The four replacement algorithms *)

Inductive replacer : Type :=
| singleStringReplacer (pattern value : string)
| byteReplacer (r : ascii -> ascii)
| byteStringReplacer (replacements : ascii -> option string) (toReplace : list string)
| genericReplacer (root : trieNode).

(** The list [oldnew] of [NewReplacer], two entries at a time. *)
Abbreviation subPair := (string * string)%type.

Fixpoint pairsOf (oldnew : list string) : option (list subPair) :=
  match oldnew with
  | [] => Some []
  | [_] => None
  | o :: n :: rest => option_map (cons (o, n)) (pairsOf rest)
  end.

(** [makeGenericReplacer]: the root always uses a table; the pair at index
    [i] of [oldnew] is added with priority [len(oldnew) - i]. *)
Fixpoint addAll (root : trieNode) (pairs : list subPair) : trieNode :=
  match pairs with
  | [] => root
  | (o, n) :: rest =>
      addAll (add (S (String.length o)) root o n (2 * List.length pairs)) rest
  end.

Definition emptyRoot : trieNode := TableNode "" 0 emptyTable.

Definition makeGenericReplacer (pairs : list subPair) : replacer :=
  genericReplacer (addAll emptyRoot pairs).

(** [r[o] = n] *)
Definition setByte (r : ascii -> ascii) (o n : ascii) : ascii -> ascii :=
  fun c => if Ascii.eqb c o then n else r c.

(** The byte table is filled from the last pair to the first, so that the
    first occurrence of an old byte takes precedence. *)
Definition makeByteReplacer (pairs : list subPair) : ascii -> ascii :=
  fold_right (fun (p : subPair) r => setByte r (firstByte (fst p)) (firstByte (snd p)))
             (fun c => c) pairs.

Definition setRepl (r : ascii -> option string) (o : ascii) (n : string)
  : ascii -> option string :=
  fun c => if Ascii.eqb c o then Some n else r c.

Definition makeByteStringReplacer (pairs : list subPair)
  : (ascii -> option string) * list string :=
  fold_right
    (fun (p : subPair) (acc : (ascii -> option string) * list string) =>
       let '(repl, toReplace) := acc in
       let o := firstByte (fst p) in
       let toReplace' :=
         match repl o with
         | None => (toReplace ++ [String o ""])%list
         | Some _ => toReplace
         end in
       (setRepl repl o (snd p), toReplace'))
    (fun _ => None, []) pairs.

(** The part of [Replacer.build] after the test for a single long pattern:
    the generic replacer unless every old string is one byte long, then the
    byte replacer if every new string is one byte long too. *)
Definition buildTable (pairs : list subPair) : replacer :=
  if negb (forallb (fun p : subPair => Nat.eqb (String.length (fst p)) 1) pairs)
  then makeGenericReplacer pairs
  else if forallb (fun p : subPair => Nat.eqb (String.length (snd p)) 1) pairs
  then byteReplacer (makeByteReplacer pairs)
  else let '(repl, toReplace) := makeByteStringReplacer pairs in
       byteStringReplacer repl toReplace.

(** [Replacer.build] *)
Definition build (pairs : list subPair) : replacer :=
  match pairs with
  | [(o, n)] =>
      if Nat.ltb 1 (String.length o) then singleStringReplacer o n
      else buildTable pairs
  | _ => buildTable pairs
  end.

(** [singleStringReplacer.Replace]: the loop over the matches of the
    pattern, on the part [s[i:]] of the input not yet consumed. *)
Fixpoint singleReplace (fuel : nat) (pattern value : string) (s : string)
  : option string :=
  match fuel with
  | O => None
  | S fuel' =>
      match Index pattern s with
      | None => Some s
      | Some m =>
          option_map (fun out => take m s ++ value ++ out)
                     (singleReplace fuel' pattern value (drop (m + String.length pattern) s))
      end
  end.

(** The fast path of [genericReplacer.WriteString]: the byte [c] starts no
    key and the empty string is no key. *)
Definition skipByte (root : trieNode) (c : ascii) : bool :=
  match root with
  | TableNode _ p table =>
      Nat.eqb p 0 && match table c with None => true | Some _ => false end
  | _ => false
  end.

(** [genericReplacer.WriteString]: the loop [for i := 0; i <= len(s);] on
    the part [s[i:]] of the input; the bytes between [last] and [i] are
    written as they are passed. *)
Fixpoint genericReplace (fuel : nat) (root : trieNode) (s : string)
         (prevMatchEmpty : bool) : option string :=
  match fuel with
  | O => None
  | S fuel' =>
      let lookupStep :=
        let b := lookup root s prevMatchEmpty in
        let prevMatchEmpty' := found b && Nat.eqb (keylen b) 0 in
        if found b then
          option_map (append (val b))
                     (genericReplace fuel' root (drop (keylen b) s) prevMatchEmpty')
        else
          match s with
          | EmptyString => Some EmptyString
          | String c s' =>
              option_map (String c) (genericReplace fuel' root s' prevMatchEmpty')
          end in
      match s with
      | String c s' =>
          if skipByte root c
          then option_map (String c) (genericReplace fuel' root s' prevMatchEmpty)
          else lookupStep
      | EmptyString => lookupStep
      end
  end.

(** The ratio of the length of the text to the number of bytes to replace
    from which [byteStringReplacer.Replace] counts with [Count]. *)
Definition countCutOff : nat := 8.

(** [byteStringReplacer.Replace]: whether anything changes is found with
    [Count] for each byte of [toReplace] or with a loop over the text; the
    size of the result, found on the way, only sizes the buffer. *)
Definition byteStringReplace (replacements : ascii -> option string)
           (toReplace : list string) (s : string) : string :=
  let anyChanges :=
    if Nat.leb (List.length toReplace * countCutOff) (String.length s)
    then existsb (fun x => negb (Nat.eqb (Count s x) 0)) toReplace
    else existsByte (fun b => match replacements b with
                              | Some _ => true
                              | None => false
                              end) s in
  if negb anyChanges then s
  else concatMap (fun b => match replacements b with
                           | Some n => n
                           | None => String b ""
                           end) s.

(** [Replacer.Replace]; [None] would be a loop that never ends. *)
Definition ReplaceOpt (r : replacer) (s : string) : option string :=
  match r with
  | singleStringReplacer pattern value => singleReplace (S (String.length s)) pattern value s
  | byteReplacer tbl => Some (mapBytes tbl s)
  | byteStringReplacer repl toReplace => Some (byteStringReplace repl toReplace s)
  | genericReplacer root => genericReplace (2 * String.length s + 2) root s false
  end.

(** A [strings.Replacer] holds the list [oldnew]; the algorithm is built
    from it when [Replace] is first called. *)
Record Replacer : Type := mkReplacer {
  oldnew : list subPair
}.

(** [strings.NewReplacer(oldnew...)]; [None] is the panic on an odd number
    of arguments. *)
Definition NewReplacer (args : list string) : option Replacer :=
  option_map mkReplacer (pairsOf args).

(** [Replacer.Replace].  The loops of the algorithms that [build] makes end
    on every input ([ReplaceOpt_Replaces] below), so the second arm is
    never taken. *)
Definition Replace (r : Replacer) (s : string) : string :=
  match ReplaceOpt (build (oldnew r)) s with
  | Some out => out
  | None => s
  end.

End Strings.
Import Strings.

(* ================================================================== *)
(** * The operating system as the program sees it *)

Module OS.

(** Errors, with the wrapping [fmt.Errorf("...: %w", err)] of the program. *)
Inductive error : Type :=
| SysError (msg : string)
| ErrFieldCount
| ErrFlag (msg : string)
| ErrOpeningPatterns (cause : error)
| ErrReadingPatterns (patFile : string) (cause : error)
| ErrReading (filePath : string) (cause : error)
| ErrStating (filePath : string) (cause : error)
| ErrWriting (filePath : string) (cause : error).

Inductive result (A : Type) : Type :=
| Ok (a : A)
| Err (e : error).
Arguments Ok {A} a.
Arguments Err {A} e.

(** A file tree as [os.Lstat] and [os.ReadDir] show it: an entry has a base
    name and is a directory or not; reading a directory gives its entries
    in the order of the listing and possibly an error. *)
#[local] Unset Elimination Schemes.
Inductive entry : Type :=
| File (name : string)
| Dir (name : string) (readErr : option error) (entries : list entry).
#[local] Set Elimination Schemes.

Definition Name (d : entry) : string :=
  match d with
  | File name => name
  | Dir name _ _ => name
  end.

Definition IsDir (d : entry) : bool :=
  match d with
  | File _ => false
  | Dir _ _ _ => true
  end.

(** A regular file: its content, its permission bits, and the errors that
    reading it, [os.Stat] and opening it for writing meet, if any. *)
Record fileState : Type := mkFile {
  content : string;
  mode : nat;
  readError : option error;
  statError : option error;
  writeError : option error
}.

Definition fileSystem : Type := string -> option fileState.

(** What opening the patterns file and reading it with [encoding/csv]
    gives, before the check of the number of fields. *)
Inductive csvOutcome : Type :=
| OpenFails (e : error)
| ReadFails (e : error)
| Records (records : list (list string)).

Inductive level : Type := Info | Warning | Error.

Inductive logMsg : Type :=
| MsgNoSubstitutions
| MsgFoundSubstitutions (n : nat)
| MsgWalkError (e : error)
| MsgExcludeDir (path : string)
| MsgMatchDir (path : string)
| MsgNoMatchDir (path : string)
| MsgExcludeFile (path : string)
| MsgMatchFile (path : string)
| MsgNoMatchFile (path : string)
| MsgError (e : error).

(** What the program does to the outside, in order. *)
Inductive event : Type :=
| EvOpenPatterns (path : string)
| EvLstat (path : string)
| EvReadDir (path : string)
| EvReadFile (path : string)
| EvStat (path : string)
| EvWriteFile (path : string) (data : string) (perm : nat)
| EvPrint (path : string)
| EvPrintWarning (e : error)
| EvLog (l : level) (m : logMsg).

(** The world: the tree under each root, the patterns files, the regular
    files, and the trace of what was done so far (latest event last). *)
Record World : Type := mkWorld {
  lstat : string -> result entry;
  patterns : string -> csvOutcome;
  files : fileSystem;
  trace : list event
}.

Definition record (e : event) (w : World) : World :=
  mkWorld (lstat w) (patterns w) (files w) (trace w ++ [e])%list.

Definition setFiles (fs : fileSystem) (w : World) : World :=
  mkWorld (lstat w) (patterns w) fs (trace w).

(** [os.ReadFile] *)
Definition ReadFile (path : string) (w : World) : World * result string :=
  let w' := record (EvReadFile path) w in
  match files w path with
  | None => (w', Err (SysError "no such file or directory"))
  | Some f =>
      match readError f with
      | Some e => (w', Err e)
      | None => (w', Ok (content f))
      end
  end.

(** [os.Stat], of which the program uses the mode. *)
Definition Stat (path : string) (w : World) : World * result nat :=
  let w' := record (EvStat path) w in
  match files w path with
  | None => (w', Err (SysError "no such file or directory"))
  | Some f =>
      match statError f with
      | Some e => (w', Err e)
      | None => (w', Ok (mode f))
      end
  end.

(** [os.WriteFile]: a file that exists is truncated and written and keeps
    its mode; a file that does not is created with the mode [perm]. *)
Definition WriteFile (path data : string) (perm : nat) (w : World)
  : World * option error :=
  let w' := record (EvWriteFile path data perm) w in
  match files w path with
  | None =>
      (setFiles (fun p => if String.eqb p path
                          then Some (mkFile data perm None None None)
                          else files w p) w', None)
  | Some f =>
      match writeError f with
      | Some e => (w', Some e)
      | None =>
          (setFiles (fun p => if String.eqb p path
                              then Some (mkFile data (mode f) (readError f)
                                                (statError f) (writeError f))
                              else files w p) w', None)
      end
  end.

End OS.
Import OS.

(* ================================================================== *)
(** * [unicode/utf8] and [path/filepath] (Unix) *)

Module Filepath.

Definition Separator : ascii := "/"%char.

Definition RuneError : nat := 65533.

Definition byteVal (c : ascii) : nat := nat_of_ascii c.

(** A continuation byte, [0x80 <= c <= 0xBF], or more generally a byte
    between [lo] and [hi]. *)
Definition inRange (lo hi : nat) (c : ascii) : bool :=
  Nat.leb lo (byteVal c) && Nat.leb (byteVal c) hi.

(** [utf8.DecodeRuneInString]: the rune at the start of [s] and its width;
    an invalid or short encoding gives [(RuneError, 1)], the empty string
    [(RuneError, 0)]. *)
Definition DecodeRuneInString (s : string) : nat * nat :=
  match s with
  | EmptyString => (RuneError, 0)
  | String s0 rest =>
      let b0 := byteVal s0 in
      if Nat.ltb b0 128 then (b0, 1)
      else if Nat.ltb b0 194 then (RuneError, 1)
      else if Nat.ltb 244 b0 then (RuneError, 1)
      else
        let sz := if Nat.ltb b0 224 then 2 else if Nat.ltb b0 240 then 3 else 4 in
        let lo := if Nat.eqb b0 224 then 160 else if Nat.eqb b0 240 then 144 else 128 in
        let hi := if Nat.eqb b0 237 then 159 else if Nat.eqb b0 244 then 143 else 191 in
        if Nat.ltb (String.length s) sz then (RuneError, 1)
        else
          match rest with
          | EmptyString => (RuneError, 1)
          | String s1 rest1 =>
              if negb (inRange lo hi s1) then (RuneError, 1)
              else if Nat.leb sz 2
              then ((b0 mod 32) * 64 + byteVal s1 mod 64, 2)
              else
                match rest1 with
                | EmptyString => (RuneError, 1)
                | String s2 rest2 =>
                    if negb (inRange 128 191 s2) then (RuneError, 1)
                    else if Nat.leb sz 3
                    then ((b0 mod 16) * 4096 + (byteVal s1 mod 64) * 64
                          + byteVal s2 mod 64, 3)
                    else
                      match rest2 with
                      | EmptyString => (RuneError, 1)
                      | String s3 _ =>
                          if negb (inRange 128 191 s3) then (RuneError, 1)
                          else ((b0 mod 8) * 262144 + (byteVal s1 mod 64) * 4096
                                + (byteVal s2 mod 64) * 64 + byteVal s3 mod 64, 4)
                      end
                end
          end
  end.

(** [strings.Contains(name, string(Separator))] *)
Fixpoint containsSeparator (name : string) : bool :=
  match name with
  | EmptyString => false
  | String c name' => Ascii.eqb c Separator || containsSeparator name'
  end.

(** The loop of [scanChunk] over the pattern after its leading stars: the
    chunk up to the next star outside a character class, and the rest. *)
Fixpoint scanLoop (pattern : string) (inrange : bool) : string * string :=
  match pattern with
  | EmptyString => (EmptyString, EmptyString)
  | String c p' =>
      if Ascii.eqb c "\"%char then
        match p' with
        | EmptyString => (String c EmptyString, EmptyString)
        | String d p'' =>
            let '(chunk, rest) := scanLoop p'' inrange in
            (String c (String d chunk), rest)
        end
      else if Ascii.eqb c "["%char then
        let '(chunk, rest) := scanLoop p' true in (String c chunk, rest)
      else if Ascii.eqb c "]"%char then
        let '(chunk, rest) := scanLoop p' false in (String c chunk, rest)
      else if Ascii.eqb c "*"%char && negb inrange then
        (EmptyString, pattern)
      else
        let '(chunk, rest) := scanLoop p' inrange in (String c chunk, rest)
  end.

Fixpoint stripStars (pattern : string) : string :=
  match pattern with
  | String c p' => if Ascii.eqb c "*"%char then stripStars p' else pattern
  | EmptyString => EmptyString
  end.

(** [scanChunk]: whether the segment starts with a star, the segment
    without its stars, and the rest of the pattern. *)
Definition scanChunk (pattern : string) : bool * string * string :=
  let star := match pattern with
              | String c _ => Ascii.eqb c "*"%char
              | EmptyString => false
              end in
  let '(chunk, rest) := scanLoop (stripStars pattern) false in
  (star, chunk, rest).

(** [getEsc]: the possibly escaped rune at the start of a character class
    range and the rest of the chunk; [None] is [ErrBadPattern]. *)
Definition getEsc (chunk : string) : option (nat * string) :=
  match chunk with
  | EmptyString => None
  | String c rest =>
      if Ascii.eqb c "-"%char || Ascii.eqb c "]"%char then None
      else
        let chunk1 := if Ascii.eqb c "\"%char then rest else chunk in
        if isEmpty chunk1 then None
        else
          let '(r, n) := DecodeRuneInString chunk1 in
          let nchunk := drop n chunk1 in
          if Nat.eqb r RuneError && Nat.eqb n 1 then None
          else if isEmpty nchunk then None
          else Some (r, nchunk)
  end.

(** The ranges of a character class, up to its closing bracket: whether the
    rune [r] is in one of them, and the chunk after the class. *)
Fixpoint classLoop (fuel : nat) (chunk : string) (r : nat) (matched : bool)
         (nrange : nat) : option (bool * string) :=
  match fuel with
  | O => None
  | S fuel' =>
      match chunk with
      | String c rest =>
          if Ascii.eqb c "]"%char && Nat.ltb 0 nrange then Some (matched, rest)
          else classRange fuel' chunk r matched nrange
      | EmptyString => classRange fuel' chunk r matched nrange
      end
  end
with classRange (fuel : nat) (chunk : string) (r : nat) (matched : bool)
                (nrange : nat) : option (bool * string) :=
  match fuel with
  | O => None
  | S fuel' =>
      match getEsc chunk with
      | None => None
      | Some (lo, chunk1) =>
          let hiChunk :=
            match chunk1 with
            | String c rest =>
                if Ascii.eqb c "-"%char then getEsc rest else Some (lo, chunk1)
            | EmptyString => Some (lo, chunk1)
            end in
          match hiChunk with
          | None => None
          | Some (hi, chunk2) =>
              let matched' := matched || (Nat.leb lo r && Nat.leb r hi) in
              classLoop fuel' chunk2 r matched' (S nrange)
          end
      end
  end.

Inductive chunkResult : Type :=
| chunkBad
| chunkFailed
| chunkMatched (rest : string).

(** [matchChunk]: whether [chunk] matches the start of [s], and what of [s]
    is left; once the match has failed the chunk is still checked for
    syntax. *)
Fixpoint matchChunk (fuel : nat) (chunk s : string) (failed : bool) : chunkResult :=
  match fuel with
  | O => chunkBad
  | S fuel' =>
      match chunk with
      | EmptyString => if failed then chunkFailed else chunkMatched s
      | String c chunk' =>
          let failed := failed || isEmpty s in
          if Ascii.eqb c "["%char then
            let '(r, n) := if failed then (0, 0) else DecodeRuneInString s in
            let s' := drop n s in
            let '(negated, chunk1) :=
              match chunk' with
              | String d rest => if Ascii.eqb d "^"%char then (true, rest) else (false, chunk')
              | EmptyString => (false, chunk')
              end in
            match classLoop (2 * String.length chunk1 + 2) chunk1 r false 0 with
            | None => chunkBad
            | Some (matched, chunk2) =>
                matchChunk fuel' chunk2 s' (failed || Bool.eqb matched negated)
            end
          else if Ascii.eqb c "?"%char then
            if failed then matchChunk fuel' chunk' s failed
            else
              let sep := match s with
                         | String s0 _ => Ascii.eqb s0 Separator
                         | EmptyString => false
                         end in
              matchChunk fuel' chunk' (drop (snd (DecodeRuneInString s)) s) sep
          else
            let lit :=
              if Ascii.eqb c "\"%char then chunk' else chunk in
            match lit with
            | EmptyString => chunkBad
            | String l chunk2 =>
                if failed then matchChunk fuel' chunk2 s failed
                else
                  match s with
                  | String s0 s' => matchChunk fuel' chunk2 s' (negb (Ascii.eqb l s0))
                  | EmptyString => matchChunk fuel' chunk2 s true
                  end
            end
      end
  end.

(** The loop of [Match] that looks for a match of a chunk behind a star,
    skipping [i+1] bytes of the name: [Some t] continues with the name [t],
    [None] gives up (no match, or a bad pattern). *)
Fixpoint starLoop (chunk : string) (lastChunk : bool) (name : string) : option string :=
  match name with
  | EmptyString => None
  | String c name' =>
      if Ascii.eqb c Separator then None
      else
        match matchChunk (S (String.length chunk)) chunk name' false with
        | chunkMatched t =>
            if lastChunk && negb (isEmpty t) then starLoop chunk lastChunk name'
            else Some t
        | chunkBad => None
        | chunkFailed => starLoop chunk lastChunk name'
        end
  end.

Fixpoint matchLoop (fuel : nat) (pattern name : string) : bool :=
  match fuel with
  | O => false
  | S fuel' =>
      if isEmpty pattern then isEmpty name
      else
        let '(star, chunk, rest) := scanChunk pattern in
        if star && isEmpty chunk then negb (containsSeparator name)
        else
          match matchChunk (S (String.length chunk)) chunk name false with
          | chunkBad => false
          | chunkMatched t =>
              if isEmpty t || negb (isEmpty rest) then matchLoop fuel' rest t
              else if star then
                match starLoop chunk (isEmpty rest) name with
                | Some t' => matchLoop fuel' rest t'
                | None => false
                end
              else false
          | chunkFailed =>
              if star then
                match starLoop chunk (isEmpty rest) name with
                | Some t' => matchLoop fuel' rest t'
                | None => false
                end
              else false
          end
  end.

(** The first result of [filepath.Match(pattern, name)]; the program
    discards the second, the error for a malformed pattern, for which the
    first is [false]. *)
Definition Match (pattern name : string) : bool :=
  matchLoop (S (String.length pattern)) pattern name.


(** The end of a [..] element in [Clean]: the output is cut back to before
    its last separator, but not below [dotdot].  The output is kept
    reversed; [x] is the byte last removed. *)
Fixpoint popLoop (out : list ascii) (x : ascii) (dotdot : nat) : list ascii :=
  match out with
  | [] => []
  | y :: out' =>
      if Nat.ltb dotdot (List.length out) && negb (Ascii.eqb x Separator)
      then popLoop out' y dotdot
      else out
  end.

Definition startsElementEnd (p : string) : bool :=
  match p with
  | EmptyString => true
  | String c _ => Ascii.eqb c Separator
  end.

(** The loop of [Clean] over the path; [copying] tells that the bytes of a
    path element are being copied. *)
Fixpoint cleanLoop (p : string) (rooted copying : bool) (out : list ascii)
         (dotdot : nat) : list ascii :=
  match p with
  | EmptyString => out
  | String c p' =>
      if Ascii.eqb c Separator then cleanLoop p' rooted false out dotdot
      else if copying then cleanLoop p' rooted true (c :: out) dotdot
      else if Ascii.eqb c "."%char && startsElementEnd p' then
        cleanLoop p' rooted false out dotdot
      else
        let isDotDot :=
          match p' with
          | String d p'' => Ascii.eqb c "."%char && Ascii.eqb d "."%char && startsElementEnd p''
          | EmptyString => false
          end in
        match p' with
        | String d p'' =>
            if isDotDot then
              if Nat.ltb dotdot (List.length out) then
                match out with
                | x :: out' => cleanLoop p'' rooted false (popLoop out' x dotdot) dotdot
                | [] => cleanLoop p'' rooted false out dotdot
                end
              else if negb rooted then
                let out1 := if Nat.ltb 0 (List.length out) then Separator :: out else out in
                let out2 := "."%char :: "."%char :: out1 in
                cleanLoop p'' rooted false out2 (List.length out2)
              else cleanLoop p'' rooted false out dotdot
            else
              let needSep := if rooted then negb (Nat.eqb (List.length out) 1)
                             else negb (Nat.eqb (List.length out) 0) in
              let out1 := if needSep then Separator :: out else out in
              cleanLoop p' rooted true (c :: out1) dotdot
        | EmptyString =>
            let needSep := if rooted then negb (Nat.eqb (List.length out) 1)
                           else negb (Nat.eqb (List.length out) 0) in
            let out1 := if needSep then Separator :: out else out in
            cleanLoop p' rooted true (c :: out1) dotdot
        end
  end.

(** [filepath.Clean] *)
Definition Clean (path : string) : string :=
  match path with
  | EmptyString => "."
  | String c _ =>
      let rooted := Ascii.eqb c Separator in
      let out0 := if rooted then [Separator] else [] in
      let out := cleanLoop path rooted false out0 (if rooted then 1 else 0) in
      match out with
      | [] => "."
      | _ => string_of_list_ascii (rev out)
      end
  end.

(** [filepath.Join(dir, name)] *)
Definition Join (dir name : string) : string :=
  if negb (isEmpty dir) then Clean (dir ++ String Separator name)
  else if negb (isEmpty name) then Clean name
  else EmptyString.

Section Walks.

(** The state the walk function works on, the walk function (its result
    tells whether it returned [SkipDir]; the program's returns no other
    error) and the recording of what the walk itself does. *)
Variable St : Type.
Variable fn : string -> option entry -> option error -> St -> St * bool.
Variable note : event -> St -> St.

(** The loop of [walkDir] over the entries of the directory [path]: it
    ends when the walk of an entry passes [SkipDir]. *)
Definition walkDirEntries (walk : string -> entry -> St -> St * bool) (path : string)
  : list entry -> St -> St :=
  fix loop (ds : list entry) (st : St) {struct ds} : St :=
    match ds with
    | [] => st
    | d1 :: ds' =>
        let '(st', skip) := walk (Join path (Name d1)) d1 st in
        if skip then st' else loop ds' st'
    end.

(** [walkDir] of [filepath.WalkDir]: the walk function is called on the
    entry and, if the entry is a directory that is not skipped, a second
    time if reading it failed, and then the entries read are walked.  The
    result tells whether [SkipDir] is passed to the caller. *)
Fixpoint walkDirFrom (path : string) (d : entry) (st : St) {struct d} : St * bool :=
  match d with
  | File _ => fn path (Some d) None st
  | Dir _ readErr entries =>
      let '(st1, skip1) := fn path (Some d) None st in
      if skip1 then (st1, false)
      else
        let st2 := note (EvReadDir path) st1 in
        let '(st3, skip3) :=
          match readErr with
          | Some e => fn path (Some d) (Some e) st2
          | None => (st2, false)
          end in
        if skip3 then (st3, false)
        else (walkDirEntries walkDirFrom path entries st3, false)
  end.

(** [filepath.WalkDir] *)
Definition WalkDir (root : string) (rootEntry : result entry) (st : St) : St :=
  let st0 := note (EvLstat root) st in
  match rootEntry with
  | Err e => fst (fn root None (Some e) st0)
  | Ok d => fst (walkDirFrom root d st0)
  end.

(** The loop of [walk] over the names in the directory [path]: [SkipDir]
    from a directory goes on with the next name, from another entry it ends
    the loop and is passed on. *)
Definition walkEntries (walk : string -> entry -> St -> St * bool) (path : string)
  : list entry -> St -> St * bool :=
  fix loop (ds : list entry) (st : St) {struct ds} : St * bool :=
    match ds with
    | [] => (st, false)
    | d1 :: ds' =>
        let filename := Join path (Name d1) in
        let '(st', skip) := walk filename d1 (note (EvLstat filename) st) in
        if skip then
          if IsDir d1 then loop ds' st' else (st', true)
        else loop ds' st'
    end.

(** [walk] of [filepath.Walk]: a directory is read before the walk function
    is called on it, once, with the error of the reading if there is one;
    its entries are walked only if there is none. *)
Fixpoint walkFrom (path : string) (d : entry) (st : St) {struct d} : St * bool :=
  match d with
  | File _ => fn path (Some d) None st
  | Dir _ readErr entries =>
      let st1 := note (EvReadDir path) st in
      let '(st2, skip2) := fn path (Some d) readErr st1 in
      match readErr with
      | Some _ => (st2, skip2)
      | None =>
          if skip2 then (st2, true)
          else walkEntries walkFrom path entries st2
      end
  end.

(** [filepath.Walk] *)
Definition Walk (root : string) (rootEntry : result entry) (st : St) : St :=
  let st0 := note (EvLstat root) st in
  match rootEntry with
  | Err e => fst (fn root None (Some e) st0)
  | Ok d => fst (walkFrom root d st0)
  end.

End Walks.

Arguments walkDirEntries {St}.
Arguments walkEntries {St}.
Arguments walkDirFrom {St}.
Arguments WalkDir {St}.
Arguments walkFrom {St}.
Arguments Walk {St}.

End Filepath.
Import Filepath.

(* ================================================================== *)
(** * The program *)

Module Kawatte.

(** The two variants of the program: [Current] is
    [replaceall/replaceall.go], with three loggers, [filepath.WalkDir] and a
    fixed mode on writing; [Earlier] has one logger, [filepath.Walk], and
    writes with the mode [os.Stat] gives. *)
Inductive variant : Type := Current | Earlier.

(** [appEnv]; of the loggers only what [-verbose] changes is kept. *)
Record appEnv : Type := mkApp {
  patFile : string;
  dir : string;
  incFile : list string;
  exFile : list string;
  incDir : list string;
  exDir : list string;
  dryRun : bool;
  verbose : bool
}.

(** [var app appEnv] *)
Definition zeroApp : appEnv := mkApp "" "" [] [] [] [] false false.

Definition setPatFile (app : appEnv) (v : string) : appEnv :=
  mkApp v (dir app) (incFile app) (exFile app) (incDir app) (exDir app)
        (dryRun app) (verbose app).

Definition setDir (app : appEnv) (v : string) : appEnv :=
  mkApp (patFile app) v (incFile app) (exFile app) (incDir app) (exDir app)
        (dryRun app) (verbose app).

Definition setIncFile (app : appEnv) (v : list string) : appEnv :=
  mkApp (patFile app) (dir app) v (exFile app) (incDir app) (exDir app)
        (dryRun app) (verbose app).

Definition setExFile (app : appEnv) (v : list string) : appEnv :=
  mkApp (patFile app) (dir app) (incFile app) v (incDir app) (exDir app)
        (dryRun app) (verbose app).

Definition setIncDir (app : appEnv) (v : list string) : appEnv :=
  mkApp (patFile app) (dir app) (incFile app) (exFile app) v (exDir app)
        (dryRun app) (verbose app).

Definition setExDir (app : appEnv) (v : list string) : appEnv :=
  mkApp (patFile app) (dir app) (incFile app) (exFile app) (incDir app) v
        (dryRun app) (verbose app).

Definition setDryRun (app : appEnv) (v : bool) : appEnv :=
  mkApp (patFile app) (dir app) (incFile app) (exFile app) (incDir app) (exDir app)
        v (verbose app).

Definition setVerbose (app : appEnv) (v : bool) : appEnv :=
  mkApp (patFile app) (dir app) (incFile app) (exFile app) (incDir app) (exDir app)
        (dryRun app) v.

(** ** [ParseArgs] *)

(** [strconv.ParseBool] *)
Definition ParseBool (s : string) : option bool :=
  if existsb (String.eqb s) ["1"; "t"; "T"; "TRUE"; "true"; "True"] then Some true
  else if existsb (String.eqb s) ["0"; "f"; "F"; "FALSE"; "false"; "False"] then Some false
  else None.

Inductive flagKind : Type := BoolFlag | ValueFlag.

(** The flags [ParseArgs] defines, in the order of [FlagSet.VisitAll]. *)
Definition formalFlags : list (string * flagKind) :=
  [ ("dir", ValueFlag); ("dry-run", BoolFlag); ("exclude", ValueFlag);
    ("exclude-dir", ValueFlag); ("match", ValueFlag); ("match-dir", ValueFlag);
    ("pat", ValueFlag); ("v", BoolFlag); ("verbose", BoolFlag);
    ("version", BoolFlag) ].

Definition formal (name : string) : option flagKind :=
  option_map snd (find (fun f => String.eqb (fst f) name) formalFlags).

(** What setting a flag does: it changes [app], fails, or (for [-v] and
    [-version], which print the version) ends the process. *)
Inductive setResult : Type :=
| SetOk (app : appEnv)
| SetErr (e : error)
| SetExit.

(** [Value.Set] of each flag.  The functions given to [fl.Func] for
    [-exclude], [-match-dir] and [-exclude-dir] are as in the source: each
    assigns to [app.incFile]. *)
Definition setFlag (app : appEnv) (name value : string) : setResult :=
  if String.eqb name "pat" then SetOk (setPatFile app value)
  else if String.eqb name "dir" then SetOk (setDir app value)
  else if String.eqb name "dry-run" then
    match ParseBool value with
    | Some b => SetOk (setDryRun app b)
    | None => SetErr (ErrFlag "parse error")
    end
  else if String.eqb name "match" then
    SetOk (setIncFile app (incFile app ++ [value])%list)
  else if String.eqb name "exclude" then
    SetOk (setIncFile app (exFile app ++ [value])%list)
  else if String.eqb name "match-dir" then
    SetOk (setIncFile app (incFile app ++ [value])%list)
  else if String.eqb name "exclude-dir" then
    SetOk (setIncFile app (exFile app ++ [value])%list)
  else if String.eqb name "verbose" then
    match ParseBool value with
    | Some b => SetOk (if b then setVerbose app true else app)
    | None => SetErr (ErrFlag "parse error")
    end
  else if String.eqb name "v" || String.eqb name "version" then
    match ParseBool value with
    | Some b => if b then SetExit else SetOk app
    | None => SetErr (ErrFlag "parse error")
    end
  else SetErr (ErrFlag "no such flag").

(** The name of a flag up to its first [=] after the first byte, and the
    value behind it. *)
Fixpoint cutAtEq (s : string) : string * option string :=
  match s with
  | EmptyString => (EmptyString, None)
  | String c s' =>
      if Ascii.eqb c "="%char then (EmptyString, Some s')
      else let '(n, v) := cutAtEq s' in (String c n, v)
  end.

Inductive parseResult : Type :=
| ParseDone (app : appEnv) (actual : list string)
| ParseFail (e : error)
| ParseExit.

(** [FlagSet.Parse]: the loop over [parseOne]; [actual] lists the flags
    that were set. *)
Fixpoint parse (app : appEnv) (actual : list string) (args : list string)
  : parseResult :=
  match args with
  | [] => ParseDone app actual
  | s :: rest =>
      match s with
      | String c0 (String c1 s2) =>
          if negb (Ascii.eqb c0 "-"%char) then ParseDone app actual
          else if Ascii.eqb c1 "-"%char && isEmpty s2 then ParseDone app actual
          else
            let name := if Ascii.eqb c1 "-"%char then s2 else String c1 s2 in
            match name with
            | EmptyString => ParseFail (ErrFlag "bad flag syntax")
            | String n0 nrest =>
                if Ascii.eqb n0 "-"%char || Ascii.eqb n0 "="%char
                then ParseFail (ErrFlag "bad flag syntax")
                else
                  let '(n', value) := cutAtEq nrest in
                  let name := String n0 n' in
                  match formal name with
                  | None =>
                      if String.eqb name "help" || String.eqb name "h"
                      then ParseFail (ErrFlag "help requested")
                      else ParseFail (ErrFlag "flag provided but not defined")
                  | Some BoolFlag =>
                      let v := match value with Some v => v | None => "true" end in
                      match setFlag app name v with
                      | SetOk app' => parse app' (name :: actual) rest
                      | SetErr e => ParseFail e
                      | SetExit => ParseExit
                      end
                  | Some ValueFlag =>
                      match value with
                      | Some v =>
                          match setFlag app name v with
                          | SetOk app' => parse app' (name :: actual) rest
                          | SetErr e => ParseFail e
                          | SetExit => ParseExit
                          end
                      | None =>
                          match rest with
                          | v :: rest' =>
                              match setFlag app name v with
                              | SetOk app' => parse app' (name :: actual) rest'
                              | SetErr e => ParseFail e
                              | SetExit => ParseExit
                              end
                          | [] => ParseFail (ErrFlag "flag needs an argument")
                          end
                      end
                  end
            end
      | _ => ParseDone app actual
      end
  end.

(** [flagx.ParseEnv]: each flag that was not set and for which the
    environment has a value is set to it.  [env] gives that value by the
    name of the flag. *)
Fixpoint parseEnv (app : appEnv) (actual : list string)
         (env : string -> option string) (flags : list (string * flagKind))
  : parseResult :=
  match flags with
  | [] => ParseDone app actual
  | (name, _) :: flags' =>
      if existsb (String.eqb name) actual then parseEnv app actual env flags'
      else
        match env name with
        | None => parseEnv app actual env flags'
        | Some v =>
            match setFlag app name v with
            | SetOk app' => parseEnv app' (name :: actual) env flags'
            | SetErr e => ParseFail e
            | SetExit => ParseExit
            end
        end
  end.

(** The defaults of the four lists of globs. *)
Definition withDefaults (app : appEnv) : appEnv :=
  let app1 := if Nat.eqb (List.length (incFile app)) 0 then setIncFile app ["*"] else app in
  let app2 := if Nat.eqb (List.length (exFile app1)) 0 then setExFile app1 [".*"] else app1 in
  let app3 := if Nat.eqb (List.length (incDir app2)) 0 then setIncDir app2 ["*"] else app2 in
  if Nat.eqb (List.length (exDir app3)) 0 then setExDir app3 [".*"] else app3.

(** [ParseArgs]: [ParseDone] with the list of the flags set is the return
    of [nil]. *)
Definition ParseArgs (app : appEnv) (args : list string)
           (env : string -> option string) : parseResult :=
  let app0 := setVerbose (setDryRun (setDir (setPatFile app "") ".") false) false in
  match parse app0 [] args with
  | ParseDone app1 actual1 =>
      match parseEnv app1 actual1 env formalFlags with
      | ParseDone app2 actual2 =>
          if negb (existsb (String.eqb "pat") actual2)
          then ParseFail (ErrFlag "missing required flag")
          else ParseDone (withDefaults app2) actual2
      | r => r
      end
  | r => r
  end.

(** ** Logging *)

(** [app.infoLevel] in [Current] and [app.Logger] in [Earlier] write only
    after [-verbose]. *)
Definition logInfo (app : appEnv) (m : logMsg) (w : World) : World :=
  if verbose app then record (EvLog Info m) w else w.

(** [app.warnLevel] always writes. *)
Definition logWarning (m : logMsg) (w : World) : World :=
  record (EvLog Warning m) w.

(** The warning for an error of the walk: [Current] logs it, [Earlier]
    prints it. *)
Definition warnWalk (v : variant) (e : error) (w : World) : World :=
  match v with
  | Current => logWarning (MsgWalkError e) w
  | Earlier => record (EvPrintWarning e) w
  end.

(** ** [loadSubstitutions] *)

Definition PanicOddArguments : error := SysError "strings.NewReplacer: odd argument count".

Definition loadSubstitutions (v : variant) (app : appEnv) (w : World)
  : World * result Replacer :=
  let w1 := record (EvOpenPatterns (patFile app)) w in
  match patterns w (patFile app) with
  | OpenFails e => (w1, Err (ErrOpeningPatterns e))
  | ReadFails e => (w1, Err (ErrReadingPatterns (patFile app) e))
  | Records records =>
      if negb (forallb (fun r : list string => Nat.eqb (List.length r) 2) records)
      then (w1, Err (ErrReadingPatterns (patFile app) ErrFieldCount))
      else
        let w2 :=
          match v with
          | Current =>
              if Nat.eqb (List.length records) 0
              then logWarning MsgNoSubstitutions w1
              else logInfo app (MsgFoundSubstitutions (List.length records)) w1
          | Earlier =>
              logInfo app (MsgFoundSubstitutions (List.length records)) w1
          end in
        let replacements :=
          flat_map (fun r : list string => [nth 0 r ""; nth 1 r ""]) records in
        match NewReplacer replacements with
        | Some replacer => (w2, Ok replacer)
        | None => (w2, Err PanicOddArguments)
        end
  end.

(** ** [walkDir] *)

(** [for _, glob := range globs { if matched, _ := filepath.Match(glob,
    name); matched { ... return } }] *)
Definition anyMatch (globs : list string) (name : string) : bool :=
  existsb (fun glob => Match glob name) globs.

(** The function [walkDir] gives to the walk; its state is the world and
    the slice [paths]; its boolean result is [true] for [filepath.SkipDir]
    and [false] for [nil].  The walk gives an entry whenever it gives no
    error. *)
Definition visit (v : variant) (app : appEnv) (path : string) (d : option entry)
           (err : option error) (st : World * list string)
  : (World * list string) * bool :=
  let '(w, paths) := st in
  match err, d with
  | Some e, _ => ((warnWalk v e w, paths), false)
  | None, None => (st, false)
  | None, Some d =>
      if IsDir d then
        if String.eqb path "." then (st, false)
        else if anyMatch (exDir app) (Name d)
        then ((logInfo app (MsgExcludeDir path) w, paths), true)
        else if anyMatch (incDir app) (Name d)
        then ((logInfo app (MsgMatchDir path) w, paths), false)
        else ((logInfo app (MsgNoMatchDir path) w, paths), true)
      else
        if anyMatch (exFile app) (Name d)
        then ((logInfo app (MsgExcludeFile path) w, paths), false)
        else if anyMatch (incFile app) (Name d)
        then ((logInfo app (MsgMatchFile path) w, (paths ++ [path])%list), false)
        else ((logInfo app (MsgNoMatchFile path) w, paths), false)
  end.

Definition note (e : event) (st : World * list string) : World * list string :=
  (record e (fst st), snd st).

Definition walkDir (v : variant) (app : appEnv) (w : World) : World * list string :=
  match v with
  | Current => WalkDir (visit v app) note (dir app) (lstat w (dir app)) (w, [])
  | Earlier => Walk (visit v app) note (dir app) (lstat w (dir app)) (w, [])
  end.

(** ** [processFile] *)

(** [0o644] *)
Definition defaultPerm : nat := 420.

Definition processFile (v : variant) (app : appEnv) (filePath : string)
           (replacer : Replacer) (w : World) : World * option error :=
  let '(w1, b) := ReadFile filePath w in
  match b with
  | Err e => (w1, Some (ErrReading filePath e))
  | Ok oldContent =>
      let newContent := Replace replacer oldContent in
      if dryRun app then
        if negb (String.eqb oldContent newContent)
        then (record (EvPrint filePath) w1, None)
        else (w1, None)
      else
        match v with
        | Current =>
            let '(w2, err) := WriteFile filePath newContent defaultPerm w1 in
            match err with
            | Some e => (w2, Some (ErrWriting filePath e))
            | None => (w2, None)
            end
        | Earlier =>
            let '(w2, info) := Stat filePath w1 in
            match info with
            | Err e => (w2, Some (ErrStating filePath e))
            | Ok m =>
                let '(w3, err) := WriteFile filePath newContent m w2 in
                match err with
                | Some e => (w3, Some (ErrWriting filePath e))
                | None => (w3, None)
                end
            end
        end
  end.

(** ** [Exec] *)

(** [for _, path := range paths { if err := app.processFile(path,
    replacer); err != nil { return err } }] *)
Fixpoint processFiles (v : variant) (app : appEnv) (replacer : Replacer)
         (paths : list string) (w : World) : World * option error :=
  match paths with
  | [] => (w, None)
  | path :: rest =>
      let '(w1, err) := processFile v app path replacer w in
      match err with
      | Some e => (w1, Some e)
      | None => processFiles v app replacer rest w1
      end
  end.

Definition Exec (v : variant) (app : appEnv) (w : World) : World * option error :=
  let '(w1, r) := loadSubstitutions v app w in
  match r with
  | Err e => (w1, Some e)
  | Ok replacer =>
      let '(w2, paths) := walkDir v app w1 in
      processFiles v app replacer paths w2
  end.

(** [CLI]: [None] is the end of the process in [ParseArgs]; the error of
    [Exec] is logged ([Current]) or printed ([Earlier]). *)
Definition CLI (v : variant) (args : list string) (env : string -> option string)
           (w : World) : option (World * option error) :=
  match ParseArgs zeroApp args env with
  | ParseFail e => Some (w, Some e)
  | ParseExit => None
  | ParseDone app _ =>
      let '(w1, err) := Exec v app w in
      match err with
      | Some e => Some (record (EvLog Error (MsgError e)) w1, Some e)
      | None => Some (w1, None)
      end
  end.

End Kawatte.
Import Kawatte.

(* ================================================================== *)
(** * The first revision of the package: a copy of the source *)

(** The first revision of [replaceall.go] has the same [CLI] and an [Exec]
    that copies the source given by [-src] to the standard output.  Its
    deferred functions are kept as such: they run after the body, the last
    one first, on the named result [err]. *)
Module Template.

(** The [io.ReadCloser] of [-src]: the bytes it gives before its end or
    its error, the error if there is one, and the error of [Close]. *)
Record source : Type := mkSource {
  data : string;
  readErr : option error;
  closeErr : option error
}.

Record appEnv : Type := mkApp {
  src : source;
  verbose : bool
}.

Inductive logLine : Type :=
| Starting
| Copied (n : nat)
| Done.

(** What [Exec] does to the outside. *)
Inductive output : Type :=
| OutLog (l : logLine)
| OutStdout (bytes : string)
| OutClose.

(** [app.Println] and [app.Printf]: the logger writes only after
    [-verbose]. *)
Definition println (app : appEnv) (l : logLine) (out : list output) : list output :=
  if verbose app then (out ++ [OutLog l])%list else out.

(** [io.Copy(os.Stdout, app.src)]: what was read is written; the result is
    the number of bytes and the error of the reading other than the end.
    Writing to the standard output is taken to succeed. *)
Definition Copy (s : source) (out : list output) : list output * nat * option error :=
  ((out ++ [OutStdout (data s)])%list, String.length (data s), readErr s).

(** The state a deferred function works on: what was done so far and the
    named result. *)
Definition frame : Type := (list output * option error)%type.

(** The deferred functions are run from the last one deferred. *)
Definition runDeferred (deferred : list (frame -> frame)) (st : frame) : frame :=
  fold_left (fun st d => d st) deferred st.

(** [func() { app.Println("done") }] *)
Definition deferDone (app : appEnv) (st : frame) : frame :=
  (println app Done (fst st), snd st).

(** [func() { e2 := app.src.Close(); if err == nil { err = e2 } }] *)
Definition deferClose (app : appEnv) (st : frame) : frame :=
  let e2 := closeErr (src app) in
  ((fst st ++ [OutClose])%list,
   match snd st with
   | None => e2
   | Some e => Some e
   end).

Definition Exec (app : appEnv) (out : list output) : list output * option error :=
  let out1 := println app Starting out in
  let deferred1 := [deferDone app] in
  let '(out2, n, err) := Copy (src app) out1 in
  let deferred2 := deferClose app :: deferred1 in
  let out3 := println app (Copied n) out2 in
  runDeferred deferred2 (out3, err).

(** What is not a line of the log. *)
Definition isLog (o : output) : bool :=
  match o with
  | OutLog _ => true
  | _ => false
  end.

End Template.

(* ================================================================== *)
(** * The trie as a finite map from keys to prioritized values *)

Module TrieSpec.

(** The pair stored at a node, if the node is a complete key. *)
Definition own (t : trieNode) : option (string * nat) :=
  if Nat.eqb (priority t) 0 then None else Some (value t, priority t).

(** The value and priority stored under exactly the key [k]. *)
Fixpoint get (t : trieNode) (k : string) {struct t} : option (string * nat) :=
  match k with
  | EmptyString => own t
  | String c k' =>
      match t with
      | Leaf _ _ => None
      | PrefixNode _ _ pre nx =>
          if negb (isEmpty pre) && HasPrefix k pre
          then get nx (drop (String.length pre) k)
          else None
      | TableNode _ _ tb =>
          match tb c with
          | Some ch => get ch k'
          | None => None
          end
      end
  end.

End TrieSpec.
Import TrieSpec.

(* ================================================================== *)
(** * What [lookup] finds *)

Module LookupSpec.

(** The value and priority [makeGenericReplacer] stores under the key [k]:
    those of the first pair whose old string is [k]. *)
Fixpoint firstWith (pairs : list subPair) (k : string) : option (string * nat) :=
  match pairs with
  | [] => None
  | (o, n) :: rest =>
      if String.eqb k o then Some (n, 2 * List.length pairs) else firstWith rest k
  end.

(** [k] is a key of the trie that starts [s]; the empty key is left out
    when [skip] is set. *)
Definition candidate (t : trieNode) (s : string) (skip : bool)
           (k v : string) (p : nat) : Prop :=
  HasPrefix s k = true /\ (skip = true -> k <> "") /\ get t k = Some (v, p).

(** [b'] is [b] improved by the candidates of [t] for [s]: it is [b] or one
    of the candidates, and no candidate has a higher priority. *)
Definition improves (t : trieNode) (s : string) (skip : bool) (n : nat)
           (b b' : best) : Prop :=
  (b' = b \/
   exists k, candidate t s skip k (val b') (bestPriority b') /\
             keylen b' = n + String.length k /\ found b' = true) /\
  bestPriority b <= bestPriority b' /\
  (forall k v p, candidate t s skip k v p -> p <= bestPriority b').


(** The step of [lookup] at one node. *)
Definition consider (node : trieNode) (skip : bool) (n : nat) (b : best) : best :=
  if Nat.ltb (bestPriority b) (priority node) && negb skip
  then mkBest (priority node) (value node) n true
  else b.

End LookupSpec.
Import LookupSpec.

(* ================================================================== *)
(** * The replacement, stated on the list of pairs *)

Module ReplaceSpec.

(** The subPair [p] applies at the start of [s]; an empty old string is left
    out right after an empty match. *)
Definition matches (s : string) (ignoreEmpty : bool) (p : subPair) : bool :=
  HasPrefix s (fst p) && negb (ignoreEmpty && isEmpty (fst p)).

(** The earliest-listed subPair that applies at the start of [s]. *)
Definition matchAt (pairs : list subPair) (s : string) (ignoreEmpty : bool)
  : option subPair :=
  find (matches s ignoreEmpty) pairs.

(** [Replaces pairs prev s out]: scanning [s] from left to right, with
    [prev] telling whether the previous step was an empty match, gives
    [out].  At each position the earliest-listed subPair that applies is
    replaced and the scan goes on after the match; where no subPair applies
    the byte is copied. *)
Inductive Replaces (pairs : list subPair) : bool -> string -> string -> Prop :=
| Replaces_match (prev : bool) (s o n out : string) :
    matchAt pairs s prev = Some (o, n) ->
    Replaces pairs (isEmpty o) (drop (String.length o) s) out ->
    Replaces pairs prev s (n ++ out)
| Replaces_copy (prev : bool) (c : ascii) (s out : string) :
    matchAt pairs (String c s) prev = None ->
    Replaces pairs false s out ->
    Replaces pairs prev (String c s) (String c out)
| Replaces_end (prev : bool) :
    matchAt pairs "" prev = None ->
    Replaces pairs prev "" "".

End ReplaceSpec.
Import ReplaceSpec.

(* ================================================================== *)
(** * The pairs read from the patterns file *)

Module LoadSpec.

(** The pairs [loadSubstitutions] makes of the records of the patterns
    file: the two fields of each record, in the order of the file. *)
Definition recordPairs (records : list (list string)) : list subPair :=
  map (fun r : list string => (nth 0 r "", nth 1 r "")) records.

(** Every record has two fields: the check of [reader.FieldsPerRecord = 2]. *)
Definition twoFields (records : list (list string)) : bool :=
  forallb (fun r : list string => Nat.eqb (List.length r) 2) records.

End LoadSpec.
Import LoadSpec.

(* ================================================================== *)
(** * What the program does to files *)

Module EffectSpec.

(** The file an event is about, for the events of [processFile]. *)
Definition touches (ev : event) : option string :=
  match ev with
  | EvReadFile p | EvStat p | EvWriteFile p _ _ | EvPrint p => Some p
  | _ => None
  end.

Definition isWrite (ev : event) : bool :=
  match ev with
  | EvWriteFile _ _ _ => true
  | _ => false
  end.

(** No file was written so far. *)
Definition noWrite (w : World) : Prop :=
  forall ev, In ev (trace w) -> isWrite ev = false.

End EffectSpec.
Import EffectSpec.

(* ================================================================== *)
(** * The filters *)

Module FilterSpec.

(** The three lists of globs that no flag assigns to. *)
Definition sameFilters (app app' : appEnv) : Prop :=
  exFile app' = exFile app /\ incDir app' = incDir app /\ exDir app' = exDir app.

(** The base name of the entry matches a glob of the exclude list for its
    kind. *)
Definition excluded (app : appEnv) (d : entry) : bool :=
  if IsDir d then anyMatch (exDir app) (Name d) else anyMatch (exFile app) (Name d).

(** The base name of the entry matches a glob of the include list for its
    kind. *)
Definition included (app : appEnv) (d : entry) : bool :=
  if IsDir d then anyMatch (incDir app) (Name d) else anyMatch (incFile app) (Name d).

(** What the walk function logs when it excludes the entry. *)
Definition excludeMsg (path : string) (d : entry) : logMsg :=
  if IsDir d then MsgExcludeDir path else MsgExcludeFile path.

End FilterSpec.
Import FilterSpec.

(* ================================================================== *)
(** * Inputs of the examples *)

Module Scenarios.

Definition noEnv : string -> option string := fun _ => None.

Definition noSuchFile : error := SysError "no such file or directory".

(** The [appEnv] after [ParseArgs] with [-pat pat -dir dir] only. *)
Definition defaultApp (pat dir : string) : appEnv :=
  mkApp pat dir ["*"] [".*"] ["*"] [".*"] false false.

(** A world with one tree, one patterns file and some regular files. *)
Definition world (root : string) (tree : entry) (pat : string)
           (records : list (list string)) (fs : fileSystem) : World :=
  mkWorld (fun p => if String.eqb p root then Ok tree else Err noSuchFile)
          (fun p => if String.eqb p pat then Records records else OpenFails noSuchFile)
          fs [].

Definition noFiles : fileSystem := fun _ => None.

Definition addFile (path : string) (f : fileState) (fs : fileSystem) : fileSystem :=
  fun p => if String.eqb p path then Some f else fs p.

Definition plainFile (content : string) (mode : nat) : fileState :=
  mkFile content mode None None None.

(** The substitutions [a,b], [b,c], [c,a] of the usage text and the file
    [in.txt] with [abcdef]. *)
Definition cyclePairs : list subPair := [("a", "b"); ("b", "c"); ("c", "a")].

Definition cycleByte (c : ascii) : ascii :=
  if Ascii.eqb c "a"%char then "b"%char
  else if Ascii.eqb c "b"%char then "c"%char
  else if Ascii.eqb c "c"%char then "a"%char
  else c.

Definition newline : string := String (ascii_of_nat 10) "".

Definition cycleCSV : string :=
  "a,b" ++ newline ++ "b,c" ++ newline ++ "c,a" ++ newline.

Definition cycleWorld : World :=
  world "." (Dir "." None [File "in.txt"; File "subs.csv"]) "subs.csv"
        [["a"; "b"]; ["b"; "c"]; ["c"; "a"]]
        (addFile "in.txt" (plainFile "abcdef" 420)
           (addFile "subs.csv" (plainFile cycleCSV 420) noFiles)).

Definition cycleApp : appEnv :=
  mkApp "subs.csv" "." ["*.txt"] [".*"] ["*"] [".*"] false false.

(** A hidden directory given as [-dir]. *)
Definition hiddenRootWorld : World :=
  world ".cfg" (Dir ".cfg" None [File "a.txt"]) "subs.csv" [["a"; "b"]]
        (addFile ".cfg/a.txt" (plainFile "a" 420) noFiles).

(** The current directory with one file. *)
Definition dotRootWorld : World :=
  world "." (Dir "." None [File "a.txt"]) "subs.csv" [["a"; "b"]]
        (addFile "a.txt" (plainFile "a" 420) noFiles).

(** The filters [{incDir: ["*"], exDir: ["tmp"]}] and a directory [tmp]. *)
Definition tmpApp : appEnv :=
  mkApp "subs.csv" "." ["*"] [".*"] ["*"] ["tmp"] false false.

Definition tmpDir : entry := Dir "tmp" None [File "x.txt"].

(** Two files, of which the first cannot be read. *)
Definition unreadable : fileState :=
  mkFile "a" 420 (Some (SysError "permission denied")) None None.

Definition failingWorld : World :=
  world "." (Dir "." None [File "a.txt"; File "b.txt"]) "subs.csv" [["a"; "b"]]
        (addFile "a.txt" unreadable (addFile "b.txt" (plainFile "a" 420) noFiles)).

(** A file with the mode [0o755]. *)
Definition scriptWorld : World :=
  world "." (Dir "." None [File "run.sh"]) "subs.csv" [["a"; "b"]]
        (addFile "run.sh" (plainFile "a" 493) noFiles).

End Scenarios.
Import Scenarios.

(* ================================================================== *)
(** * The selection of the walk as a function of the tree *)

Module WalkSpec.

(** What the walk function does with a file: it is selected if its base
    name matches no exclude-file glob and some include-file glob. *)
Definition selectFile (app : appEnv) (path name : string) : list string :=
  if anyMatch (exFile app) name then []
  else if anyMatch (incFile app) name then [path]
  else [].

(** Whether the walk goes into a directory: always for the path ["."],
    otherwise if its base name matches no exclude-dir glob and some
    include-dir glob. *)
Definition entersDir (app : appEnv) (path name : string) : bool :=
  String.eqb path "." ||
  (negb (anyMatch (exDir app) name) && anyMatch (incDir app) name).

(** The files [filepath.WalkDir] selects below [path], in the order of the
    listing; an error of reading a directory does not keep the walk from
    the entries that were read. *)
Fixpoint selectCurrent (app : appEnv) (path : string) (d : entry) {struct d}
  : list string :=
  match d with
  | File name => selectFile app path name
  | Dir name _ entries =>
      if entersDir app path name
      then flat_map (fun d1 => selectCurrent app (Join path (Name d1)) d1) entries
      else []
  end.

(** The files [filepath.Walk] selects below [path]: nothing in a directory
    that could not be read. *)
Fixpoint selectEarlier (app : appEnv) (path : string) (d : entry) {struct d}
  : list string :=
  match d with
  | File name => selectFile app path name
  | Dir name readErr entries =>
      match readErr with
      | Some _ => []
      | None =>
          if entersDir app path name
          then flat_map (fun d1 => selectEarlier app (Join path (Name d1)) d1) entries
          else []
      end
  end.



(** The selection of each variant. *)
Definition selected (v : variant) (app : appEnv) (path : string) (d : entry)
  : list string :=
  match v with
  | Current => selectCurrent app path d
  | Earlier => selectEarlier app path d
  end.

(** [reaches path d p name]: in the tree [d] walked from [path], the walk
    comes to a file with the base name [name] under the path [p]. *)
Inductive reaches : string -> entry -> string -> string -> Prop :=
| reaches_file (path name : string) :
    reaches path (File name) path name
| reaches_dir (path dirName : string) (readErr : option error)
              (entries : list entry) (d1 : entry) (p name : string) :
    In d1 entries ->
    reaches (Join path (Name d1)) d1 p name ->
    reaches path (Dir dirName readErr entries) p name.

End WalkSpec.
Import WalkSpec.

(* ================================================================== *)
(** * What a run reports and changes *)

Module ReportSpec.

(** The paths printed so far, in order. *)
Fixpoint printedPaths (evs : list event) : list string :=
  match evs with
  | [] => []
  | EvPrint p :: evs' => p :: printedPaths evs'
  | _ :: evs' => printedPaths evs'
  end.

(** The replacer changes the content of the file at [p]. *)
Definition wouldChange (replacer : Replacer) (w : World) (p : string) : bool :=
  match files w p with
  | Some f => negb (String.eqb (content f) (Replace replacer (content f)))
  | None => false
  end.



(** The translation of one byte by pairs whose old strings are one byte
    long: the new string of the first pair with this byte, or the byte. *)
Definition translateByte (pairs : list subPair) (c : ascii) : string :=
  match matchAt pairs (String c "") false with
  | Some (_, n) => n
  | None => String c ""
  end.

(** [quiet w w']: from [w] to [w'] nothing changed and what was done is
    about no regular file: no reading, [os.Stat], writing or printing of
    one. *)
Definition quiet (w w' : World) : Prop :=
  lstat w' = lstat w /\ patterns w' = patterns w /\ files w' = files w /\
  exists evs, trace w' = (trace w ++ evs)%list /\
              Forall (fun e => touches e = None) evs.



(** The two fields of every record are the same. *)
Definition sameFields (records : list (list string)) : Prop :=
  forall r, In r records -> nth 0 r "" = nth 1 r "".

End ReportSpec.
Import ReportSpec.

(* ================================================================== *)
(** * Further inputs of the examples *)

Module MoreScenarios.

Definition denied : error := SysError "permission denied".

(** A tree with a hidden file, a hidden directory, a directory of sources
    and a directory of which the reading fails after one entry. *)
Definition mixedTree : entry :=
  Dir "." None
      [ File "a.txt"; File ".hidden";
        Dir ".git" None [File "config"];
        Dir "src" None [File "b.txt"; File "c.go"];
        Dir "locked" (Some denied) [File "d.txt"] ].

Definition mixedWorld : World :=
  world "." mixedTree "subs.csv" [["a"; "b"]]
        (addFile "a.txt" (plainFile "aa" 420)
           (addFile "src/b.txt" (plainFile "xyz" 384)
              (addFile "src/c.go" (plainFile "banana" 420)
                 (addFile "locked/d.txt" (plainFile "a" 420) noFiles)))).

(** The same without the directory that cannot be read. *)
Definition plainTree : entry :=
  Dir "." None
      [ File "a.txt"; File ".hidden";
        Dir ".git" None [File "config"];
        Dir "src" None [File "b.txt"; File "c.go"] ].

Definition plainWorld : World :=
  world "." plainTree "subs.csv" [["a"; "b"]]
        (addFile "a.txt" (plainFile "aa" 420)
           (addFile "src/b.txt" (plainFile "xyz" 384)
              (addFile "src/c.go" (plainFile "banana" 420) noFiles))).

(** A patterns file with a record of one field, and one without records. *)
Definition shortRecordWorld : World :=
  world "." (Dir "." None [File "a.txt"]) "subs.csv" [["a"; "b"]; ["c"]]
        (addFile "a.txt" (plainFile "a" 420) noFiles).

Definition noRecordsWorld : World :=
  world "." (Dir "." None [File "a.txt"]) "subs.csv" []
        (addFile "a.txt" (plainFile "a" 420) noFiles).

(** [-dir nowhere] *)
Definition nowhereApp : appEnv :=
  mkApp "subs.csv" "nowhere" ["*"] [".*"] ["*"] [".*"] false false.

End MoreScenarios.
Import MoreScenarios.


(* ================================================================== *)
(** * Facts about slicing *)

Section StringFacts.

Lemma ascii_eqb_false (a b : ascii) : a <> b -> Ascii.eqb a b = false.
Proof. intros H. destruct (Ascii.eqb_spec a b); [contradiction | reflexivity]. Qed.

Lemma append_nil_r (s : string) : s ++ "" = s.
Proof. induction s; simpl; [reflexivity | now rewrite IHs]. Qed.

Lemma append_assoc (a b c : string) : (a ++ b) ++ c = a ++ b ++ c.
Proof. induction a; simpl; [reflexivity | now rewrite IHa]. Qed.

Lemma length_append (a b : string) :
  String.length (a ++ b) = String.length a + String.length b.
Proof. induction a; simpl; [reflexivity | now rewrite IHa]. Qed.

Lemma drop_nil (n : nat) : drop n "" = "".
Proof. destruct n; reflexivity. Qed.

Lemma drop_app (p r : string) : drop (String.length p) (p ++ r) = r.
Proof. induction p; simpl; [reflexivity | exact IHp]. Qed.

Lemma take_app (p r : string) : take (String.length p) (p ++ r) = p.
Proof. induction p; simpl; [now destruct r | now rewrite IHp]. Qed.

Lemma length_drop (n : nat) (s : string) :
  String.length (drop n s) = String.length s - n.
Proof.
  revert s; induction n; intros [|c s]; simpl; try reflexivity.
  apply IHn.
Qed.

Lemma drop_drop (n m : nat) (s : string) : drop n (drop m s) = drop (m + n) s.
Proof.
  revert s; induction m; intros s; simpl.
  - reflexivity.
  - destruct s; simpl; [apply drop_nil | apply IHm].
Qed.

Lemma HasPrefix_app (p r : string) : HasPrefix (p ++ r) p = true.
Proof. induction p; simpl; [reflexivity | now rewrite Ascii.eqb_refl]. Qed.

Lemma HasPrefix_split (s p : string) :
  HasPrefix s p = true -> s = p ++ drop (String.length p) s.
Proof.
  revert s; induction p as [|a p IH]; intros s H; simpl in *.
  - reflexivity.
  - destruct s as [|b s]; [discriminate|].
    apply andb_true_iff in H as [H1 H2].
    apply Ascii.eqb_eq in H1; subst b. simpl. f_equal. now apply IH.
Qed.

Lemma HasPrefix_iff (s p : string) :
  HasPrefix s p = true <-> exists r, s = p ++ r.
Proof.
  split.
  - intros H. eexists. now apply HasPrefix_split.
  - intros [r ->]. apply HasPrefix_app.
Qed.

Lemma HasPrefix_app_l (c x y : string) :
  HasPrefix (c ++ x) (c ++ y) = HasPrefix x y.
Proof. induction c; simpl; [reflexivity | now rewrite Ascii.eqb_refl]. Qed.

Lemma HasPrefix_refl (s : string) : HasPrefix s s = true.
Proof. induction s; simpl; [reflexivity | now rewrite Ascii.eqb_refl]. Qed.

Lemma HasPrefix_trans (s p q : string) :
  HasPrefix s p = true -> HasPrefix p q = true -> HasPrefix s q = true.
Proof.
  intros [r ->]%HasPrefix_iff [r' ->]%HasPrefix_iff.
  rewrite append_assoc. apply HasPrefix_app.
Qed.

Lemma HasPrefix_length (s p : string) :
  HasPrefix s p = true -> String.length p <= String.length s.
Proof. intros [r ->]%HasPrefix_iff. rewrite length_append. lia. Qed.

Lemma append_inj_l (c x y : string) : c ++ x = c ++ y -> x = y.
Proof. induction c; simpl; intros H; [exact H | injection H; auto]. Qed.

Lemma isEmpty_true (s : string) : isEmpty s = true <-> s = "".
Proof. destruct s; simpl; split; intros; congruence. Qed.

Lemma isEmpty_length (s : string) : isEmpty s = Nat.eqb (String.length s) 0.
Proof. destruct s; reflexivity. Qed.

End StringFacts.

Section TrieFacts.

Lemma trieNode_ind (P : trieNode -> Prop) :
  (forall v p, P (Leaf v p)) ->
  (forall v p pre nx, P nx -> P (PrefixNode v p pre nx)) ->
  (forall v p tb, (forall c ch, tb c = Some ch -> P ch) -> P (TableNode v p tb)) ->
  forall t, P t.
Proof.
  intros Hleaf Hpre Htab.
  fix IH 1. intros [v p | v p pre nx | v p tb].
  - apply Hleaf.
  - apply Hpre, IH.
  - apply Htab. intros c ch H.
    destruct (tb c) as [ch'|]; [|discriminate].
    injection H as <-. apply IH.
Qed.

Lemma commonPrefixLen_split (pre key : string) :
  exists c p' k',
    pre = c ++ p' /\ key = c ++ k' /\
    commonPrefixLen pre key = String.length c /\
    (forall a x b y, p' = String a x -> k' = String b y -> a <> b).
Proof.
  revert key; induction pre as [|a pre IH]; intros key.
  - exists "", "", key. repeat split; try reflexivity. intros; discriminate.
  - destruct key as [|b key].
    + exists "", (String a pre), "". repeat split; try reflexivity. intros; discriminate.
    + simpl. destruct (Ascii.eqb_spec a b) as [->|Hab].
      * destruct (IH key) as (c & p' & k' & -> & -> & Hn & Hd).
        exists (String b c), p', k'. repeat split; simpl; auto.
      * exists "", (String a pre), (String b key). repeat split; try reflexivity.
        intros ? ? ? ? [= <- <-] [= <- <-]. exact Hab.
Qed.

Lemma get_newNode (k : string) : get newNode k = None.
Proof. destruct k; reflexivity. Qed.

Lemma get_nil (t : trieNode) : get t "" = own t.
Proof. destruct t; reflexivity. Qed.

Lemma get_setValue (t : trieNode) (v : string) (p : nat) (c : ascii) (k : string) :
  get (setValue t v p) (String c k) = get t (String c k).
Proof. destruct t; reflexivity. Qed.

Lemma own_setValue (t : trieNode) (v : string) (p : nat) :
  0 < p -> own (setValue t v p) = Some (v, p).
Proof.
  intros Hp. unfold own. destruct t; simpl;
    destruct (Nat.eqb_spec p 0); try lia; reflexivity.
Qed.

Lemma get_prefixNode (v : string) (p : nat) (pre : string) (nx : trieNode) (k : string) :
  get (PrefixNode v p pre nx) k =
  if isEmpty k then own (PrefixNode v p pre nx)
  else if negb (isEmpty pre) && HasPrefix k pre
       then get nx (drop (String.length pre) k) else None.
Proof. destruct k; reflexivity. Qed.

Lemma eqb_append_l (c x y : string) : String.eqb (c ++ x) (c ++ y) = String.eqb x y.
Proof.
  destruct (String.eqb_spec x y) as [->|H].
  - apply String.eqb_refl.
  - apply String.eqb_neq. intros E. apply H. eapply append_inj_l, E.
Qed.

Lemma add_nil (fuel : nat) (t : trieNode) (v : string) (prio : nat) :
  add (S fuel) t "" v prio = if Nat.eqb (priority t) 0 then setValue t v prio else t.
Proof. reflexivity. Qed.

Lemma add_leaf (fuel : nat) (v : string) (p : nat) (c : ascii) (key val : string) (prio : nat) :
  add (S (S fuel)) (Leaf v p) (String c key) val prio =
  PrefixNode v p (String c key) (Leaf val prio).
Proof. reflexivity. Qed.

Lemma add_prefixNode (fuel : nat) (v : string) (p : nat) (p0 : ascii) (prest : string)
      (nx : trieNode) (k0 : ascii) (krest val : string) (prio : nat) :
  let pre := String p0 prest in
  let key := String k0 krest in
  add (S fuel) (PrefixNode v p pre nx) key val prio =
  let n := commonPrefixLen pre key in
  if Nat.eqb n (String.length pre) then
    PrefixNode v p pre (add fuel nx (drop n key) val prio)
  else if Nat.eqb n 0 then
    TableNode v p
      (setEntry (setEntry emptyTable p0
                   (if Nat.eqb (String.length pre) 1 then nx else PrefixNode "" 0 prest nx))
                k0 (add fuel newNode krest val prio))
  else
    PrefixNode v p (take n pre)
               (add fuel (PrefixNode "" 0 (drop n pre) nx) (drop n key) val prio).
Proof. reflexivity. Qed.

End TrieFacts.

Section TrieAdd.

Lemma own_positive (v : string) (p : nat) (t : trieNode) :
  value t = v -> priority t = p -> 0 < p -> own t = Some (v, p).
Proof.
  intros <- <- Hp. unfold own. destruct (Nat.eqb_spec (priority t) 0); [lia | reflexivity].
Qed.

Lemma HasPrefix_self_app (key r : string) (k : string) :
  k = key ++ r -> String.eqb k key = isEmpty r.
Proof.
  intros ->. destruct r.
  - rewrite append_nil_r. apply String.eqb_refl.
  - apply String.eqb_neq. intros E.
    assert (L : String.length (key ++ String a r) = String.length key) by now rewrite E.
    rewrite length_append in L. simpl in L. lia.
Qed.

Lemma eqb_not_prefix (k key : string) :
  HasPrefix k key = false -> String.eqb k key = false.
Proof.
  intros H. apply String.eqb_neq. intros ->. now rewrite HasPrefix_refl in H.
Qed.

Lemma isEmpty_app (c x : string) : 0 < String.length c -> isEmpty (c ++ x) = false.
Proof. destruct c; simpl; [lia | reflexivity]. Qed.

Lemma isEmpty_pos (c : string) : 0 < String.length c -> isEmpty c = false.
Proof. destruct c; simpl; [lia | reflexivity]. Qed.

(** A key added below a node without children. *)
Lemma get_add_fresh (v : string) (p : nat) (c : ascii) (key val : string) (prio : nat)
      (k : string) :
  0 < prio ->
  get (PrefixNode v p (String c key) (Leaf val prio)) k =
  if String.eqb k (String c key) then Some (val, prio)
  else if isEmpty k then own (Leaf v p) else None.
Proof.
  intros Hp. rewrite get_prefixNode.
  destruct k as [|a k]; [reflexivity|].
  cbn [isEmpty negb andb].
  destruct (HasPrefix (String a k) (String c key)) eqn:E.
  - apply HasPrefix_split in E. rewrite (HasPrefix_self_app _ _ _ E).
    rewrite E at 1. rewrite drop_app.
    destruct (drop _ (String a k)); simpl; [|reflexivity].
    apply own_positive; auto.
  - now rewrite (eqb_not_prefix _ _ E).
Qed.

Lemma get_add (fuel : nat) : forall t key val prio k,
  String.length key < fuel -> 0 < prio ->
  get (add fuel t key val prio) k =
  if String.eqb k key
  then match get t key with Some x => Some x | None => Some (val, prio) end
  else get t k.
Proof.
  induction fuel as [|fuel IH]; intros t key val prio k Hfuel Hprio; [lia|].
  destruct key as [|k0 krest].
  - (* the empty key is stored at the node itself *)
    rewrite add_nil, (get_nil t).
    destruct k as [|c k].
    + simpl String.eqb. rewrite get_nil.
      destruct (Nat.eqb (priority t) 0) eqn:E.
      * unfold own at 2. rewrite E. now apply own_setValue.
      * unfold own. now rewrite E.
    + simpl String.eqb. destruct (Nat.eqb (priority t) 0); [apply get_setValue | reflexivity].
  - simpl in Hfuel.
    destruct t as [v p | v p [|p0 prest] nx | v p tb].
    + (* no children *)
      destruct fuel as [|fuel]; [lia|]. rewrite add_leaf, get_add_fresh by assumption.
      destruct (String.eqb k (String k0 krest)); [reflexivity|].
      destruct k; reflexivity.
    + destruct fuel as [|fuel]; [lia|].
      change (add (S (S fuel)) (PrefixNode v p "" nx) (String k0 krest) val prio)
        with (PrefixNode v p (String k0 krest) (Leaf val prio)).
      rewrite get_add_fresh by assumption.
      destruct (String.eqb k (String k0 krest)); [reflexivity|].
      destruct k; reflexivity.
    + (* one child behind a prefix *)
      rewrite add_prefixNode. cbv zeta.
      set (pre := String p0 prest). set (key := String k0 krest).
      assert (Hlen : String.length key = S (String.length krest)) by reflexivity.
      assert (Hpos : 0 < String.length pre) by (unfold pre; simpl; lia).
      destruct (commonPrefixLen_split pre key) as (c & p' & k' & Hpre & Hkey & Hn & Hd).
      rewrite Hn.
      assert (Hlk : String.length key = String.length c + String.length k')
        by (rewrite Hkey; apply length_append).
      assert (Hlp : String.length pre = String.length c + String.length p')
        by (rewrite Hpre; apply length_append).
      destruct (Nat.eqb_spec (String.length c) (String.length pre)) as [Hc|Hc].
      * (* the prefix is a prefix of the key *)
        assert (p' = "") as ->.
        { destruct p' as [|a x]; [reflexivity | exfalso].
          change (String.length (String a x)) with (S (String.length x)) in Hlp. lia. }
        rewrite append_nil_r in Hpre. subst c.
        rewrite Hkey, drop_app, !get_prefixNode.
        destruct k as [|a k]; [reflexivity|].
        cbn [isEmpty]. rewrite (isEmpty_pos _ Hpos). cbn [negb andb].
        destruct (HasPrefix (String a k) pre) eqn:E.
        -- apply HasPrefix_iff in E as [r E]. rewrite E.
           rewrite eqb_append_l, !drop_app, !HasPrefix_app, isEmpty_app by assumption.
           rewrite IH by lia.
           reflexivity.
        -- replace (String.eqb (String a k) (pre ++ k')) with false; [reflexivity|].
           symmetry. apply String.eqb_neq. intros E'. rewrite E' in E.
           now rewrite HasPrefix_app in E.
      * destruct (Nat.eqb_spec (String.length c) 0) as [Hc0|Hc0].
        -- (* the first bytes differ: the node gets a table *)
           assert (c = "") as -> by (destruct c; [reflexivity | discriminate]).
           simpl in Hpre, Hkey. subst p' k'.
           assert (Hpk : p0 <> k0) by (eapply Hd; reflexivity).
           destruct k as [|a k]; [reflexivity|].
           cbn [get]. unfold setEntry, emptyTable.
           destruct (Ascii.eqb_spec a k0) as [->|Hak].
           ++ rewrite IH by lia. rewrite !get_newNode.
              unfold key, pre. cbn [String.eqb HasPrefix isEmpty negb andb].
              rewrite Ascii.eqb_refl, (ascii_eqb_false _ _ Hpk). reflexivity.
           ++ unfold key, pre. cbn [String.eqb HasPrefix isEmpty negb andb].
              rewrite (ascii_eqb_false _ _ Hak).
              destruct (Ascii.eqb_spec a p0) as [->|Hap].
              ** rewrite Ascii.eqb_refl. cbn [String.length drop].
                 destruct prest as [|p1 prest]; [reflexivity|].
                 cbn [String.length Nat.eqb]. rewrite get_prefixNode.
                 destruct k as [|b k]; reflexivity.
              ** rewrite (ascii_eqb_false _ _ (not_eq_sym Hap)). reflexivity.
        -- (* the prefix is split after the common part *)
           assert (Hp' : exists a x, p' = String a x)
             by (destruct p' as [|a x]; [rewrite Nat.add_0_r in Hlp; lia | eauto]).
           destruct Hp' as (a' & x' & Hp').
           assert (Hc' : exists b y, c = String b y)
             by (destruct c as [|b y]; [contradiction Hc0; reflexivity | eauto]).
           destruct Hc' as (b' & y' & Hc').
           assert (Hkp : HasPrefix k' p' = false).
           { rewrite Hp'. destruct k' as [|b y]; [reflexivity|].
             simpl. rewrite (ascii_eqb_false _ _ (Hd _ _ _ _ Hp' eq_refl)). reflexivity. }
           rewrite Hpre, Hkey, take_app, !drop_app, !get_prefixNode.
           destruct k as [|a k]; [rewrite Hc'; reflexivity|].
           cbn [isEmpty].
           replace (isEmpty c) with false by (now rewrite Hc').
           replace (isEmpty (c ++ k')) with false by (now rewrite Hc').
           replace (isEmpty (c ++ p')) with false by (now rewrite Hc').
           cbn [negb andb].
           rewrite HasPrefix_app_l, Hkp.
           destruct (HasPrefix (String a k) c) eqn:E.
           ++ apply HasPrefix_iff in E as [r E]. rewrite E.
              rewrite eqb_append_l, drop_app, HasPrefix_app_l.
              rewrite IH by lia. rewrite !get_prefixNode.
              replace (isEmpty p') with false by (now rewrite Hp').
              cbn [negb andb]. rewrite Hkp.
              replace (own (PrefixNode "" 0 p' nx)) with (@None (string * nat)) by reflexivity.
              rewrite length_append, <- drop_drop, drop_app.
              destruct (String.eqb r k'); [now destruct (isEmpty k')|].
              destruct r; [|reflexivity].
              rewrite Hp'. reflexivity.
           ++ replace (String.eqb (String a k) (c ++ k')) with false.
              2:{ symmetry. apply String.eqb_neq. intros E'. rewrite E' in E.
                  now rewrite HasPrefix_app in E. }
              destruct (HasPrefix (String a k) (c ++ p')) eqn:E2; [|reflexivity].
              rewrite (HasPrefix_trans _ _ _ E2 (HasPrefix_app c p')) in E. discriminate.
    + (* a table *)
      cbn [add].
      destruct k as [|a k]; [reflexivity|].
      cbn [get String.eqb]. unfold setEntry.
      destruct (Ascii.eqb_spec a k0) as [->|Hak].
      * rewrite IH by lia. destruct (tb k0); [reflexivity|].
        rewrite !get_newNode. reflexivity.
      * reflexivity.
Qed.

End TrieAdd.

Section LookupFacts.

Lemma get_addAll (pairs : list subPair) : forall t k,
  get (addAll t pairs) k =
  match get t k with Some x => Some x | None => firstWith pairs k end.
Proof.
  induction pairs as [|[o n] rest IH]; intros t k.
  - simpl. now destruct (get t k).
  - cbn [addAll firstWith]. rewrite IH, get_add by (simpl; lia).
    destruct (String.eqb_spec k o) as [->|Hko].
    + now destruct (get t o).
    + reflexivity.
Qed.

Lemma firstWith_bound (pairs : list subPair) (k v : string) (p : nat) :
  firstWith pairs k = Some (v, p) -> 0 < p <= 2 * List.length pairs.
Proof.
  induction pairs as [|[o n] rest IH]; cbn [firstWith]; [discriminate|].
  destruct (String.eqb k o).
  - intros [= <- <-]. simpl. lia.
  - intros H. apply IH in H. simpl. lia.
Qed.

Lemma consider_spec (node : trieNode) (skip : bool) (n : nat) (b : best) :
  let b' := consider node skip n b in
  (b' = b \/
   (skip = false /\ own node = Some (val b', bestPriority b') /\
    keylen b' = n /\ found b' = true)) /\
  bestPriority b <= bestPriority b' /\
  (forall v p, skip = false -> own node = Some (v, p) -> p <= bestPriority b').
Proof.
  unfold consider, own.
  destruct (Nat.ltb_spec (bestPriority b) (priority node)) as [Hlt|Hge];
    destruct skip; cbn [andb negb bestPriority val keylen found].
  - split; [now left|]. split; [lia|]. intros; discriminate.
  - split.
    + right. destruct (Nat.eqb_spec (priority node) 0); [lia|]. auto.
    + split; [lia|]. intros v p _.
      destruct (Nat.eqb (priority node) 0); [discriminate|]. intros [= _ <-]. lia.
  - split; [now left|]. split; [lia|]. intros; discriminate.
  - split; [now left|]. split; [lia|]. intros v p _.
    destruct (Nat.eqb (priority node) 0); [discriminate|]. intros [= _ <-]. lia.
Qed.

Lemma lookupFrom_unfold (node : trieNode) (isRoot : bool) (s : string) (n : nat)
      (ign : bool) (b : best) :
  lookupFrom node isRoot s n ign b =
  let b' := consider node (ign && isRoot) n b in
  match s with
  | EmptyString => b'
  | String c s' =>
      match node with
      | TableNode _ _ table =>
          match table c with
          | Some child => lookupFrom child false s' (S n) ign b'
          | None => b'
          end
      | PrefixNode _ _ prefix next =>
          if negb (isEmpty prefix) && HasPrefix s prefix
          then lookupFrom next false (drop (String.length prefix) s)
                          (n + String.length prefix) ign b'
          else b'
      | Leaf _ _ => b'
      end
  end.
Proof. destruct node; reflexivity. Qed.

(** The result when the walk stops at [node]: only the node itself counts. *)
Lemma improves_stop (node : trieNode) (skip : bool) (s : string) (n : nat) (b : best) :
  (forall k, k <> "" -> HasPrefix s k = true -> get node k = None) ->
  improves node s skip n b (consider node skip n b).
Proof.
  intros Hnone.
  destruct (consider_spec node skip n b) as (H1 & H2 & H3).
  split; [|split; [exact H2|]].
  - destruct H1 as [H1 | (Hs & Ho & Hk & Hf)]; [now left | right].
    exists "". split; [|split; [rewrite Hk; simpl; lia | exact Hf]].
    split; [reflexivity|]. split; [congruence|]. now rewrite get_nil.
  - intros k v p (Hp & Hsk & Hg).
    destruct k as [|c k].
    + rewrite get_nil in Hg. destruct skip; [now contradiction Hsk|]. eauto.
    + rewrite Hnone in Hg by (congruence || assumption). discriminate.
Qed.

(** The result when the walk goes on to a child [child] that holds the keys
    of [node] that start with [pre]. *)
Lemma improves_step (node child : trieNode) (skip : bool) (s pre rest : string)
      (n : nat) (b b' : best) :
  s = pre ++ rest -> pre <> "" ->
  (forall k, get node (pre ++ k) = get child k) ->
  (forall k, k <> "" -> HasPrefix s k = true -> get node k <> None ->
             HasPrefix k pre = true) ->
  improves child rest false (n + String.length pre) (consider node skip n b) b' ->
  improves node s skip n b b'.
Proof.
  intros -> Hpre Hget Hkeys H. destruct H as (H1 & H2 & H3).
  destruct (consider_spec node skip n b) as (C1 & C2 & C3).
  split; [|split; [lia|]].
  - destruct H1 as [-> | (k & (Hp & _ & Hg) & Hk & Hf)].
    + destruct C1 as [C1 | (Hs & Ho & Hk & Hf)]; [now left | right].
      exists "". split; [|split; [rewrite Hk; simpl; lia | exact Hf]].
      split; [reflexivity|]. split; [congruence|]. now rewrite get_nil.
    + right. exists (pre ++ k). split; [|split; [|exact Hf]].
      * split; [now rewrite HasPrefix_app_l|]. split; [|now rewrite Hget].
        intros _. destruct pre; [congruence | discriminate].
      * rewrite Hk, length_append. lia.
  - intros k v p (Hp & Hsk & Hg).
    destruct k as [|c k].
    + rewrite get_nil in Hg. destruct skip; [now contradiction Hsk|].
      specialize (C3 _ _ eq_refl Hg). lia.
    + assert (Hk : HasPrefix (String c k) pre = true)
        by (apply Hkeys; [discriminate | assumption | congruence]).
      apply HasPrefix_iff in Hk as [r Hk]. rewrite Hk in *.
      rewrite HasPrefix_app_l in Hp. rewrite Hget in Hg.
      apply (H3 r v p). split; [exact Hp|]. split; [discriminate|exact Hg].
Qed.

Lemma lookupFrom_improves : forall t isRoot s n ign b,
  improves t s (ign && isRoot) n b (lookupFrom t isRoot s n ign b).
Proof.
  induction t as [v p | v p pre nx IH | v p tb IH] using trieNode_ind;
    intros isRoot s n ign b; rewrite lookupFrom_unfold; cbv zeta.
  - (* no children *)
    assert (H : improves (Leaf v p) s (ign && isRoot) n b
                         (consider (Leaf v p) (ign && isRoot) n b)).
    { apply improves_stop. intros [|c k] Hk _; [congruence | reflexivity]. }
    destruct s; exact H.
  - (* one child behind a prefix *)
    destruct s as [|c s].
    { apply improves_stop. intros [|a k] Hk Hp; [congruence | discriminate]. }
    destruct (negb (isEmpty pre) && HasPrefix (String c s) pre) eqn:E.
    + apply andb_true_iff in E as [E1 E2].
      apply HasPrefix_split in E2.
      eapply improves_step with (pre := pre); [exact E2 | | | | ].
      * intros ->. discriminate.
      * intros k. rewrite get_prefixNode, E1, HasPrefix_app, drop_app.
        rewrite isEmpty_app; [reflexivity|]. destruct pre; [discriminate | simpl; lia].
      * intros k Hk Hp Hg. rewrite get_prefixNode in Hg.
        destruct k; [congruence|]. cbn [isEmpty] in Hg.
        destruct (HasPrefix (String a k) pre); [reflexivity|].
        rewrite andb_false_r in Hg. congruence.
      * specialize (IH false (drop (String.length pre) (String c s))
                       (n + String.length pre) ign
                       (consider (PrefixNode v p pre nx) (ign && isRoot) n b)).
        rewrite andb_false_r in IH. exact IH.
    + apply improves_stop. intros k Hk Hp.
      rewrite get_prefixNode. destruct k as [|a k]; [congruence|]. cbn [isEmpty].
      destruct (negb (isEmpty pre)); [|reflexivity]. cbn [andb] in *.
      destruct (HasPrefix (String a k) pre) eqn:E'; [|reflexivity].
      rewrite (HasPrefix_trans _ _ _ Hp E') in E. discriminate.
  - (* a table *)
    destruct s as [|c s].
    { apply improves_stop. intros [|a k] Hk Hp; [congruence | discriminate]. }
    destruct (tb c) as [ch|] eqn:E.
    + eapply improves_step with (pre := String c "") (rest := s); [reflexivity | discriminate | | | ].
      * intros k. cbn [append get]. now rewrite E.
      * intros [|a k] Hk Hp Hg; [congruence|].
        cbn [HasPrefix] in Hp. apply andb_true_iff in Hp as [Hp _].
        apply Ascii.eqb_eq in Hp as ->. cbn [HasPrefix]. now rewrite Ascii.eqb_refl.
      * specialize (IH c ch E false s (n + String.length (String c "")) ign
                       (consider (TableNode v p tb) (ign && isRoot) n b)).
        rewrite andb_false_r in IH.
        replace (S n) with (n + String.length (String c "")) by (simpl; lia).
        exact IH.
    + apply improves_stop. intros [|a k] Hk Hp; [congruence|].
      cbn [HasPrefix] in Hp. apply andb_true_iff in Hp as [Hp _].
      apply Ascii.eqb_eq in Hp as ->. cbn [get]. now rewrite E.
Qed.

End LookupFacts.

Section GenericFacts.

Lemma matches_true (s : string) (ign : bool) (o n : string) :
  matches s ign (o, n) = true <->
  HasPrefix s o = true /\ (ign = true -> o <> "").
Proof.
  unfold matches. cbn [fst]. rewrite andb_true_iff, negb_true_iff, andb_false_iff.
  split; intros [H1 H2]; split; auto.
  - intros -> ->. destruct H2; discriminate.
  - destruct ign; [right | now left]. destruct o; [now contradiction H2 | reflexivity].
Qed.

Lemma firstWith_head (o n : string) (rest : list subPair) (k : string) :
  k <> o -> firstWith ((o, n) :: rest) k = firstWith rest k.
Proof. intros H. cbn [firstWith]. apply String.eqb_neq in H. now rewrite H. Qed.

(** The candidate of highest priority is the earliest-listed subPair that
    applies. *)
Lemma best_is_first (pairs : list subPair) (s : string) (ign : bool) (b' : best) :
  (b' = noBest \/
   exists k, (HasPrefix s k = true /\ (ign = true -> k <> "") /\
              firstWith pairs k = Some (val b', bestPriority b')) /\
             keylen b' = String.length k /\ found b' = true) ->
  (forall k v p, HasPrefix s k = true -> (ign = true -> k <> "") ->
                 firstWith pairs k = Some (v, p) -> p <= bestPriority b') ->
  match matchAt pairs s ign with
  | Some (o, n) => found b' = true /\ val b' = n /\ keylen b' = String.length o
  | None => b' = noBest
  end.
Proof.
  unfold matchAt.
  induction pairs as [|[o n] rest IH]; intros H1 H2; cbn [find].
  - destruct H1 as [H1 | (k & (_ & _ & H) & _)]; [exact H1 | discriminate].
  - destruct (matches s ign (o, n)) eqn:E.
    + apply matches_true in E as [E1 E2].
      assert (Ho : firstWith ((o, n) :: rest) o = Some (n, 2 * List.length ((o, n) :: rest)))
        by (cbn [firstWith]; now rewrite String.eqb_refl).
      specialize (H2 _ _ _ E1 E2 Ho). cbn [List.length] in H2.
      destruct H1 as [-> | (k & (Hp & Hk & Hf) & Hl & Hfd)]; [simpl in H2; lia|].
      destruct (String.eqb_spec k o) as [Heq|Hko].
      * rewrite Heq in Hf, Hl. pose proof (eq_trans (eq_sym Hf) Ho) as Hv.
        injection Hv as Hv _. auto.
      * rewrite firstWith_head in Hf by assumption.
        apply firstWith_bound in Hf. lia.
    + assert (Hne : forall k, HasPrefix s k = true -> (ign = true -> k <> "") -> k <> o).
      { intros k Hp Hk ->. assert (matches s ign (o, n) = true) by now apply matches_true.
        congruence. }
      apply IH.
      * destruct H1 as [H1 | (k & (Hp & Hk & Hf) & Hl & Hfd)]; [now left | right].
        exists k. rewrite firstWith_head in Hf by auto. auto.
      * intros k v p Hp Hk Hf. apply (H2 k v p Hp Hk).
        rewrite firstWith_head by auto. exact Hf.
Qed.


Lemma get_emptyRoot (k : string) : get emptyRoot k = None.
Proof. destruct k; reflexivity. Qed.

Lemma get_root (pairs : list subPair) (k : string) :
  get (addAll emptyRoot pairs) k = firstWith pairs k.
Proof. now rewrite get_addAll, get_emptyRoot. Qed.

(** [lookup] returns the earliest-listed subPair that applies. *)
Lemma lookup_matchAt (pairs : list subPair) (s : string) (ign : bool) :
  let b := lookup (addAll emptyRoot pairs) s ign in
  match matchAt pairs s ign with
  | Some (o, n) => found b = true /\ val b = n /\ keylen b = String.length o
  | None => b = noBest
  end.
Proof.
  cbv zeta. unfold lookup.
  destruct (lookupFrom_improves (addAll emptyRoot pairs) true s 0 ign noBest)
    as (H1 & _ & H3).
  rewrite andb_true_r in *.
  apply best_is_first.
  - destruct H1 as [H1 | (k & (Hp & Hk & Hg) & Hl & Hf)]; [now left | right].
    exists k. rewrite get_root in Hg. auto.
  - intros k v p Hp Hk Hf. apply (H3 k v p). split; [exact Hp|]. split; [exact Hk|].
    now rewrite get_root.
Qed.

End GenericFacts.

Section GenericLoop.

Variable pairs : list subPair.

Lemma firstWith_some (l : list subPair) (o n : string) :
  In (o, n) l -> firstWith l o <> None.
Proof.
  induction l as [|[o' n'] rest IH]; intros H; [contradiction|].
  cbn [firstWith]. destruct (String.eqb_spec o o') as [|Hne]; [discriminate|].
  destruct H as [[= -> ->]|H]; [now contradiction Hne | auto].
Qed.

Lemma find_none_iff (A : Type) (f : A -> bool) (l : list A) :
  (forall x, In x l -> f x = false) -> find f l = None.
Proof.
  induction l as [|a l IH]; intros H; [reflexivity|]. cbn [find].
  rewrite (H a) by now left. apply IH. intros x Hx. apply H. now right.
Qed.

Lemma skipByte_matchAt (c : ascii) (s : string) (prev : bool) :
  skipByte (addAll emptyRoot pairs) c = true ->
  matchAt pairs (String c s) prev = None /\ firstWith pairs "" = None.
Proof.
  intros H. unfold skipByte in H.
  assert (G := get_root pairs).
  destruct (addAll emptyRoot pairs) as [| |v p tb]; try discriminate.
  apply andb_true_iff in H as [Hp Ht].
  assert (G0 : firstWith pairs "" = None).
  { rewrite <- G. cbn [get]. unfold own. cbn [priority]. now rewrite Hp. }
  split; [|exact G0].
  apply find_none_iff. intros [o n] Hin.
  destruct (matches (String c s) prev (o, n)) eqn:E; [|reflexivity].
  apply matches_true in E as [E _].
  apply firstWith_some in Hin. contradiction Hin.
  destruct o as [|a o]; [exact G0|].
  cbn [HasPrefix] in E. apply andb_true_iff in E as [E _].
  apply Ascii.eqb_eq in E as ->.
  rewrite <- G. cbn [get]. now destruct (tb c).
Qed.

Lemma matchAt_some (s : string) (prev : bool) (o n : string) :
  matchAt pairs s prev = Some (o, n) ->
  In (o, n) pairs /\ HasPrefix s o = true /\ (prev = true -> o <> "").
Proof.
  intros H. apply find_some in H as [H1 H2]. apply matches_true in H2. tauto.
Qed.

(** The loop of the generic replacer ends and computes the scan. *)
Lemma genericReplace_Replaces : forall (fuel : nat) (s : string) (prev : bool),
  2 * String.length s + (if prev then 0 else 1) < fuel ->
  (prev = true -> firstWith pairs "" <> None) ->
  exists out,
    genericReplace fuel (addAll emptyRoot pairs) s prev = Some out /\
    Replaces pairs prev s out.
Proof.
  induction fuel as [|fuel IH]; intros s prev Hfuel Hprev; [lia|].
  assert (Hslow :
    exists out,
      (let b := lookup (addAll emptyRoot pairs) s prev in
       let prev' := found b && Nat.eqb (keylen b) 0 in
       if found b then
         option_map (append (val b))
           (genericReplace fuel (addAll emptyRoot pairs) (drop (keylen b) s) prev')
       else
         match s with
         | EmptyString => Some EmptyString
         | String c s' =>
             option_map (String c) (genericReplace fuel (addAll emptyRoot pairs) s' prev')
         end) = Some out /\ Replaces pairs prev s out).
  { cbv zeta. pose proof (lookup_matchAt pairs s prev) as L. cbv zeta in L.
    destruct (matchAt pairs s prev) as [[o n]|] eqn:M.
    - destruct L as (Lf & Lv & Lk). rewrite Lf, Lk, Lv. cbn [andb].
      rewrite <- isEmpty_length.
      destruct (matchAt_some _ _ _ _ M) as (Hin & Hp & Hne).
      apply HasPrefix_length in Hp.
      destruct (IH (drop (String.length o) s) (isEmpty o)) as (out & Ho & Hr).
      + rewrite length_drop. destruct o as [|a o]; cbn [isEmpty String.length] in *.
        * destruct prev; [now contradiction Hne | lia].
        * lia.
      + intros E. apply isEmpty_true in E. subst o. eapply firstWith_some, Hin.
      + exists (n ++ out). rewrite Ho. split; [reflexivity|].
        eapply Replaces_match; eassumption.
    - rewrite L. change (found noBest) with false. cbn [andb].
      destruct s as [|c s].
      + exists "". split; [reflexivity|]. now apply Replaces_end.
      + destruct (IH s false) as (out & Ho & Hr); [cbn [String.length] in Hfuel; lia | discriminate |].
        exists (String c out). rewrite Ho. split; [reflexivity|].
        now apply Replaces_copy. }
  cbn [genericReplace].
  destruct s as [|c s]; [exact Hslow|].
  destruct (skipByte (addAll emptyRoot pairs) c) eqn:F; [|exact Hslow].
  apply (skipByte_matchAt c s prev) in F as [F1 F2].
  destruct prev; [now contradiction Hprev|].
  destruct (IH s false) as (out & Ho & Hr); [cbn [String.length] in Hfuel; lia | discriminate |].
  exists (String c out). rewrite Ho. split; [reflexivity|].
  now apply Replaces_copy.
Qed.

End GenericLoop.

(* ================================================================== *)
(** * The three special replacers compute the same scan *)

Section ByteFacts.

Variable pairs : list subPair.
Hypothesis oneByte : forallb (fun p : subPair => Nat.eqb (String.length (fst p)) 1) pairs = true.

Lemma length_one (s : string) : String.length s = 1 -> s = String (firstByte s) "".
Proof. destruct s as [|c [|d s]]; simpl; intros H; try discriminate; reflexivity. Qed.

Lemma oneByte_In (o n : string) : In (o, n) pairs -> String.length o = 1.
Proof.
  intros H. rewrite forallb_forall in oneByte.
  apply oneByte in H. now apply Nat.eqb_eq in H.
Qed.

Lemma oneByte_matches (c : ascii) (s : string) (prev : bool) (o n : string) :
  String.length o = 1 ->
  matches (String c s) prev (o, n) = Ascii.eqb c (firstByte o).
Proof.
  intros H. rewrite (length_one _ H). unfold matches. cbn [fst HasPrefix isEmpty firstByte].
  rewrite (Ascii.eqb_sym (firstByte o) c).
  destruct (Ascii.eqb c (firstByte o)), prev; reflexivity.
Qed.

Lemma oneByte_matchAt_nil (prev : bool) : matchAt pairs "" prev = None.
Proof.
  apply find_none_iff. intros [o n] H. apply oneByte_In in H.
  rewrite (length_one _ H). reflexivity.
Qed.

End ByteFacts.

Section ByteReplacerFacts.

Lemma makeByteReplacer_matchAt (pairs : list subPair) (c : ascii) (s : string) (prev : bool) :
  forallb (fun p : subPair => Nat.eqb (String.length (fst p)) 1) pairs = true ->
  makeByteReplacer pairs c =
  match matchAt pairs (String c s) prev with
  | Some (_, n) => firstByte n
  | None => c
  end.
Proof.
  unfold matchAt.
  induction pairs as [|[o n] rest IH]; intros H; [reflexivity|].
  cbn [forallb fst] in H. apply andb_true_iff in H as [H1 H2].
  apply Nat.eqb_eq in H1.
  cbn [makeByteReplacer fold_right find fst snd].
  rewrite (oneByte_matches c s prev o n H1). unfold setByte.
  destruct (Ascii.eqb c (firstByte o)); [reflexivity|].
  now apply IH.
Qed.

Lemma makeByteStringReplacer_matchAt (pairs : list subPair) (c : ascii) (s : string)
      (prev : bool) :
  forallb (fun p : subPair => Nat.eqb (String.length (fst p)) 1) pairs = true ->
  fst (makeByteStringReplacer pairs) c =
  match matchAt pairs (String c s) prev with
  | Some (_, n) => Some n
  | None => None
  end.
Proof.
  unfold matchAt.
  induction pairs as [|[o n] rest IH]; intros H; [reflexivity|].
  cbn [forallb fst] in H. apply andb_true_iff in H as [H1 H2].
  apply Nat.eqb_eq in H1.
  cbn [makeByteStringReplacer fold_right find].
  fold (makeByteStringReplacer rest).
  destruct (makeByteStringReplacer rest) as [repl toReplace] eqn:E.
  cbn [fst snd]. rewrite (oneByte_matches c s prev o n H1). unfold setRepl.
  destruct (Ascii.eqb c (firstByte o)); [reflexivity|].
  exact (IH H2).
Qed.

Lemma concatMap_unchanged (repl : ascii -> option string) (s : string) :
  existsByte (fun b => match repl b with Some _ => true | None => false end) s = false ->
  concatMap (fun b => match repl b with Some n => n | None => String b "" end) s = s.
Proof.
  induction s as [|c s IH]; cbn [existsByte concatMap]; [reflexivity|].
  intros H. apply orb_false_iff in H as [H1 H2].
  destruct (repl c); [discriminate|]. cbn [append]. now rewrite IH.
Qed.

(** Every byte with a replacement is listed in [toReplace]. *)
Lemma makeByteStringReplacer_toReplace (pairs : list subPair) (b : ascii) :
  fst (makeByteStringReplacer pairs) b <> None ->
  In (String b "") (snd (makeByteStringReplacer pairs)).
Proof.
  induction pairs as [|[o n] rest IH]; [intros H; now contradiction H|].
  cbn [makeByteStringReplacer fold_right]. fold (makeByteStringReplacer rest).
  destruct (makeByteStringReplacer rest) as [repl toReplace].
  cbn [fst snd] in *. unfold setRepl.
  destruct (Ascii.eqb_spec b (firstByte o)) as [->|Hne].
  - intros _. destruct (repl (firstByte o)) eqn:E.
    + apply IH. discriminate.
    + apply in_or_app. right. now left.
  - intros H. specialize (IH H).
    destruct (repl (firstByte o)); [exact IH | apply in_or_app; now left].
Qed.

Lemma existsByte_witness (f : ascii -> bool) (s : string) :
  existsByte f s = true -> exists b, f b = true /\ Count s (String b "") <> 0.
Proof.
  induction s as [|c s IH]; cbn [existsByte]; [discriminate|].
  destruct (f c) eqn:E.
  - intros _. exists c. split; [exact E|]. cbn [Count firstByte].
    rewrite Ascii.eqb_refl. discriminate.
  - cbn [orb]. intros H. destruct (IH H) as (b & Hb & Hc).
    exists b. split; [exact Hb|]. cbn [Count firstByte].
    destruct (Ascii.eqb c b); [discriminate | exact Hc].
Qed.

Lemma byteStringReplace_concatMap (repl : ascii -> option string)
      (toReplace : list string) (s : string) :
  (forall b, repl b <> None -> In (String b "") toReplace) ->
  byteStringReplace repl toReplace s =
  concatMap (fun b => match repl b with Some n => n | None => String b "" end) s.
Proof.
  intros Hcov. unfold byteStringReplace.
  destruct (existsByte (fun b => match repl b with Some _ => true | None => false end) s)
    eqn:E.
  - destruct (Nat.leb _ _); cbn [negb]; [|reflexivity].
    destruct (existsByte_witness _ _ E) as (b & Hb & Hc).
    replace (existsb _ toReplace) with true; [reflexivity|].
    symmetry. apply existsb_exists. exists (String b ""). split.
    + apply Hcov. destruct (repl b); discriminate.
    + apply negb_true_iff, Nat.eqb_neq, Hc.
  - rewrite (concatMap_unchanged repl s E).
    repeat match goal with
           | |- context [if ?c then _ else _] => destruct c
           end; reflexivity.
Qed.

Lemma byteReplacer_Replaces (pairs : list subPair) (s : string) :
  forallb (fun p : subPair => Nat.eqb (String.length (fst p)) 1) pairs = true ->
  forallb (fun p : subPair => Nat.eqb (String.length (snd p)) 1) pairs = true ->
  Replaces pairs false s (mapBytes (makeByteReplacer pairs) s).
Proof.
  intros Hold Hnew.
  induction s as [|c s IH]; cbn [mapBytes].
  - apply Replaces_end. now apply oneByte_matchAt_nil.
  - rewrite (makeByteReplacer_matchAt pairs c s false Hold).
    destruct (matchAt pairs (String c s) false) as [[o n]|] eqn:M.
    + destruct (matchAt_some _ _ _ _ _ M) as (Hin & _ & _).
      pose proof (oneByte_In _ Hold _ _ Hin) as Ho.
      rewrite forallb_forall in Hnew. apply Hnew, Nat.eqb_eq in Hin. cbn [snd] in Hin.
      change (String (firstByte n) (mapBytes (makeByteReplacer pairs) s))
        with (String (firstByte n) "" ++ mapBytes (makeByteReplacer pairs) s).
      rewrite <- (length_one _ Hin).
      eapply Replaces_match; [exact M|].
      rewrite (length_one _ Ho). exact IH.
    + now apply Replaces_copy.
Qed.

Lemma byteStringReplacer_Replaces (pairs : list subPair) (s : string) :
  forallb (fun p : subPair => Nat.eqb (String.length (fst p)) 1) pairs = true ->
  Replaces pairs false s
           (byteStringReplace (fst (makeByteStringReplacer pairs))
                              (snd (makeByteStringReplacer pairs)) s).
Proof.
  intros Hold.
  rewrite byteStringReplace_concatMap by apply makeByteStringReplacer_toReplace.
  induction s as [|c s IH]; cbn [concatMap].
  - apply Replaces_end. now apply oneByte_matchAt_nil.
  - rewrite (makeByteStringReplacer_matchAt pairs c s false Hold).
    destruct (matchAt pairs (String c s) false) as [[o n]|] eqn:M.
    + destruct (matchAt_some _ _ _ _ _ M) as (Hin & _ & _).
      pose proof (oneByte_In _ Hold _ _ Hin) as Ho.
      eapply Replaces_match; [exact M|].
      rewrite (length_one _ Ho). exact IH.
    + now apply Replaces_copy.
Qed.

End ByteReplacerFacts.

Section SingleFacts.

Variables pattern value : string.
Hypothesis nonEmpty : pattern <> "".

Lemma single_matchAt (s : string) (prev : bool) :
  matchAt [(pattern, value)] s prev =
  if HasPrefix s pattern then Some (pattern, value) else None.
Proof.
  unfold matchAt, matches. cbn [find fst].
  destruct pattern; [now contradiction nonEmpty|].
  cbn [isEmpty]. rewrite andb_false_r. cbn [negb]. rewrite andb_true_r.
  now destruct (HasPrefix s (String a s0)).
Qed.

Lemma Index_none_Replaces (s : string) :
  Index pattern s = None -> Replaces [(pattern, value)] false s s.
Proof.
  induction s as [|c s IH]; cbn [Index]; intros H.
  - apply Replaces_end. rewrite single_matchAt.
    destruct (HasPrefix "" pattern); [discriminate | reflexivity].
  - destruct (HasPrefix (String c s) pattern) eqn:E; [discriminate|].
    apply Replaces_copy.
    + now rewrite single_matchAt, E.
    + apply IH. destruct (Index pattern s); [discriminate | reflexivity].
Qed.

Lemma Index_some_Replaces (s : string) : forall m out,
  Index pattern s = Some m ->
  Replaces [(pattern, value)] false (drop (m + String.length pattern) s) out ->
  Replaces [(pattern, value)] false s (take m s ++ value ++ out).
Proof.
  assert (Hne : isEmpty pattern = false)
    by (destruct pattern; [now contradiction nonEmpty | reflexivity]).
  induction s as [|c s IH]; intros m out; cbn [Index].
  - destruct (HasPrefix "" pattern) eqn:E; [|discriminate].
    intros [= <-] H. cbn [take append Nat.add] in *.
    eapply Replaces_match; [now rewrite single_matchAt, E|]. now rewrite Hne.
  - destruct (HasPrefix (String c s) pattern) eqn:E.
    + intros [= <-] H. cbn [take append Nat.add] in *.
      eapply Replaces_match; [now rewrite single_matchAt, E|]. now rewrite Hne.
    + destruct (Index pattern s) as [m'|] eqn:I; [|discriminate].
      intros [= <-] H. cbn [take append Nat.add drop] in *.
      apply Replaces_copy; [now rewrite single_matchAt, E|].
      now apply IH.
Qed.

Lemma Index_bound (s : string) (m : nat) :
  Index pattern s = Some m -> m + String.length pattern <= String.length s.
Proof.
  revert m; induction s as [|c s IH]; intros m; cbn [Index].
  - destruct (HasPrefix "" pattern) eqn:E; [|discriminate].
    intros [= <-]. apply HasPrefix_length in E. simpl in *. lia.
  - destruct (HasPrefix (String c s) pattern) eqn:E.
    + intros [= <-]. apply HasPrefix_length in E. simpl in *. lia.
    + destruct (Index pattern s) as [m'|]; [|discriminate].
      intros [= <-]. specialize (IH _ eq_refl). simpl. lia.
Qed.

(** The loop of the single-string replacer ends and computes the scan. *)
Lemma singleReplace_Replaces : forall (fuel : nat) (s : string),
  String.length s < fuel ->
  exists out,
    singleReplace fuel pattern value s = Some out /\
    Replaces [(pattern, value)] false s out.
Proof.
  induction fuel as [|fuel IH]; intros s Hfuel; [lia|].
  cbn [singleReplace].
  destruct (Index pattern s) as [m|] eqn:I.
  - pose proof (Index_bound _ _ I) as Hb.
    assert (Hp : 0 < String.length pattern)
      by (destruct pattern; [now contradiction nonEmpty | simpl; lia]).
    destruct (IH (drop (m + String.length pattern) s)) as (out & Ho & Hr).
    { rewrite length_drop. lia. }
    rewrite Ho. eexists. split; [reflexivity|].
    now apply Index_some_Replaces.
  - exists s. split; [reflexivity|]. now apply Index_none_Replaces.
Qed.

End SingleFacts.

Section ReplaceFacts.

(** The scan has one result. *)
Lemma Replaces_deterministic (pairs : list subPair) (prev : bool) (s out1 out2 : string) :
  Replaces pairs prev s out1 -> Replaces pairs prev s out2 -> out1 = out2.
Proof.
  intros H. revert out2.
  induction H as [prev s o n out M _ IH | prev c s out M _ IH | prev M]; intros out2 H2.
  - inversion H2 as [? ? o' n' out' M' R' | ? ? ? ? M' | ? M']; subst.
    + rewrite M in M'. injection M' as <- <-. f_equal. now apply IH.
    + congruence.
    + congruence.
  - inversion H2 as [? ? o' n' out' M' R' | ? ? ? out' M' R' | ? M']; subst.
    + congruence.
    + f_equal. now apply IH.
  - inversion H2 as [? ? o' n' out' M' R' | |]; subst; [congruence | reflexivity].
Qed.

(** Every replacer [build] makes ends on every input and computes the scan
    of its list of pairs. *)
Lemma ReplaceOpt_Replaces (pairs : list subPair) (s : string) :
  exists out, ReplaceOpt (build pairs) s = Some out /\ Replaces pairs false s out.
Proof.
  assert (Htable : exists out,
             ReplaceOpt (buildTable pairs) s = Some out /\ Replaces pairs false s out).
  { unfold buildTable.
    destruct (forallb (fun p : subPair => Nat.eqb (String.length (fst p)) 1) pairs) eqn:Hold;
      cbn [negb].
    - destruct (forallb (fun p : subPair => Nat.eqb (String.length (snd p)) 1) pairs) eqn:Hnew.
      + eexists. split; [reflexivity|]. now apply byteReplacer_Replaces.
      + pose proof (byteStringReplacer_Replaces pairs s Hold) as H.
        destruct (makeByteStringReplacer pairs) as [repl toReplace].
        eexists. split; [reflexivity|]. exact H.
    - apply genericReplace_Replaces; [simpl; lia | discriminate]. }
  unfold build.
  destruct pairs as [|[o n] [|q rest]]; try exact Htable.
  destruct (Nat.ltb_spec 1 (String.length o)) as [Hlen|_]; [|exact Htable].
  cbn [ReplaceOpt]. apply singleReplace_Replaces; [|lia].
  intros ->. simpl in Hlen. lia.
Qed.

End ReplaceFacts.


(* ================================================================== *)
(** * [Replace] on a list of pairs *)

Section ReplaceTotal.

Lemma ReplaceOpt_Replace (pairs : list subPair) (s : string) :
  ReplaceOpt (build pairs) s = Some (Replace (mkReplacer pairs) s).
Proof.
  destruct (ReplaceOpt_Replaces pairs s) as (out & H & _).
  unfold Replace. cbn [oldnew]. now rewrite H.
Qed.

Lemma Replace_Replaces (pairs : list subPair) (s : string) :
  Replaces pairs false s (Replace (mkReplacer pairs) s).
Proof.
  destruct (ReplaceOpt_Replaces pairs s) as (out & H & R).
  unfold Replace. cbn [oldnew]. now rewrite H.
Qed.

Lemma Replace_unique (pairs : list subPair) (s out : string) :
  Replaces pairs false s out -> Replace (mkReplacer pairs) s = out.
Proof.
  intros H. eapply Replaces_deterministic; [apply Replace_Replaces | exact H].
Qed.

(** One step of the scan where a non-empty old string applies. *)
Lemma Replace_step (pairs : list subPair) (s o n : string) :
  matchAt pairs s false = Some (o, n) -> o <> "" ->
  Replace (mkReplacer pairs) s =
  n ++ Replace (mkReplacer pairs) (drop (String.length o) s).
Proof.
  intros M Ho. apply Replace_unique.
  eapply Replaces_match; [exact M|].
  replace (isEmpty o) with false by (destruct o; [now contradiction Ho | reflexivity]).
  apply Replace_Replaces.
Qed.

(** One step of the scan where no pair applies. *)
Lemma Replace_copy (pairs : list subPair) (c : ascii) (s : string) :
  matchAt pairs (String c s) false = None ->
  Replace (mkReplacer pairs) (String c s) = String c (Replace (mkReplacer pairs) s).
Proof.
  intros M. apply Replace_unique.
  apply Replaces_copy; [exact M | apply Replace_Replaces].
Qed.

Lemma Replaces_ext (pairs pairs' : list subPair) :
  (forall s prev, matchAt pairs s prev = matchAt pairs' s prev) ->
  forall prev s out, Replaces pairs prev s out -> Replaces pairs' prev s out.
Proof.
  intros E prev s out H.
  induction H as [prev s o n out M _ IH | prev c s out M _ IH | prev M].
  - eapply Replaces_match; [rewrite <- E; exact M | exact IH].
  - apply Replaces_copy; [rewrite <- E; exact M | exact IH].
  - apply Replaces_end. rewrite <- E. exact M.
Qed.

Lemma find_append (A : Type) (f : A -> bool) (l1 l2 : list A) :
  find f (l1 ++ l2)%list =
  match find f l1 with Some x => Some x | None => find f l2 end.
Proof.
  induction l1 as [|a l1 IH]; cbn [app find]; [reflexivity|].
  now destruct (f a).
Qed.

(** A later pair with the same old string as an earlier one never applies. *)
Lemma matchAt_duplicate (l1 l2 l3 : list subPair) (o n n' : string) (s : string)
      (prev : bool) :
  matchAt (l1 ++ (o, n) :: l2 ++ (o, n') :: l3)%list s prev =
  matchAt (l1 ++ (o, n) :: l2 ++ l3)%list s prev.
Proof.
  unfold matchAt. rewrite !find_append.
  destruct (find (matches s prev) l1); [reflexivity|].
  cbn [find]. destruct (matches s prev (o, n)) eqn:E; [reflexivity|].
  rewrite !find_append.
  destruct (find (matches s prev) l2); [reflexivity|].
  cbn [find]. unfold matches in *. cbn [fst] in *. now rewrite E.
Qed.

(** The single pair with an empty old string: its new string is written
    before every byte and at the end. *)
Lemma Replaces_empty_old (new s : string) :
  Replaces [("", new)] false s (new ++ concatMap (fun c => String c new) s).
Proof.
  induction s as [|c s IH]; cbn [concatMap].
  - eapply Replaces_match with (o := ""); [reflexivity|].
    apply Replaces_end. reflexivity.
  - eapply Replaces_match with (o := ""); [reflexivity|].
    cbn [isEmpty String.length drop append].
    apply Replaces_copy; [reflexivity | exact IH].
Qed.

(** The first pair with an empty old string. *)
Lemma first_empty_pair (pairs : list subPair) :
  (exists new0, In ("", new0) pairs) ->
  exists l1 new l2,
    pairs = (l1 ++ ("", new) :: l2)%list /\ forall p, In p l1 -> fst p <> "".
Proof.
  induction pairs as [|[o n] rest IH]; intros [new0 Hin]; [contradiction|].
  destruct o as [|c o].
  - exists [], n, rest. split; [reflexivity | intros p []].
  - destruct Hin as [[=]|Hin].
    destruct (IH (ex_intro _ new0 Hin)) as (l1 & new & l2 & -> & H1).
    exists ((String c o, n) :: l1), new, l2. split; [reflexivity|].
    intros p [<-|Hp]; [discriminate | now apply H1].
Qed.

(** Where no earlier pair applies, the pair with the empty old string
    does, unless the step before was an empty match. *)
Lemma matchAt_first_empty (l1 l2 : list subPair) (new s : string) :
  matchAt l1 s false = None ->
  matchAt (l1 ++ ("", new) :: l2)%list s false = Some ("", new).
Proof.
  unfold matchAt. intros H. rewrite find_append, H. reflexivity.
Qed.

Lemma matchAt_earlier (l1 l2 : list subPair) (s : string) (prev : bool) (p : subPair) :
  matchAt l1 s prev = Some p -> matchAt (l1 ++ l2)%list s prev = Some p.
Proof.
  unfold matchAt. intros H. now rewrite find_append, H.
Qed.

Lemma matchAt_nonempty_nil (l1 : list subPair) (prev : bool) :
  (forall p, In p l1 -> fst p <> "") -> matchAt l1 "" prev = None.
Proof.
  intros H. apply find_none_iff. intros [o n] Hin. specialize (H _ Hin).
  unfold matches. cbn [fst] in *. destruct o; [now contradiction H | reflexivity].
Qed.

Lemma matchAt_nil_after_empty (pairs : list subPair) : matchAt pairs "" true = None.
Proof.
  apply find_none_iff. intros [o n] _. unfold matches. cbn [fst]. now destruct o.
Qed.

(** The scan right after an empty match: the earliest pair with an old
    string that is not empty is replaced, or a byte is copied, or the text
    has ended. *)
Lemma Replaces_after_empty (pairs : list subPair) (s : string) :
  Replaces pairs true s
    match matchAt pairs s true with
    | Some (o, n) => n ++ Replace (mkReplacer pairs) (drop (String.length o) s)
    | None =>
        match s with
        | EmptyString => EmptyString
        | String c s' => String c (Replace (mkReplacer pairs) s')
        end
    end.
Proof.
  destruct (matchAt pairs s true) as [[o n]|] eqn:M.
  - eapply Replaces_match; [exact M|].
    destruct (matchAt_some _ _ _ _ _ M) as (_ & _ & Hne).
    replace (isEmpty o) with false
      by (destruct o; [now contradiction (Hne eq_refl) | reflexivity]).
    apply Replace_Replaces.
  - destruct s as [|c s'].
    + now apply Replaces_end.
    + apply Replaces_copy; [exact M | apply Replace_Replaces].
Qed.

(** One step of the scan where the pair with the empty old string
    applies. *)
Lemma Replace_empty_step (pairs : list subPair) (new s : string) :
  matchAt pairs s false = Some ("", new) ->
  Replace (mkReplacer pairs) s =
  new ++ match matchAt pairs s true with
         | Some (o, n) => n ++ Replace (mkReplacer pairs) (drop (String.length o) s)
         | None =>
             match s with
             | EmptyString => EmptyString
             | String c s' => String c (Replace (mkReplacer pairs) s')
             end
         end.
Proof.
  intros M. apply Replace_unique.
  eapply Replaces_match; [exact M|]. apply Replaces_after_empty.
Qed.

End ReplaceTotal.

(* ================================================================== *)
(** * [loadSubstitutions] *)

Section LoadFacts.

Lemma pairsOf_records (records : list (list string)) :
  pairsOf (flat_map (fun r : list string => [nth 0 r ""; nth 1 r ""]) records) =
  Some (recordPairs records).
Proof.
  induction records as [|r records IH]; [reflexivity|].
  cbn [flat_map app pairsOf recordPairs map]. fold (recordPairs records).
  now rewrite IH.
Qed.

Lemma loadSubstitutions_ok (v : variant) (app : appEnv) (w : World)
      (records : list (list string)) :
  patterns w (patFile app) = Records records ->
  twoFields records = true ->
  exists w',
    loadSubstitutions v app w = (w', Ok (mkReplacer (recordPairs records))) /\
    files w' = files w.
Proof.
  intros Hp Ht. unfold loadSubstitutions. rewrite Hp.
  unfold twoFields in Ht. rewrite Ht. cbn [negb].
  unfold NewReplacer. rewrite pairsOf_records. cbn [option_map].
  eexists. split; [reflexivity|].
  destruct v; unfold logInfo, logWarning;
    repeat match goal with |- context [if ?b then _ else _] => destruct b end;
    reflexivity.
Qed.

Lemma loadSubstitutions_err (v : variant) (app : appEnv) (w : World) (e : error) :
  snd (loadSubstitutions v app w) = Err e ->
  loadSubstitutions v app w = (record (EvOpenPatterns (patFile app)) w, Err e).
Proof.
  unfold loadSubstitutions.
  destruct (patterns w (patFile app)) as [e1 | e1 | records]; cbn [snd].
  - now intros [= ->].
  - now intros [= ->].
  - destruct (negb (forallb _ records)); cbn [snd]; [now intros [= ->]|].
    unfold NewReplacer. rewrite pairsOf_records. cbn [option_map snd]. discriminate.
Qed.

End LoadFacts.

(* ================================================================== *)
(** * The walk *)

Section EntryInduction.

Lemma entry_ind (P : entry -> Prop) :
  (forall name, P (File name)) ->
  (forall name readErr entries, Forall P entries -> P (Dir name readErr entries)) ->
  forall d, P d.
Proof.
  intros Hfile Hdir. fix IH 1. intros [name | name readErr entries].
  - apply Hfile.
  - apply Hdir. induction entries as [|d ds IHds]; constructor; [apply IH | exact IHds].
Qed.

End EntryInduction.

Section WalkInvariant.

Variable St : Type.
Variable fn : string -> option entry -> option error -> St -> St * bool.
Variable note : event -> St -> St.
Variable P : St -> Prop.
Hypothesis fn_keeps : forall path d err st, P st -> P (fst (fn path d err st)).
Hypothesis note_keeps : forall e st, isWrite e = false -> P st -> P (note e st).

Lemma walkDirEntries_keeps (walk : string -> entry -> St -> St * bool) (path : string)
      (ds : list entry) :
  Forall (fun d => forall path st, P st -> P (fst (walk path d st))) ds ->
  forall st, P st -> P (walkDirEntries walk path ds st).
Proof.
  induction 1 as [|d ds Hd _ IH]; intros st Hst; cbn [walkDirEntries]; [exact Hst|].
  specialize (Hd (Join path (Name d)) st Hst).
  destruct (walk (Join path (Name d)) d st) as [st' skip]. cbn [fst] in Hd.
  destruct skip; [exact Hd | now apply IH].
Qed.

Lemma walkDirFrom_keeps (d : entry) :
  forall path st, P st -> P (fst (walkDirFrom fn note path d st)).
Proof.
  induction d as [name | name readErr entries IH] using entry_ind; intros path st Hst.
  - cbn [walkDirFrom]. now apply fn_keeps.
  - cbn [walkDirFrom].
    pose proof (fn_keeps path (Some (Dir name readErr entries)) None st Hst) as H1.
    destruct (fn path (Some (Dir name readErr entries)) None st) as [st1 skip1].
    cbn [fst] in H1. destruct skip1; [exact H1|].
    assert (H2 : P (note (EvReadDir path) st1)) by now apply note_keeps.
    assert (H3 : P (fst (match readErr with
                         | Some e => fn path (Some (Dir name readErr entries)) (Some e)
                                        (note (EvReadDir path) st1)
                         | None => (note (EvReadDir path) st1, false)
                         end))).
    { destruct readErr; [now apply fn_keeps | exact H2]. }
    destruct (match readErr with Some e => _ | None => _ end) as [st3 skip3].
    cbn [fst] in H3. destruct skip3; [exact H3|]. cbn [fst].
    now apply walkDirEntries_keeps.
Qed.

Lemma walkEntries_keeps (walk : string -> entry -> St -> St * bool) (path : string)
      (ds : list entry) :
  Forall (fun d => forall path st, P st -> P (fst (walk path d st))) ds ->
  forall st, P st -> P (fst (walkEntries note walk path ds st)).
Proof.
  induction 1 as [|d ds Hd _ IH]; intros st Hst; cbn [walkEntries]; [exact Hst|].
  specialize (Hd (Join path (Name d)) _ (note_keeps (EvLstat (Join path (Name d))) st eq_refl Hst)).
  destruct (walk (Join path (Name d)) d _) as [st' skip]. cbn [fst] in Hd.
  destruct skip; [destruct (IsDir d); [now apply IH | exact Hd] | now apply IH].
Qed.

Lemma walkFrom_keeps (d : entry) :
  forall path st, P st -> P (fst (walkFrom fn note path d st)).
Proof.
  induction d as [name | name readErr entries IH] using entry_ind; intros path st Hst.
  - cbn [walkFrom]. now apply fn_keeps.
  - cbn [walkFrom].
    pose proof (fn_keeps path (Some (Dir name readErr entries)) readErr _
                         (note_keeps (EvReadDir path) st eq_refl Hst)) as H1.
    destruct (fn path (Some (Dir name readErr entries)) readErr _) as [st2 skip2].
    cbn [fst] in H1. destruct readErr; [exact H1|].
    destruct skip2; [exact H1|]. now apply walkEntries_keeps.
Qed.

Lemma WalkDir_keeps (root : string) (rootEntry : result entry) (st : St) :
  P st -> P (WalkDir fn note root rootEntry st).
Proof.
  intros Hst. unfold WalkDir. destruct rootEntry.
  - apply walkDirFrom_keeps. now apply note_keeps.
  - apply fn_keeps. now apply note_keeps.
Qed.

Lemma Walk_keeps (root : string) (rootEntry : result entry) (st : St) :
  P st -> P (Walk fn note root rootEntry st).
Proof.
  intros Hst. unfold Walk. destruct rootEntry.
  - apply walkFrom_keeps. now apply note_keeps.
  - apply fn_keeps. now apply note_keeps.
Qed.

End WalkInvariant.

Section VisitFacts.

Variables (v : variant) (app : appEnv).

(** Whatever holds of the world and is kept by adding an event that is not
    a write is kept by the walk. *)
Lemma walkDir_keeps (Q : World -> Prop) (w : World) :
  (forall e w, isWrite e = false -> Q w -> Q (record e w)) ->
  Q w -> Q (fst (walkDir v app w)).
Proof.
  intros Hrec Hw.
  set (P := fun st : World * list string => Q (fst st)).
  assert (Hfn : forall path d err st, P st -> P (fst (visit v app path d err st))).
  { intros path d err [w0 paths] H. unfold P in *. cbn [fst] in H.
    unfold visit, logInfo, warnWalk, logWarning.
    repeat match goal with
           | |- context [match ?x with _ => _ end] => destruct x
           end; cbn [fst]; try exact H; apply Hrec; auto. }
  assert (Hnote : forall e st, isWrite e = false -> P st -> P (note e st)).
  { intros e [w0 paths] He H. unfold P, note in *. cbn [fst snd] in *. now apply Hrec. }
  unfold walkDir. destruct v.
  - apply (WalkDir_keeps _ (visit Current app) note P); auto.
  - apply (Walk_keeps _ (visit Earlier app) note P); auto.
Qed.

End VisitFacts.

Section VisitDecisions.

Variables (v : variant) (app : appEnv).

Lemma visit_dot (d : entry) (st : World * list string) :
  IsDir d = true -> visit v app "." (Some d) None st = (st, false).
Proof. intros H. destruct st as [w paths]. cbn [visit]. now rewrite H. Qed.

Lemma visit_excluded_dir (path : string) (d : entry) (w : World) (paths : list string) :
  path <> "." -> IsDir d = true -> anyMatch (exDir app) (Name d) = true ->
  visit v app path (Some d) None (w, paths) =
  ((logInfo app (MsgExcludeDir path) w, paths), true).
Proof.
  intros Hp Hd Hex. cbn [visit]. rewrite Hd, Hex.
  apply String.eqb_neq in Hp. now rewrite Hp.
Qed.

Lemma visit_excluded_file (path : string) (d : entry) (w : World) (paths : list string) :
  IsDir d = false -> anyMatch (exFile app) (Name d) = true ->
  visit v app path (Some d) None (w, paths) =
  ((logInfo app (MsgExcludeFile path) w, paths), false).
Proof. intros Hd Hex. cbn [visit]. now rewrite Hd, Hex. Qed.

Lemma visit_error (path : string) (d : option entry) (e : error) (w : World)
      (paths : list string) :
  visit v app path d (Some e) (w, paths) =
  ((warnWalk v e w, paths), false).
Proof. reflexivity. Qed.

End VisitDecisions.

(* ================================================================== *)
(** * [processFile] and the loop of [Exec] *)

(** The cases of [processFile] on the file [f] found at its path. *)
Ltac processFileCases f Ef :=
  repeat first
    [ progress cbn [files record fst snd trace setFiles]
    | rewrite Ef
    | match goal with
      | |- context [match readError f with _ => _ end] => destruct (readError f)
      | |- context [match statError f with _ => _ end] => destruct (statError f)
      | |- context [match writeError f with _ => _ end] => destruct (writeError f)
      | |- context [if dryRun ?a then _ else _] => destruct (dryRun a)
      | |- context [if negb ?b then _ else _] => destruct (negb b)
      | |- context [match ?v with Current => _ | Earlier => _ end] => destruct v
      end ].

Section ProcessFacts.

Variables (v : variant) (app : appEnv) (replacer : Replacer).

Lemma In_app_event (l : list event) (e ev : event) :
  In ev (l ++ [e])%list -> In ev l \/ ev = e.
Proof.
  intros H. apply in_app_or in H as [H|[H|[]]]; auto.
Qed.

Lemma noWrite_record (e : event) (w : World) :
  isWrite e = false -> noWrite w -> noWrite (record e w).
Proof.
  intros He Hw ev H. cbn [record trace] in H.
  apply In_app_event in H as [H| ->]; auto.
Qed.

(** [processFile] when only the names of the files are to be printed. *)
Lemma processFile_dryRun (filePath : string) (w : World) :
  dryRun app = true ->
  processFile v app filePath replacer w =
  match snd (ReadFile filePath w) with
  | Err e => (record (EvReadFile filePath) w, Some (ErrReading filePath e))
  | Ok oldContent =>
      if negb (String.eqb oldContent (Replace replacer oldContent))
      then (record (EvPrint filePath) (record (EvReadFile filePath) w), None)
      else (record (EvReadFile filePath) w, None)
  end.
Proof.
  intros Hdry. unfold processFile, ReadFile. rewrite Hdry.
  destruct (files w filePath) as [f|]; [|reflexivity].
  destruct (readError f); reflexivity.
Qed.

(** The events of one call of [processFile] are about its file. *)
Lemma processFile_trace (filePath : string) (w : World) :
  exists evs,
    trace (fst (processFile v app filePath replacer w)) = (trace w ++ evs)%list /\
    forall ev, In ev evs -> touches ev = Some filePath.
Proof.
  unfold processFile, ReadFile, Stat, WriteFile.
  assert (T1 : forall e, trace (record e w) = (trace w ++ [e])%list) by reflexivity.
  assert (H1 : forall e : event, touches e = Some filePath ->
               forall ev, In ev [e] -> touches ev = Some filePath)
    by (intros e He ev [<-|[]]; exact He).
  assert (H2 : forall e1 e2 : event, touches e1 = Some filePath ->
               touches e2 = Some filePath ->
               forall ev, In ev [e1; e2] -> touches ev = Some filePath)
    by (intros e1 e2 He1 He2 ev [<-|[<-|[]]]; assumption).
  assert (H3 : forall e1 e2 e3 : event, touches e1 = Some filePath ->
               touches e2 = Some filePath -> touches e3 = Some filePath ->
               forall ev, In ev [e1; e2; e3] -> touches ev = Some filePath)
    by (intros e1 e2 e3 He1 He2 He3 ev [<-|[<-|[<-|[]]]]; assumption).
  destruct (files w filePath) as [f|] eqn:Ef; processFileCases f Ef;
    rewrite <- ?app_assoc; cbn [List.app];
    eexists; (split; [reflexivity|]);
    first [apply H1 | apply H2 | apply H3]; reflexivity.
Qed.

Lemma processFile_error (filePath : string) (w w' : World) (e : error) :
  processFile v app filePath replacer w = (w', Some e) ->
  (exists c, e = ErrReading filePath c) \/
  (exists c, e = ErrStating filePath c) \/
  (exists c, e = ErrWriting filePath c).
Proof.
  unfold processFile, ReadFile, Stat, WriteFile.
  destruct (files w filePath) as [f|] eqn:Ef; processFileCases f Ef;
    intros [= _ <-] || discriminate; eauto.
Qed.

Lemma processFiles_app (paths1 paths2 : list string) (w : World) :
  processFiles v app replacer (paths1 ++ paths2)%list w =
  match processFiles v app replacer paths1 w with
  | (w1, Some e) => (w1, Some e)
  | (w1, None) => processFiles v app replacer paths2 w1
  end.
Proof.
  revert w; induction paths1 as [|p paths1 IH]; intros w; cbn [List.app processFiles];
    [reflexivity|].
  destruct (processFile v app p replacer w) as [w1 [e|]]; [reflexivity | apply IH].
Qed.

(** The events of the loop are about the files it was given. *)
Lemma processFiles_trace (paths : list string) (w : World) :
  exists evs,
    trace (fst (processFiles v app replacer paths w)) = (trace w ++ evs)%list /\
    forall ev, In ev evs -> exists p, touches ev = Some p /\ In p paths.
Proof.
  revert w; induction paths as [|p paths IH]; intros w; cbn [processFiles].
  - exists []. split; [now rewrite app_nil_r | intros ev []].
  - destruct (processFile_trace p w) as (evs1 & T1 & H1).
    destruct (processFile v app p replacer w) as [w1 [e|]]; cbn [fst] in *.
    + exists evs1. split; [exact T1|]. intros ev Hev. exists p. split; [auto | now left].
    + destruct (IH w1) as (evs2 & T2 & H2).
      exists (evs1 ++ evs2)%list. split; [now rewrite T2, T1, app_assoc|].
      intros ev Hev. apply in_app_or in Hev as [Hev|Hev].
      * exists p. split; [auto | now left].
      * destruct (H2 ev Hev) as (q & Hq & Hin). exists q. split; [exact Hq | now right].
Qed.

(** With [-dry-run] no file changes and nothing is written. *)
Lemma processFile_dryRun_keeps (filePath : string) (w : World) :
  dryRun app = true ->
  files (fst (processFile v app filePath replacer w)) = files w /\
  (noWrite w -> noWrite (fst (processFile v app filePath replacer w))).
Proof.
  intros Hdry. rewrite processFile_dryRun by assumption.
  unfold ReadFile.
  destruct (files w filePath) as [f|] eqn:Ef; [destruct (readError f)|]; cbn [snd fst].
  - split; [reflexivity|]. now apply noWrite_record.
  - match goal with |- context [if ?b then _ else _] => destruct b end;
      cbn [fst]; (split; [reflexivity|]); intros H;
      repeat apply noWrite_record; auto.
  - split; [reflexivity|]. now apply noWrite_record.
Qed.

Lemma processFiles_dryRun_keeps (paths : list string) (w : World) :
  dryRun app = true ->
  files (fst (processFiles v app replacer paths w)) = files w /\
  (noWrite w -> noWrite (fst (processFiles v app replacer paths w))).
Proof.
  intros Hdry. revert w; induction paths as [|p paths IH]; intros w; cbn [processFiles].
  - auto.
  - destruct (processFile_dryRun_keeps p w Hdry) as [F1 N1].
    destruct (processFile v app p replacer w) as [w1 [e|]]; cbn [fst] in *; [auto|].
    destruct (IH w1) as [F2 N2]. split; [congruence | auto].
Qed.

End ProcessFacts.

(* ================================================================== *)
(** * [ParseArgs] *)

Section ParseFacts.

Lemma sameFilters_refl (app : appEnv) : sameFilters app app.
Proof. repeat split. Qed.

Lemma sameFilters_trans (a b c : appEnv) :
  sameFilters a b -> sameFilters b c -> sameFilters a c.
Proof. unfold sameFilters. intuition congruence. Qed.

Lemma setFlag_sameFilters (app app' : appEnv) (name value : string) :
  setFlag app name value = SetOk app' -> sameFilters app app'.
Proof.
  unfold setFlag.
  repeat match goal with
         | |- context [if ?b then _ else _] => destruct b
         | |- context [match ParseBool ?x with _ => _ end] => destruct (ParseBool x)
         end;
    intros [= <-] || discriminate; repeat split.
Qed.

Lemma parse_sameFilters (n : nat) : forall args app actual app' actual',
  List.length args <= n ->
  parse app actual args = ParseDone app' actual' -> sameFilters app app'.
Proof.
  induction n as [|n IH]; intros args app actual app' actual' Hlen.
  - destruct args; [|simpl in Hlen; lia]. intros [= <- _]. apply sameFilters_refl.
  - destruct args as [|s rest]; [intros [= <- _]; apply sameFilters_refl|].
    cbn [List.length] in Hlen. cbn [parse].
    destruct s as [|c0 [|c1 s2]]; try (intros [= <- _]; apply sameFilters_refl).
    destruct (negb _); [intros [= <- _]; apply sameFilters_refl|].
    destruct (_ && _); [intros [= <- _]; apply sameFilters_refl|].
    destruct (if Ascii.eqb c1 "-"%char then s2 else String c1 s2) as [|n0 nrest];
      [discriminate|].
    destruct (_ || _); [discriminate|].
    destruct (cutAtEq nrest) as [n' value].
    destruct (formal (String n0 n')) as [[|]|].
    + destruct (setFlag app _ _) as [app1| |] eqn:E; try discriminate.
      intros H. apply IH in H; [|lia].
      eapply sameFilters_trans; [eapply setFlag_sameFilters, E | exact H].
    + destruct value as [val|].
      * destruct (setFlag app _ _) as [app1| |] eqn:E; try discriminate.
        intros H. apply IH in H; [|lia].
        eapply sameFilters_trans; [eapply setFlag_sameFilters, E | exact H].
      * destruct rest as [|val rest']; [discriminate|].
        destruct (setFlag app _ _) as [app1| |] eqn:E; try discriminate.
        intros H. apply IH in H; [|cbn [List.length] in Hlen; lia].
        eapply sameFilters_trans; [eapply setFlag_sameFilters, E | exact H].
    + destruct (_ || _); discriminate.
Qed.

Lemma parseEnv_sameFilters (env : string -> option string) (flags : list (string * flagKind)) :
  forall app actual app' actual',
  parseEnv app actual env flags = ParseDone app' actual' -> sameFilters app app'.
Proof.
  induction flags as [|[name k] flags IH]; intros app actual app' actual'; cbn [parseEnv].
  - intros [= <- _]. apply sameFilters_refl.
  - destruct (existsb _ actual); [apply IH|].
    destruct (env name) as [val|]; [|apply IH].
    destruct (setFlag app name val) as [app1| |] eqn:E; try discriminate.
    intros H. apply IH in H.
    eapply sameFilters_trans; [eapply setFlag_sameFilters, E | exact H].
Qed.

(** [ParseArgs] leaves the three lists as they were, or gives them their
    defaults if they were empty. *)
Lemma ParseArgs_filters (app0 : appEnv) (args : list string)
      (env : string -> option string) (app : appEnv) (actual : list string) :
  ParseArgs app0 args env = ParseDone app actual ->
  exFile app = (if Nat.eqb (List.length (exFile app0)) 0 then [".*"] else exFile app0) /\
  incDir app = (if Nat.eqb (List.length (incDir app0)) 0 then ["*"] else incDir app0) /\
  exDir app = (if Nat.eqb (List.length (exDir app0)) 0 then [".*"] else exDir app0).
Proof.
  unfold ParseArgs.
  destruct (parse _ [] args) as [app1 actual1| |] eqn:E1; try discriminate.
  destruct (parseEnv app1 actual1 env formalFlags) as [app2 actual2| |] eqn:E2;
    try discriminate.
  destruct (negb _); [discriminate|]. intros [= <- _].
  apply (parse_sameFilters (List.length args)) in E1; [|lia].
  apply parseEnv_sameFilters in E2.
  destruct (sameFilters_trans _ _ _ E1 E2) as (H1 & H2 & H3).
  cbn [exFile incDir exDir setVerbose setDryRun setDir setPatFile] in H1, H2, H3.
  rewrite <- H1, <- H2, <- H3.
  unfold withDefaults.
  destruct app2 as [pf d iF eF iD eD dr vb]. cbn [incFile exFile incDir exDir].
  destruct iF, eF, iD, eD; repeat split; reflexivity.
Qed.

End ParseFacts.

Section ExecFacts.

Variables (v : variant) (app : appEnv).

Lemma loadSubstitutions_keeps (Q : World -> Prop) (w : World) :
  (forall e w, isWrite e = false -> Q w -> Q (record e w)) ->
  Q w -> Q (fst (loadSubstitutions v app w)).
Proof.
  intros Hrec Hw. unfold loadSubstitutions, logInfo, logWarning.
  repeat match goal with
         | |- context [match ?x with _ => _ end] => destruct x
         end; cbn [fst]; repeat (apply Hrec; [reflexivity|]); exact Hw.
Qed.

(** With [-dry-run], [Exec] changes no file and writes nothing. *)
Lemma Exec_dryRun_keeps (w : World) :
  dryRun app = true ->
  files (fst (Exec v app w)) = files w /\
  (noWrite w -> noWrite (fst (Exec v app w))).
Proof.
  intros Hdry. unfold Exec.
  pose proof (loadSubstitutions_keeps (fun w' => files w' = files w) w
                (fun e w' _ H => H) eq_refl) as F1.
  pose proof (fun H => loadSubstitutions_keeps noWrite w noWrite_record H) as N1.
  destruct (loadSubstitutions v app w) as [w1 [replacer|e]]; cbn [fst] in *; [|auto].
  pose proof (walkDir_keeps v app (fun w' => files w' = files w) w1
                (fun e w' _ H => H) F1) as F2.
  pose proof (fun H => walkDir_keeps v app noWrite w1 noWrite_record H) as N2.
  destruct (walkDir v app w1) as [w2 paths]; cbn [fst] in *.
  destruct (processFiles_dryRun_keeps v app replacer paths w2 Hdry) as [F3 N3].
  split; [congruence | auto].
Qed.

End ExecFacts.

(* ================================================================== *)
(** * The models of the library on inputs of its own tests *)

Section LibraryExamples.

Example Replace_argument_order :
  Replace (mkReplacer [("a", "1"); ("aa", "2"); ("aaa", "3")]) "aaaa" = "1111".
Proof. reflexivity. Qed.

Example Replace_longest_listed_first :
  Replace (mkReplacer [("aaa", "3"); ("aa", "2"); ("a", "1"); ("i", "i");
                       ("longerst", "most long"); ("longer", "medium");
                       ("long", "short"); ("xx", "xx"); ("x", "X"); ("X", "x");
                       ("y", "Y")])
          "long, longerst, longer" = "short, most long, medium".
Proof. reflexivity. Qed.

Example Replace_mixed_lengths :
  Replace (mkReplacer [("a", "1"); ("b", "12"); ("cde", "123")]) "abcdefabcdea"
  = "112123f1121231".
Proof. reflexivity. Qed.

Example Replace_empty_old :
  Replace (mkReplacer [("", "X")]) "ab" = "XaXbX".
Proof. reflexivity. Qed.

Example Replace_empty_old_after_others :
  Replace (mkReplacer [("o", "O"); ("", "X")]) "oiio" = "OXiXiOX".
Proof. reflexivity. Qed.

Example Replace_empty_old_before_others :
  Replace (mkReplacer [("", "X"); ("o", "O")]) "oiio" = "XOXiXiXOX".
Proof. reflexivity. Qed.

Example Replace_single_string :
  Replace (mkReplacer [("abc", "[match]")]) "ababcabcabcabx"
  = "ab[match][match][match]abx".
Proof. reflexivity. Qed.

Example Replace_byte_to_string :
  Replace (mkReplacer [("<", "&lt;"); (">", "&gt;")]) "a<b>c" = "a&lt;b&gt;c".
Proof. reflexivity. Qed.

Example Match_star_suffix : Match "*.txt" "a.txt" = true.
Proof. reflexivity. Qed.

Example Match_dot_star_git : Match ".*" ".git" = true.
Proof. reflexivity. Qed.

Example Match_dot_star_plain : Match ".*" "a.txt" = false.
Proof. reflexivity. Qed.

Example Match_two_stars : Match "a*b*c" "aXXbYYc" = true.
Proof. reflexivity. Qed.

Example Match_backtracking : Match "a*b?c*x" "abxbbxdbxebxczzx" = true.
Proof. reflexivity. Qed.

Example Match_backtracking_fails : Match "a*b?c*x" "abxbbxdbxebxczzy" = false.
Proof. reflexivity. Qed.

Example Match_class : Match "[a-c]?z" "bxz" = true.
Proof. reflexivity. Qed.

Example Match_negated_class : Match "[^a-c]?z" "bxz" = false.
Proof. reflexivity. Qed.

Example Match_escaped_star : Match "a\*b" "a*b" = true.
Proof. reflexivity. Qed.

Example Match_escaped_dash : Match "[\-x]" "-" = true.
Proof. reflexivity. Qed.

Example Match_bad_class : Match "[a-" "a" = false.
Proof. reflexivity. Qed.

Example Match_star_stops_at_separator : Match "a*" "ab/c" = false.
Proof. reflexivity. Qed.

Example Match_question_is_not_separator : Match "a?b" "a/b" = false.
Proof. reflexivity. Qed.

Example Match_question_is_one_rune : Match "a?b" "a☺b" = true.
Proof. reflexivity. Qed.

Example Match_three_questions : Match "a???b" "a☺b" = false.
Proof. reflexivity. Qed.

Example Match_rune_range : Match "[a-ζ]*" "α" = true.
Proof. reflexivity. Qed.

Example Clean_dot_slash : Clean "./a" = "a".
Proof. reflexivity. Qed.

Example Clean_dotdot : Clean "abc/def/ghi/../jkl" = "abc/def/jkl".
Proof. reflexivity. Qed.

Example Clean_to_dot : Clean "abc/def/../.." = ".".
Proof. reflexivity. Qed.

Example Clean_above : Clean "abc/../../././../def" = "../../def".
Proof. reflexivity. Qed.

Example Clean_rooted : Clean "/abc/def/../../.." = "/".
Proof. reflexivity. Qed.

Example Clean_slashes : Clean "a//b/./c/" = "a/b/c".
Proof. reflexivity. Qed.

Example Join_below_dot : Join "." "a.txt" = "a.txt".
Proof. reflexivity. Qed.

Example Join_below_dir : Join "sub" ".git" = "sub/.git".
Proof. reflexivity. Qed.

(** The default filters select ordinary files and leave out dotfiles and
    what is under a dot directory. *)
Example walkDir_default_filters :
  let tree := Dir "." None
                  [File ".hidden"; File "a.txt";
                   Dir "sub" None [Dir ".git" None [File "config"]]] in
  let w := world "." tree "subs.csv" [] noFiles in
  snd (walkDir Current (defaultApp "subs.csv" ".") w) = ["a.txt"] /\
  snd (walkDir Earlier (defaultApp "subs.csv" ".") w) = ["a.txt"].
Proof. split; reflexivity. Qed.

(** The example of the usage text: [kawatte -pat subs.csv -match '*.txt']. *)
Example CLI_usage_example :
  ParseArgs zeroApp ["-pat"; "subs.csv"; "-match"; "*.txt"] noEnv
  = ParseDone cycleApp ["match"; "pat"] /\
  trace (fst (Exec Current cycleApp cycleWorld))
  = [EvOpenPatterns "subs.csv"; EvLstat "."; EvReadDir ".";
     EvReadFile "in.txt"; EvWriteFile "in.txt" "bcadef" 420].
Proof. split; reflexivity. Qed.

End LibraryExamples.

(* ================================================================== *)
(** * The replacement engine *)

Section ReplacementClaims.

(** C1, as amended.  For every list of records with two fields each and
    every text, [loadSubstitutions] builds a replacer that scans the text
    from left to right and at each position where a pair applies replaces
    the earliest-listed pair that applies, not the longest, and goes on
    after the match; where no pair applies the byte is copied.  For
    [("ab","X"), ("a","Y")] in this order ["ab"] becomes ["X"]; in the
    other order it becomes ["Yb"]. *)
Theorem C1_earliest_listed_pattern_wins (v : variant) (app : appEnv) (w : World)
        (records : list (list string)) :
  patterns w (patFile app) = Records records ->
  twoFields records = true ->
  (exists w',
     loadSubstitutions v app w = (w', Ok (mkReplacer (recordPairs records)))) /\
  (forall text,
     Replaces (recordPairs records) false text
              (Replace (mkReplacer (recordPairs records)) text)) /\
  (forall text o n,
     matchAt (recordPairs records) text false = Some (o, n) -> o <> "" ->
     Replace (mkReplacer (recordPairs records)) text =
     n ++ Replace (mkReplacer (recordPairs records)) (drop (String.length o) text)) /\
  (forall c text,
     matchAt (recordPairs records) (String c text) false = None ->
     Replace (mkReplacer (recordPairs records)) (String c text) =
     String c (Replace (mkReplacer (recordPairs records)) text)) /\
  Replace (mkReplacer [("ab", "X"); ("a", "Y")]) "ab" = "X" /\
  Replace (mkReplacer [("a", "Y"); ("ab", "X")]) "ab" = "Yb".
Proof.
  intros Hp Ht. split; [|split; [|split; [|split; [|split]]]].
  - destruct (loadSubstitutions_ok v app w records Hp Ht) as (w' & H & _). eauto.
  - intros text. apply Replace_Replaces.
  - intros text o n. apply Replace_step.
  - intros c text. apply Replace_copy.
  - reflexivity.
  - reflexivity.
Qed.

Lemma C1_earliest_listed_pattern_wins_witness :
  let w := world "." (Dir "." None []) "subs.csv" [["ab"; "X"]; ["a"; "Y"]] noFiles in
  let app := defaultApp "subs.csv" "." in
  patterns w (patFile app) = Records [["ab"; "X"]; ["a"; "Y"]] /\
  twoFields [["ab"; "X"]; ["a"; "Y"]] = true /\
  Replace (mkReplacer (recordPairs [["ab"; "X"]; ["a"; "Y"]])) "ab" = "X".
Proof.
  split; [reflexivity|]. split; [reflexivity|].
  exact (proj1 (proj2 (proj2 (proj2 (proj2
    (C1_earliest_listed_pattern_wins Current (defaultApp "subs.csv" ".")
       (world "." (Dir "." None []) "subs.csv" [["ab"; "X"]; ["a"; "Y"]] noFiles)
       [["ab"; "X"]; ["a"; "Y"]] eq_refl eq_refl)))))).
Defined.

(** C1 as stated fails: with the shorter pattern listed first, the shorter
    pattern is replaced. *)
Lemma C1_longest_match_counterexample :
  let w := world "." (Dir "." None []) "subs.csv" [["a"; "Y"]; ["ab"; "X"]] noFiles in
  exists w' replacer,
    loadSubstitutions Current (defaultApp "subs.csv" ".") w = (w', Ok replacer) /\
    Replace replacer "ab" = "Yb" /\
    Replace replacer "ab" <> "X".
Proof.
  cbv zeta. eexists. eexists. split; [reflexivity|].
  split; [reflexivity | discriminate].
Qed.

(** C2.  One pass, whose output is not scanned again: with the pairs
    [a,b], [b,c], [c,a] every byte of every text is replaced by its own
    image, so ["a"] becomes ["b"], not ["c"], and ["abcdef"] becomes
    ["bcadef"], also as the content [Exec] writes to a file. *)
Theorem C2_single_pass_cycle :
  Replace (mkReplacer cyclePairs) "a" = "b" /\
  Replace (mkReplacer cyclePairs) "a" <> "c" /\
  Replace (mkReplacer cyclePairs) "abcdef" = "bcadef" /\
  (forall text, Replace (mkReplacer cyclePairs) text = mapBytes cycleByte text) /\
  (forall v,
     snd (Exec v cycleApp cycleWorld) = None /\
     option_map content (files (fst (Exec v cycleApp cycleWorld)) "in.txt")
     = Some "bcadef").
Proof.
  split; [reflexivity|]. split; [discriminate|]. split; [reflexivity|].
  split.
  - intros text. unfold Replace. cbn [oldnew].
    change (ReplaceOpt (build cyclePairs) text)
      with (Some (mapBytes (makeByteReplacer cyclePairs) text)).
    induction text as [|c text IH]; [reflexivity|].
    cbn [mapBytes]. now f_equal.
  - intros [|]; split; reflexivity.
Qed.

(** C5.  Among pairs with the same old string (the only way for patterns
    of equal length to apply at the same position) the earliest-listed
    wins: leaving out a later pair with an old string listed before
    changes nothing, the pair that applies first decides the step, and
    [("a","X"), ("a","Y")] turns ["a"] into ["X"]. *)
Theorem C5_earliest_of_equal_patterns_wins :
  (forall (l1 l2 l3 : list subPair) (o n n' text : string),
     Replace (mkReplacer (l1 ++ (o, n) :: l2 ++ (o, n') :: l3)%list) text =
     Replace (mkReplacer (l1 ++ (o, n) :: l2 ++ l3)%list) text) /\
  (forall (l1 l2 : list subPair) (o n text : string),
     o <> "" ->
     HasPrefix text o = true ->
     (forall p, In p l1 -> HasPrefix text (fst p) = false) ->
     Replace (mkReplacer (l1 ++ (o, n) :: l2)%list) text =
     n ++ Replace (mkReplacer (l1 ++ (o, n) :: l2)%list) (drop (String.length o) text)) /\
  Replace (mkReplacer [("a", "X"); ("a", "Y")]) "a" = "X".
Proof.
  split; [|split; [|reflexivity]].
  - intros l1 l2 l3 o n n' text. apply Replace_unique.
    eapply Replaces_ext; [|apply Replace_Replaces].
    intros s prev. symmetry. apply matchAt_duplicate.
  - intros l1 l2 o n text Ho Hp Hl1. apply Replace_step; [|exact Ho].
    unfold matchAt. rewrite find_append.
    rewrite (find_none_iff _ (matches text false) l1).
    + cbn [find]. replace (matches text false (o, n)) with true; [reflexivity|].
      symmetry. apply matches_true. split; [exact Hp | discriminate].
    + intros p Hin. unfold matches. now rewrite (Hl1 p Hin).
Qed.

Lemma C5_earliest_of_equal_patterns_wins_witness :
  "a" <> "" /\ HasPrefix "ab" "a" = true /\
  Replace (mkReplacer [("a", "X"); ("a", "Y")]) "ab" =
  "X" ++ Replace (mkReplacer [("a", "X"); ("a", "Y")]) "b".
Proof.
  split; [discriminate|]. split; [reflexivity|].
  refine (proj1 (proj2 C5_earliest_of_equal_patterns_wins)
                 [] [("a", "Y")] "a" "X" "ab" _ eq_refl _);
    [discriminate | intros p []].
Defined.

(** C6, as amended.  A pair with an empty old string is not rejected, and
    applying the replacer ends on every text, whatever the pairs; but the
    pair does apply, at zero width.  The single pair [("", new)] writes
    [new] before every byte of the text and at its end.  In every list of
    pairs with such a pair, with [new] the new string of the first one:
    at the end of the text [new] is written; before a byte where no
    earlier pair applies [new] is written once and the scan goes on at the
    same place without the empty old strings (it replaces the earliest
    pair that applies, whose old string is then not empty, or copies the
    byte); where an earlier pair applies it is replaced, nothing is
    inserted there and the scan goes on behind the match, so that no
    place inside a match gets an insertion: [("ab", "Y"); ("", "X")] makes
    ["YX"] of ["ab"]. *)
Theorem C6_empty_pattern_is_inserted (v : variant) (app : appEnv) (w : World)
        (records : list (list string)) :
  patterns w (patFile app) = Records records ->
  twoFields records = true ->
  (exists w',
     loadSubstitutions v app w = (w', Ok (mkReplacer (recordPairs records)))) /\
  (forall (pairs : list subPair) (text : string),
     ReplaceOpt (build pairs) text = Some (Replace (mkReplacer pairs) text)) /\
  (forall new text : string,
     Replace (mkReplacer [("", new)]) text =
     new ++ concatMap (fun c => String c new) text) /\
  (forall pairs : list subPair,
     (exists new0, In ("", new0) pairs) ->
     exists (l1 : list subPair) (new : string) (l2 : list subPair),
       pairs = (l1 ++ ("", new) :: l2)%list /\
       (forall p, In p l1 -> fst p <> "") /\
       Replace (mkReplacer pairs) "" = new /\
       (forall (c : ascii) (s : string),
          matchAt l1 (String c s) false = None ->
          Replace (mkReplacer pairs) (String c s) =
          new ++ match matchAt pairs (String c s) true with
                 | Some (o, n) =>
                     n ++ Replace (mkReplacer pairs)
                                  (drop (String.length o) (String c s))
                 | None => String c (Replace (mkReplacer pairs) s)
                 end) /\
       (forall (s o n : string), matchAt pairs s true = Some (o, n) -> o <> "") /\
       (forall (s o n : string),
          matchAt l1 s false = Some (o, n) ->
          o <> "" /\
          Replace (mkReplacer pairs) s =
          n ++ Replace (mkReplacer pairs) (drop (String.length o) s))) /\
  Replace (mkReplacer [("ab", "Y"); ("", "X")]) "ab" = "YX".
Proof.
  intros Hp Ht. split; [|split; [|split; [|split]]].
  - destruct (loadSubstitutions_ok v app w records Hp Ht) as (w' & H & _). eauto.
  - intros pairs text. apply ReplaceOpt_Replace.
  - intros new text. apply Replace_unique, Replaces_empty_old.
  - intros pairs Hin.
    destruct (first_empty_pair pairs Hin) as (l1 & new & l2 & -> & H1).
    exists l1, new, l2. split; [reflexivity|]. split; [exact H1|].
    split; [|split; [|split]].
    + rewrite (Replace_empty_step _ new "")
        by (apply matchAt_first_empty; now apply matchAt_nonempty_nil).
      rewrite matchAt_nil_after_empty. apply append_nil_r.
    + intros c s M.
      now rewrite (Replace_empty_step _ new (String c s))
        by (now apply matchAt_first_empty).
    + intros s o n M. destruct (matchAt_some _ _ _ _ _ M) as (_ & _ & Hne). auto.
    + intros s o n M.
      assert (Ho : o <> "")
        by (destruct (matchAt_some _ _ _ _ _ M) as (Hin' & _); exact (H1 _ Hin')).
      split; [exact Ho|].
      apply Replace_step; [|exact Ho]. now apply matchAt_earlier.
  - reflexivity.
Qed.

Lemma C6_empty_pattern_is_inserted_witness :
  let w := world "." (Dir "." None []) "subs.csv" [[""; "X"]] noFiles in
  let app := defaultApp "subs.csv" "." in
  patterns w (patFile app) = Records [[""; "X"]] /\
  twoFields [[""; "X"]] = true /\
  exists w',
    loadSubstitutions Current app w = (w', Ok (mkReplacer (recordPairs [[""; "X"]]))).
Proof.
  split; [reflexivity|]. split; [reflexivity|].
  exact (proj1
    (C6_empty_pattern_is_inserted Current (defaultApp "subs.csv" ".")
       (world "." (Dir "." None []) "subs.csv" [[""; "X"]] noFiles)
       [[""; "X"]] eq_refl eq_refl)).
Defined.

(** C6 as stated fails: the pair with the empty old string is accepted and
    its new string is written at the zero-width positions. *)
Lemma C6_empty_pattern_counterexample :
  let w := world "." (Dir "." None []) "subs.csv" [[""; "X"]] noFiles in
  exists w' replacer,
    loadSubstitutions Current (defaultApp "subs.csv" ".") w = (w', Ok replacer) /\
    oldnew replacer = [("", "X")] /\
    Replace replacer "ab" = "XaXbX".
Proof.
  cbv zeta. eexists. eexists. split; [reflexivity|]. split; reflexivity.
Qed.

End ReplacementClaims.

(* ================================================================== *)
(** * The walk *)

Section WalkClaims.

(** C3, as amended.  The directory whose path is ["."] -- the root when
    [-dir] is ["."], its default -- is not filtered and the walk goes on
    with its entries.  A root given by another path is filtered by its base
    name like every other directory: it is left out, with all that is in
    it, if its name matches an exclude-dir glob or no include-dir glob, and
    the walk goes on with its entries otherwise. *)
Theorem C3_only_dot_root_is_exempt (v : variant) (app : appEnv) (w : World)
        (name : string) (readErr : option error) (entries : list entry) :
  lstat w (dir app) = Ok (Dir name readErr entries) ->
  (forall st, visit v app "." (Some (Dir name readErr entries)) None st = (st, false)) /\
  (dir app = "." -> readErr = None ->
   walkDir v app w =
   match v with
   | Current =>
       walkDirEntries (walkDirFrom (visit Current app) note) "." entries
                      (record (EvReadDir ".") (record (EvLstat ".") w), [])
   | Earlier =>
       fst (walkEntries note (walkFrom (visit Earlier app) note) "." entries
                        (record (EvReadDir ".") (record (EvLstat ".") w), []))
   end) /\
  (dir app <> "." -> anyMatch (exDir app) name = true -> snd (walkDir v app w) = []) /\
  (dir app <> "." -> anyMatch (incDir app) name = false -> snd (walkDir v app w) = []) /\
  (dir app <> "." -> readErr = None ->
   anyMatch (exDir app) name = false -> anyMatch (incDir app) name = true ->
   walkDir v app w =
   match v with
   | Current =>
       walkDirEntries (walkDirFrom (visit Current app) note) (dir app) entries
                      (record (EvReadDir (dir app))
                         (logInfo app (MsgMatchDir (dir app))
                            (record (EvLstat (dir app)) w)), [])
   | Earlier =>
       fst (walkEntries note (walkFrom (visit Earlier app) note) (dir app) entries
                        (logInfo app (MsgMatchDir (dir app))
                           (record (EvReadDir (dir app))
                              (record (EvLstat (dir app)) w)), []))
   end).
Proof.
  intros Hl. split; [|split; [|split; [|split]]].
  - intros st. now apply visit_dot.
  - intros Hd ->. unfold walkDir, WalkDir, Walk. rewrite Hl, Hd.
    destruct v; reflexivity.
  - intros Hd Hex. apply String.eqb_neq in Hd.
    unfold walkDir, WalkDir, Walk. rewrite Hl.
    destruct v; cbn [walkDirFrom walkFrom note fst snd visit IsDir Name];
      rewrite ?Hd, ?Hex; [reflexivity|].
    destruct readErr; cbn [fst snd]; rewrite ?Hd, ?Hex; reflexivity.
  - intros Hd Hinc. apply String.eqb_neq in Hd.
    unfold walkDir, WalkDir, Walk. rewrite Hl.
    destruct v; cbn [walkDirFrom walkFrom note fst snd visit IsDir Name];
      rewrite ?Hd, ?Hinc.
    + destruct (anyMatch (exDir app) name); reflexivity.
    + destruct readErr; cbn [fst snd]; rewrite ?Hd, ?Hinc; [reflexivity|].
      destruct (anyMatch (exDir app) name); reflexivity.
  - intros Hd -> Hex Hinc. apply String.eqb_neq in Hd.
    unfold walkDir, WalkDir, Walk. rewrite Hl.
    destruct v; cbn [walkDirFrom walkFrom note fst snd visit IsDir Name];
      rewrite ?Hd, ?Hex, ?Hinc; reflexivity.
Qed.

Lemma C3_only_dot_root_is_exempt_witness :
  lstat dotRootWorld (dir (defaultApp "subs.csv" ".")) = Ok (Dir "." None [File "a.txt"]) /\
  anyMatch (exDir (defaultApp "subs.csv" ".")) "." = true /\
  walkDir Current (defaultApp "subs.csv" ".") dotRootWorld =
  (record (EvReadDir ".") (record (EvLstat ".") dotRootWorld), ["a.txt"]).
Proof.
  split; [reflexivity|]. split; [reflexivity|].
  rewrite (proj1 (proj2
    (C3_only_dot_root_is_exempt Current (defaultApp "subs.csv" ".") dotRootWorld
       "." None [File "a.txt"] eq_refl)) eq_refl eq_refl).
  reflexivity.
Defined.

(** C3 as stated fails: a root that is not ["."] is filtered.  With the
    default filters and [-dir .cfg] the root matches the exclude-dir glob
    [".*"], the walk function returns [SkipDir] for it, and nothing is
    selected, though the file in it passes the file filters. *)
Lemma C3_root_is_filtered_counterexample :
  let app := defaultApp "subs.csv" ".cfg" in
  let root := Dir ".cfg" None [File "a.txt"] in
  ParseArgs zeroApp ["-pat"; "subs.csv"; "-dir"; ".cfg"] noEnv
  = ParseDone app ["dir"; "pat"] /\
  lstat hiddenRootWorld (dir app) = Ok root /\
  visit Current app (dir app) (Some root) None (hiddenRootWorld, [])
  = ((hiddenRootWorld, []), true) /\
  excluded app (File "a.txt") = false /\ included app (File "a.txt") = true /\
  snd (walkDir Current app hiddenRootWorld) = [] /\
  snd (walkDir Earlier app hiddenRootWorld) = [].
Proof. cbv zeta. repeat split; reflexivity. Qed.

(** C4.  For every file, and for every directory the walk function
    filters (the path ["."] is not filtered, see C3), an exclude match
    wins, whatever the include globs: the walk function selects nothing,
    returns [SkipDir] for a directory, and the walk of the entry selects
    nothing of what is in it. *)
Theorem C4_exclude_match_wins (v : variant) (app : appEnv) (path : string)
        (d : entry) (w : World) (paths : list string) :
  (IsDir d = true -> path <> ".") ->
  excluded app d = true ->
  visit v app path (Some d) None (w, paths)
  = ((logInfo app (excludeMsg path d) w, paths), IsDir d) /\
  walkDirFrom (visit Current app) note path d (w, paths)
  = ((logInfo app (excludeMsg path d) w, paths), false) /\
  snd (fst (walkFrom (visit Earlier app) note path d (w, paths))) = paths.
Proof.
  unfold excluded, excludeMsg. intros Hp Hex.
  destruct d as [name | name readErr entries]; cbn [IsDir Name] in *.
  - repeat split; cbn [walkDirFrom walkFrom];
      rewrite ?visit_excluded_file by (reflexivity || assumption); reflexivity.
  - specialize (Hp eq_refl).
    assert (V : forall v' w', visit v' app path (Some (Dir name readErr entries)) None
                              (w', paths)
                       = ((logInfo app (MsgExcludeDir path) w', paths), true))
      by (intros; apply visit_excluded_dir; auto).
    split; [apply V|]. split.
    + cbn [walkDirFrom]. now rewrite V.
    + cbn [walkFrom]. unfold note. cbn [fst snd]. destruct readErr.
      * now rewrite visit_error.
      * now rewrite V.
Qed.

Lemma C4_exclude_match_wins_witness :
  (IsDir tmpDir = true -> "tmp" <> ".") /\
  excluded tmpApp tmpDir = true /\ included tmpApp tmpDir = true /\
  walkDirFrom (visit Current tmpApp) note "tmp" tmpDir (dotRootWorld, [])
  = ((dotRootWorld, []), false).
Proof.
  split; [discriminate|]. split; [reflexivity|]. split; [reflexivity|].
  refine (proj1 (proj2
    (C4_exclude_match_wins Current tmpApp "tmp" tmpDir dotRootWorld [] _ eq_refl))).
  discriminate.
Defined.

End WalkClaims.

(* ================================================================== *)
(** * Files *)

Section FileClaims.

(** C7.  With [-dry-run], [processFile] writes no file, whatever the path
    and the outcome: the files are as before and the events are the
    reading and, if and only if the file was read and the replaced content
    differs from it, the printing of the path.  So does [Exec]. *)
Theorem C7_dry_run_never_writes (v : variant) (app : appEnv) (filePath : string)
        (replacer : Replacer) (w : World) :
  dryRun app = true ->
  (files (fst (processFile v app filePath replacer w)) = files w /\
   exists evs,
     trace (fst (processFile v app filePath replacer w)) = (trace w ++ evs)%list /\
     (forall ev, In ev evs -> isWrite ev = false) /\
     (In (EvPrint filePath) evs <->
      exists old, snd (ReadFile filePath w) = Ok old /\ Replace replacer old <> old)) /\
  files (fst (Exec v app w)) = files w /\
  (noWrite w -> noWrite (fst (Exec v app w))).
Proof.
  intros Hdry. split; [|now apply Exec_dryRun_keeps].
  rewrite processFile_dryRun by assumption.
  destruct (snd (ReadFile filePath w)) as [old|e] eqn:R.
  - destruct (String.eqb_spec old (Replace replacer old)) as [E|E]; cbn [negb fst].
    + split; [reflexivity|]. exists [EvReadFile filePath].
      split; [reflexivity|]. split.
      * intros ev [<-|[]]. reflexivity.
      * split.
        -- intros [H|[]]. discriminate.
        -- intros (old' & [= <-] & H). congruence.
    + split; [reflexivity|]. exists [EvReadFile filePath; EvPrint filePath].
      split; [cbn [record trace]; now rewrite <- app_assoc|]. split.
      * intros ev [<-|[<-|[]]]; reflexivity.
      * split.
        -- intros _. exists old. split; [reflexivity | congruence].
        -- intros _. right. now left.
  - cbn [fst]. split; [reflexivity|]. exists [EvReadFile filePath].
    split; [reflexivity|]. split.
    + intros ev [<-|[]]. reflexivity.
    + split.
      * intros [H|[]]. discriminate.
      * intros (old & H & _). discriminate.
Qed.

Lemma C7_dry_run_never_writes_witness :
  let app := setDryRun cycleApp true in
  dryRun app = true /\
  files (fst (Exec Current app cycleWorld)) = files cycleWorld /\
  trace (fst (processFile Current app "in.txt" (mkReplacer cyclePairs) cycleWorld))
  = [EvReadFile "in.txt"; EvPrint "in.txt"].
Proof.
  split; [reflexivity|]. split.
  - exact (proj1 (proj2
      (C7_dry_run_never_writes Current (setDryRun cycleApp true) "in.txt"
         (mkReplacer cyclePairs) cycleWorld eq_refl))).
  - reflexivity.
Defined.

(** C8.  An error of reading, of [os.Stat] or of writing one of the
    selected files ends [Exec] at once with that error: the world is the
    one this call of [processFile] leaves, and the events since the walk
    are about the files up to this one only.  An error of loading the
    substitutions ends [Exec] before the walk: the only event is the
    opening of the patterns file. *)
Theorem C8_io_errors_are_fatal :
  (forall (v : variant) (app : appEnv) (w w1 : World) (replacer : Replacer)
          (w2 : World) (paths1 : list string) (path : string) (paths2 : list string)
          (w3 w4 : World) (e : error),
     loadSubstitutions v app w = (w1, Ok replacer) ->
     walkDir v app w1 = (w2, (paths1 ++ path :: paths2)%list) ->
     processFiles v app replacer paths1 w2 = (w3, None) ->
     processFile v app path replacer w3 = (w4, Some e) ->
     Exec v app w = (w4, Some e) /\
     ((exists c, e = ErrReading path c) \/
      (exists c, e = ErrStating path c) \/
      (exists c, e = ErrWriting path c)) /\
     exists evs,
       trace w4 = (trace w2 ++ evs)%list /\
       forall ev, In ev evs ->
                  exists p, touches ev = Some p /\ In p (paths1 ++ [path])%list) /\
  (forall (v : variant) (app : appEnv) (w : World) (e : error),
     snd (loadSubstitutions v app w) = Err e ->
     Exec v app w = (record (EvOpenPatterns (patFile app)) w, Some e)).
Proof.
  split.
  - intros v app w w1 replacer w2 paths1 path paths2 w3 w4 e Hl Hw H1 H2.
    assert (Hrun : processFiles v app replacer (paths1 ++ [path])%list w2 = (w4, Some e)).
    { rewrite processFiles_app, H1. cbn [processFiles]. now rewrite H2. }
    split; [|split].
    + unfold Exec. rewrite Hl, Hw.
      change (paths1 ++ path :: paths2)%list with (paths1 ++ [path] ++ paths2)%list.
      rewrite app_assoc, processFiles_app, Hrun. reflexivity.
    + eapply processFile_error, H2.
    + pose proof (processFiles_trace v app replacer (paths1 ++ [path])%list w2) as T.
      rewrite Hrun in T. exact T.
  - intros v app w e H. unfold Exec.
    rewrite (loadSubstitutions_err v app w e H). reflexivity.
Qed.

Lemma C8_io_errors_are_fatal_witness :
  let app := defaultApp "subs.csv" "." in
  let w2 := record (EvReadDir ".") (record (EvLstat ".")
              (record (EvOpenPatterns "subs.csv") failingWorld)) in
  let w4 := record (EvReadFile "a.txt") w2 in
  let e := ErrReading "a.txt" (SysError "permission denied") in
  loadSubstitutions Current app failingWorld
  = (record (EvOpenPatterns "subs.csv") failingWorld, Ok (mkReplacer [("a", "b")])) /\
  walkDir Current app (record (EvOpenPatterns "subs.csv") failingWorld)
  = (w2, ([] ++ "a.txt" :: ["b.txt"])%list) /\
  processFile Current app "a.txt" (mkReplacer [("a", "b")]) w2 = (w4, Some e) /\
  Exec Current app failingWorld = (w4, Some e) /\
  Exec Current (defaultApp "none.csv" ".") failingWorld
  = (record (EvOpenPatterns "none.csv") failingWorld,
     Some (ErrOpeningPatterns noSuchFile)).
Proof.
  cbv zeta. split; [reflexivity|]. split; [reflexivity|]. split; [reflexivity|]. split.
  - exact (proj1 (proj1 C8_io_errors_are_fatal Current (defaultApp "subs.csv" ".")
             failingWorld _ _ _ [] "a.txt" ["b.txt"] _ _ _
             eq_refl eq_refl eq_refl eq_refl)).
  - exact (proj2 C8_io_errors_are_fatal Current (defaultApp "none.csv" ".")
             failingWorld _ eq_refl).
Defined.

(** C9.  The two variants of [processFile] read the file and write the
    same replaced content to it, and leave the same files and the same
    result; they differ in the mode they pass to [os.WriteFile]: [0o644] in
    one, the mode [os.Stat] gives for the file in the other. *)
Theorem C9_write_mode_differs (app : appEnv) (filePath : string)
        (replacer : Replacer) (w : World) (f : fileState) :
  dryRun app = false ->
  files w filePath = Some f ->
  readError f = None ->
  statError f = None ->
  trace (fst (processFile Current app filePath replacer w))
  = (trace w ++ [EvReadFile filePath;
                 EvWriteFile filePath (Replace replacer (content f)) defaultPerm])%list /\
  trace (fst (processFile Earlier app filePath replacer w))
  = (trace w ++ [EvReadFile filePath; EvStat filePath;
                 EvWriteFile filePath (Replace replacer (content f)) (mode f)])%list /\
  files (fst (processFile Current app filePath replacer w))
  = files (fst (processFile Earlier app filePath replacer w)) /\
  snd (processFile Current app filePath replacer w)
  = snd (processFile Earlier app filePath replacer w) /\
  (mode f <> defaultPerm ->
   EvWriteFile filePath (Replace replacer (content f)) defaultPerm
   <> EvWriteFile filePath (Replace replacer (content f)) (mode f)).
Proof.
  intros Hdry Hf Hr Hs.
  unfold processFile, ReadFile, Stat, WriteFile.
  rewrite Hf, Hr, Hdry. cbn [files record]. rewrite Hf, Hs. cbn [files record].
  rewrite Hf.
  assert (Hdiff : mode f <> defaultPerm ->
                  EvWriteFile filePath (Replace replacer (content f)) defaultPerm
                  <> EvWriteFile filePath (Replace replacer (content f)) (mode f))
    by (intros Hm [= E]; now apply Hm).
  destruct (writeError f); cbn [fst snd trace record setFiles];
    rewrite <- ?app_assoc; cbn [List.app]; rewrite ?Hs, ?Hr;
    (split; [reflexivity|]); (split; [reflexivity|]); (split; [reflexivity|]);
    (split; [reflexivity | exact Hdiff]).
Qed.

Lemma C9_write_mode_differs_witness :
  let app := defaultApp "subs.csv" "." in
  let r := mkReplacer [("a", "b")] in
  dryRun app = false /\
  files scriptWorld "run.sh" = Some (plainFile "a" 493) /\
  trace (fst (processFile Current app "run.sh" r scriptWorld))
  = [EvReadFile "run.sh"; EvWriteFile "run.sh" "b" 420] /\
  trace (fst (processFile Earlier app "run.sh" r scriptWorld))
  = [EvReadFile "run.sh"; EvStat "run.sh"; EvWriteFile "run.sh" "b" 493].
Proof.
  cbv zeta. split; [reflexivity|]. split; [reflexivity|].
  pose proof (C9_write_mode_differs (defaultApp "subs.csv" ".") "run.sh"
                (mkReplacer [("a", "b")]) scriptWorld (plainFile "a" 493)
                eq_refl eq_refl eq_refl eq_refl) as (H1 & H2 & _).
  split; [exact H1 | exact H2].
Defined.

End FileClaims.

(* ================================================================== *)
(** * Flags *)

Section FlagClaims.

(** C10.  After [ParseArgs] has succeeded on the zero [appEnv] of [CLI],
    whatever the arguments and the environment, [exFile], [incDir] and
    [exDir] are their defaults: the functions of [-exclude], [-match-dir]
    and [-exclude-dir] all assign to [incFile], those of the two exclude
    flags what [append] gives on [exFile]. *)
Theorem C10_three_filter_lists_stay_default (args : list string)
        (env : string -> option string) (app : appEnv) (actual : list string) :
  ParseArgs zeroApp args env = ParseDone app actual ->
  exFile app = [".*"] /\ incDir app = ["*"] /\ exDir app = [".*"] /\
  (forall (a : appEnv) (glob : string),
     setFlag a "exclude" glob = SetOk (setIncFile a (exFile a ++ [glob])%list) /\
     setFlag a "match-dir" glob = SetOk (setIncFile a (incFile a ++ [glob])%list) /\
     setFlag a "exclude-dir" glob = SetOk (setIncFile a (exFile a ++ [glob])%list)).
Proof.
  intros H. apply ParseArgs_filters in H as (H1 & H2 & H3).
  repeat split; assumption.
Qed.

Lemma C10_three_filter_lists_stay_default_witness :
  let args := ["-pat"; "subs.csv"; "-exclude"; "*.bak"; "-match-dir"; "src";
               "-exclude-dir"; "vendor"] in
  let app := mkApp "subs.csv" "." ["vendor"] [".*"] ["*"] [".*"] false false in
  ParseArgs zeroApp args noEnv
  = ParseDone app ["exclude-dir"; "match-dir"; "exclude"; "pat"] /\
  exFile app = [".*"] /\ incDir app = ["*"] /\ exDir app = [".*"].
Proof.
  cbv zeta. split; [reflexivity|].
  pose proof (C10_three_filter_lists_stay_default
                ["-pat"; "subs.csv"; "-exclude"; "*.bak"; "-match-dir"; "src";
                 "-exclude-dir"; "vendor"] noEnv _ _ eq_refl) as (H1 & H2 & H3 & _).
  repeat split; assumption.
Defined.

End FlagClaims.

(* ================================================================== *)
(** * What the loading and the walk leave alone *)

Section QuietFacts.

Lemma quiet_refl (w : World) : quiet w w.
Proof.
  repeat split. exists []. split; [now rewrite app_nil_r | constructor].
Qed.

Lemma quiet_trans (w1 w2 w3 : World) : quiet w1 w2 -> quiet w2 w3 -> quiet w1 w3.
Proof.
  intros (L1 & P1 & F1 & evs1 & T1 & A1) (L2 & P2 & F2 & evs2 & T2 & A2).
  repeat split; try congruence.
  exists (evs1 ++ evs2)%list. split.
  - now rewrite T2, T1, app_assoc.
  - apply Forall_app. now split.
Qed.

Lemma quiet_record (e : event) (w : World) : touches e = None -> quiet w (record e w).
Proof.
  intros He. repeat split. exists [e]. split; [reflexivity | now constructor].
Qed.

Lemma quiet_logInfo (app : appEnv) (m : logMsg) (w : World) : quiet w (logInfo app m w).
Proof.
  unfold logInfo. destruct (verbose app); [now apply quiet_record | apply quiet_refl].
Qed.

Lemma quiet_warnWalk (v : variant) (e : error) (w : World) : quiet w (warnWalk v e w).
Proof.
  destruct v; now apply quiet_record.
Qed.

Lemma printedPaths_app (l1 l2 : list event) :
  printedPaths (l1 ++ l2)%list = (printedPaths l1 ++ printedPaths l2)%list.
Proof.
  induction l1 as [|e l1 IH]; [reflexivity|].
  cbn [List.app printedPaths]. destruct e; cbn [List.app]; now rewrite IH.
Qed.

Lemma quiet_printed (w w' : World) :
  quiet w w' -> printedPaths (trace w') = printedPaths (trace w).
Proof.
  intros (_ & _ & _ & evs & -> & A). rewrite printedPaths_app.
  replace (printedPaths evs) with (@nil string); [now rewrite app_nil_r|].
  induction A as [|e evs He _ IH]; [reflexivity|].
  destruct e; try discriminate He; exact IH.
Qed.

Lemma quiet_files (w w' : World) : quiet w w' -> files w' = files w.
Proof. now intros (_ & _ & F & _). Qed.

Lemma quiet_lstat (w w' : World) : quiet w w' -> lstat w' = lstat w.
Proof. now intros (L & _). Qed.

Lemma loadSubstitutions_quiet (v : variant) (app : appEnv) (w : World) :
  quiet w (fst (loadSubstitutions v app w)).
Proof.
  assert (Q1 : quiet w (record (EvOpenPatterns (patFile app)) w))
    by now apply quiet_record.
  unfold loadSubstitutions.
  destruct (patterns w (patFile app)) as [e|e|records]; cbn [fst]; try exact Q1.
  destruct (negb (forallb _ records)); cbn [fst]; [exact Q1|].
  match goal with
  | |- quiet w (fst (match ?r with Some _ => (?w2, _) | None => (?w2, _) end)) =>
      assert (Q2 : quiet w w2); [|now destruct r]
  end.
  eapply quiet_trans; [exact Q1|].
  destruct v; [destruct (Nat.eqb _ 0)|];
    first [apply quiet_logInfo | now apply quiet_record].
Qed.

End QuietFacts.

(* ================================================================== *)
(** * The walk selects what the filters let through *)

Section SelectFacts.

Variable app : appEnv.

Lemma note_pair (e : event) (w : World) (paths : list string) :
  note e (w, paths) = (record e w, paths).
Proof. reflexivity. Qed.

Lemma visit_file (v : variant) (path name : string) (w : World) (paths : list string) :
  exists w',
    visit v app path (Some (File name)) None (w, paths)
    = ((w', (paths ++ selectFile app path name)%list), false) /\
    quiet w w'.
Proof.
  cbn [visit IsDir Name]. unfold selectFile.
  destruct (anyMatch (exFile app) name); [|destruct (anyMatch (incFile app) name)];
    eexists; rewrite ?app_nil_r; (split; [reflexivity | apply quiet_logInfo]).
Qed.

Lemma visit_dir (v : variant) (path name : string) (readErr : option error)
      (entries : list entry) (w : World) (paths : list string) :
  exists w',
    visit v app path (Some (Dir name readErr entries)) None (w, paths)
    = ((w', paths), negb (entersDir app path name)) /\
    quiet w w'.
Proof.
  cbn [visit IsDir Name]. unfold entersDir.
  destruct (String.eqb path "."); cbn [orb negb];
    [eexists; split; [reflexivity | apply quiet_refl]|].
  destruct (anyMatch (exDir app) name); cbn [negb andb];
    [eexists; split; [reflexivity | apply quiet_logInfo]|].
  destruct (anyMatch (incDir app) name); cbn [negb];
    eexists; (split; [reflexivity | apply quiet_logInfo]).
Qed.

Lemma walkDirEntries_select (path : string) (entries : list entry) :
  Forall (fun d => forall path w paths,
            exists w',
              walkDirFrom (visit Current app) note path d (w, paths)
              = ((w', (paths ++ selectCurrent app path d)%list), false) /\
              quiet w w') entries ->
  forall w paths,
  exists w',
    walkDirEntries (walkDirFrom (visit Current app) note) path entries (w, paths)
    = (w', (paths ++ flat_map (fun d1 => selectCurrent app (Join path (Name d1)) d1)
                              entries)%list) /\
    quiet w w'.
Proof.
  induction 1 as [|d ds Hd _ IH]; intros w paths; cbn [walkDirEntries flat_map].
  - exists w. rewrite app_nil_r. split; [reflexivity | apply quiet_refl].
  - destruct (Hd (Join path (Name d)) w paths) as (w1 & -> & Q1).
    destruct (IH w1 (paths ++ selectCurrent app (Join path (Name d)) d)%list)
      as (w2 & -> & Q2).
    exists w2. rewrite app_assoc. split; [reflexivity | eapply quiet_trans; eassumption].
Qed.

(** The walk of [filepath.WalkDir] adds to [paths] what [selectCurrent]
    gives and never passes [SkipDir] on. *)
Lemma walkDirFrom_select (d : entry) : forall path w paths,
  exists w',
    walkDirFrom (visit Current app) note path d (w, paths)
    = ((w', (paths ++ selectCurrent app path d)%list), false) /\
    quiet w w'.
Proof.
  induction d as [name | name readErr entries IH] using entry_ind; intros path w paths.
  - cbn [walkDirFrom selectCurrent]. apply visit_file.
  - cbn [walkDirFrom selectCurrent].
    destruct (visit_dir Current path name readErr entries w paths) as (w1 & -> & Q1).
    destruct (entersDir app path name); cbn [negb].
    + rewrite note_pair.
      assert (Q2 : quiet w (record (EvReadDir path) w1))
        by (eapply quiet_trans; [exact Q1 | now apply quiet_record]).
      destruct readErr as [e|]; [rewrite visit_error|];
        match goal with
        | |- context [walkDirEntries _ path entries (?w3, paths)] =>
            destruct (walkDirEntries_select path entries IH w3 paths) as (w4 & -> & Q4)
        end; exists w4; (split; [reflexivity|]).
      * eapply quiet_trans; [|exact Q4].
        eapply quiet_trans; [exact Q2 | apply quiet_warnWalk].
      * eapply quiet_trans; eassumption.
    + exists w1. rewrite app_nil_r. now split.
Qed.

Lemma walkEntries_select (path : string) (entries : list entry) :
  Forall (fun d => forall path w paths,
            exists w' skip,
              walkFrom (visit Earlier app) note path d (w, paths)
              = ((w', (paths ++ selectEarlier app path d)%list), skip) /\
              (skip = true -> IsDir d = true) /\
              quiet w w') entries ->
  forall w paths,
  exists w',
    walkEntries note (walkFrom (visit Earlier app) note) path entries (w, paths)
    = ((w', (paths ++ flat_map (fun d1 => selectEarlier app (Join path (Name d1)) d1)
                               entries)%list), false) /\
    quiet w w'.
Proof.
  induction 1 as [|d ds Hd _ IH]; intros w paths; cbn [walkEntries flat_map].
  - exists w. rewrite app_nil_r. split; [reflexivity | apply quiet_refl].
  - rewrite note_pair.
    destruct (Hd (Join path (Name d)) (record (EvLstat (Join path (Name d))) w) paths)
      as (w1 & skip & -> & Hskip & Q1).
    destruct (IH w1 (paths ++ selectEarlier app (Join path (Name d)) d)%list)
      as (w2 & E & Q2).
    exists w2. rewrite app_assoc. split.
    + destruct skip; [rewrite (Hskip eq_refl)|]; exact E.
    + eapply quiet_trans; [|exact Q2].
      eapply quiet_trans; [|exact Q1]. now apply quiet_record.
Qed.

(** The walk of [filepath.Walk] adds to [paths] what [selectEarlier] gives;
    it passes [SkipDir] on only for a directory. *)
Lemma walkFrom_select (d : entry) : forall path w paths,
  exists w' skip,
    walkFrom (visit Earlier app) note path d (w, paths)
    = ((w', (paths ++ selectEarlier app path d)%list), skip) /\
    (skip = true -> IsDir d = true) /\
    quiet w w'.
Proof.
  induction d as [name | name readErr entries IH] using entry_ind; intros path w paths.
  - cbn [walkFrom selectEarlier].
    destruct (visit_file Earlier path name w paths) as (w' & -> & Q).
    exists w', false. split; [reflexivity | split; [discriminate | exact Q]].
  - cbn [walkFrom selectEarlier]. rewrite note_pair.
    assert (Q0 : quiet w (record (EvReadDir path) w)) by now apply quiet_record.
    destruct readErr as [e|].
    + rewrite visit_error. eexists. exists false. rewrite app_nil_r.
      split; [reflexivity | split; [discriminate|]].
      eapply quiet_trans; [exact Q0 | apply quiet_warnWalk].
    + destruct (visit_dir Earlier path name None entries (record (EvReadDir path) w) paths)
        as (w1 & -> & Q1).
      assert (Q2 : quiet w w1) by (eapply quiet_trans; eassumption).
      destruct (entersDir app path name); cbn [negb].
      * destruct (walkEntries_select path entries IH w1 paths) as (w2 & -> & Q3).
        exists w2, false. split; [reflexivity | split; [discriminate|]].
        eapply quiet_trans; eassumption.
      * exists w1, true. rewrite app_nil_r.
        split; [reflexivity | split; [reflexivity | exact Q2]].
Qed.

(** [walkDir] on a start directory that [os.Lstat] finds. *)
Lemma walkDir_select (v : variant) (w : World) (d : entry) :
  lstat w (dir app) = Ok d ->
  exists w', walkDir v app w = (w', selected v app (dir app) d) /\ quiet w w'.
Proof.
  intros Hl. unfold walkDir, WalkDir, Walk, selected. rewrite Hl, note_pair.
  assert (Q0 : quiet w (record (EvLstat (dir app)) w)) by now apply quiet_record.
  destruct v.
  - destruct (walkDirFrom_select d (dir app) (record (EvLstat (dir app)) w) [])
      as (w' & -> & Q).
    exists w'. split; [reflexivity | eapply quiet_trans; eassumption].
  - destruct (walkFrom_select d (dir app) (record (EvLstat (dir app)) w) [])
      as (w' & skip & -> & _ & Q).
    exists w'. split; [reflexivity | eapply quiet_trans; eassumption].
Qed.

(** [walkDir] on a start directory that [os.Lstat] does not find. *)
Lemma walkDir_lstat_error (v : variant) (w : World) (e : error) :
  lstat w (dir app) = Err e ->
  walkDir v app w = (warnWalk v e (record (EvLstat (dir app)) w), []).
Proof.
  intros Hl. unfold walkDir, WalkDir, Walk. rewrite Hl, note_pair.
  destruct v; now rewrite visit_error.
Qed.

Lemma walkDir_quiet (v : variant) (w : World) : quiet w (fst (walkDir v app w)).
Proof.
  destruct (lstat w (dir app)) as [d|e] eqn:Hl.
  - destruct (walkDir_select v w d Hl) as (w' & -> & Q). exact Q.
  - rewrite (walkDir_lstat_error v w e Hl). cbn [fst].
    eapply quiet_trans; [now apply (quiet_record (EvLstat (dir app))) | apply quiet_warnWalk].
Qed.



(** What [filepath.Walk] selects, [filepath.WalkDir] selects too. *)
Lemma selectEarlier_incl (d : entry) : forall path p,
  In p (selectEarlier app path d) -> In p (selectCurrent app path d).
Proof.
  induction d as [name | name readErr entries IH] using entry_ind; intros path p.
  - auto.
  - cbn [selectEarlier selectCurrent]. destruct readErr; [intros []|].
    destruct (entersDir app path name); [|auto].
    rewrite !in_flat_map. intros (d1 & Hin & Hp). exists d1. split; [exact Hin|].
    rewrite Forall_forall in IH. now apply IH.
Qed.

Lemma select_reaches (d : entry) : forall path p,
  In p (selectCurrent app path d) ->
  exists name,
    reaches path d p name /\
    anyMatch (exFile app) name = false /\ anyMatch (incFile app) name = true.
Proof.
  induction d as [name | name readErr entries IH] using entry_ind; intros path p.
  - cbn [selectCurrent]. unfold selectFile.
    destruct (anyMatch (exFile app) name) eqn:Ex; [intros []|].
    destruct (anyMatch (incFile app) name) eqn:Inc; [|intros []].
    intros [<-|[]]. exists name. repeat split; auto. constructor.
  - cbn [selectCurrent]. destruct (entersDir app path name); [|intros []].
    intros H. apply in_flat_map in H as (d1 & Hin & Hp).
    rewrite Forall_forall in IH.
    destruct (IH d1 Hin _ _ Hp) as (fname & Hr & Hex & Hinc).
    exists fname. repeat split; auto. econstructor; eassumption.
Qed.

End SelectFacts.

(* ================================================================== *)
(** * What [processFile] does to the files *)

Section RewriteFacts.

Variables (v : variant) (app : appEnv) (replacer : Replacer).



(** An error of [processFile] other than that of the writing comes before
    any writing. *)
Lemma processFile_early_error (p : string) (w : World) (err : error) :
  snd (processFile v app p replacer w) = Some err ->
  (forall c, err <> ErrWriting p c) ->
  files (fst (processFile v app p replacer w)) = files w /\
  exists evs,
    trace (fst (processFile v app p replacer w)) = (trace w ++ evs)%list /\
    existsb isWrite evs = false.
Proof.
  unfold processFile, ReadFile, Stat, WriteFile.
  destruct (files w p) as [f|] eqn:Ef; processFileCases f Ef;
    intros [= <-] Hne; try discriminate;
    try (now contradiction (Hne _ eq_refl));
    (split; [reflexivity|]); rewrite <- ?app_assoc; cbn [List.app];
    eexists; split; reflexivity.
Qed.




Lemma wouldChange_files (w w' : World) (p : string) :
  files w' = files w -> wouldChange replacer w' p = wouldChange replacer w p.
Proof.
  intros E. unfold wouldChange. now rewrite E.
Qed.

(** With [-dry-run], a loop that ends without an error has printed the
    files the replacer changes, in the order given. *)
Lemma processFiles_report (paths : list string) : forall w w',
  dryRun app = true ->
  processFiles v app replacer paths w = (w', None) ->
  printedPaths (trace w') =
  (printedPaths (trace w) ++ filter (wouldChange replacer w) paths)%list.
Proof.
  induction paths as [|p paths IH]; intros w w' Hdry; cbn [processFiles filter].
  - intros [= <-]. now rewrite app_nil_r.
  - rewrite (processFile_dryRun v app replacer p w Hdry).
    unfold ReadFile, wouldChange at 1.
    destruct (files w p) as [f|] eqn:Ef; [|discriminate].
    destruct (readError f); [discriminate|]. cbn [snd].
    destruct (negb (String.eqb (content f) (Replace replacer (content f)))); intros H;
      apply IH in H; try assumption; rewrite H;
      erewrite (filter_ext (wouldChange replacer _) (wouldChange replacer w))
        by (intros q; now apply wouldChange_files);
      cbn [record trace]; rewrite !printedPaths_app; cbn [printedPaths];
      rewrite ?app_nil_r, <- ?app_assoc; reflexivity.
Qed.

End RewriteFacts.

(* ================================================================== *)
(** * Substitutions that leave a text as it is, and bytes for bytes *)

Section ReplaceNoOp.

Variable pairs : list subPair.

Lemma identity_step (s : string) (prev : bool) :
  (forall o n, In (o, n) pairs -> o = n) ->
  (forall s' prev', String.length s' < String.length s -> Replaces pairs prev' s' s') ->
  (prev = false -> Replaces pairs true s s) ->
  Replaces pairs prev s s.
Proof.
  intros Hid IH Htrue.
  destruct (matchAt pairs s prev) as [[o n]|] eqn:M.
  - destruct (matchAt_some _ _ _ _ _ M) as (Hin & Hp & Hne).
    assert (n = o) by (symmetry; now apply Hid). subst n.
    assert (R : Replaces pairs (isEmpty o) (drop (String.length o) s)
                         (drop (String.length o) s)).
    { destruct o as [|c o].
      - cbn [isEmpty String.length drop]. apply Htrue.
        destruct prev; [now contradiction Hne | reflexivity].
      - cbn [isEmpty]. apply IH. rewrite length_drop.
        apply HasPrefix_length in Hp. cbn [String.length] in *. lia. }
    rewrite (HasPrefix_split _ _ Hp) at 2.
    eapply Replaces_match; eassumption.
  - destruct s as [|c s].
    + now apply Replaces_end.
    + apply Replaces_copy; [exact M|]. apply IH. cbn [String.length]. lia.
Qed.

(** Pairs whose new string is their old string leave every text as it
    is. *)
Lemma Replaces_identity :
  (forall o n, In (o, n) pairs -> o = n) ->
  forall (k : nat) (s : string) (prev : bool),
    String.length s <= k -> Replaces pairs prev s s.
Proof.
  intros Hid. induction k as [|k IH]; intros s prev Hk.
  - assert (Ht : Replaces pairs true s s)
      by (apply identity_step; [exact Hid | intros; lia | discriminate]).
    destruct prev; [exact Ht|].
    apply identity_step; [exact Hid | intros; lia | intros _; exact Ht].
  - assert (Ht : Replaces pairs true s s).
    { apply identity_step; [exact Hid | | discriminate].
      intros s' prev' Hs. apply IH. lia. }
    destruct prev; [exact Ht|].
    apply identity_step; [exact Hid | | intros _; exact Ht].
    intros s' prev' Hs. apply IH. lia.
Qed.

Lemma Index_none (o s : string) :
  Index o s = None ->
  HasPrefix s o = false /\
  match s with
  | EmptyString => True
  | String _ t => Index o t = None
  end.
Proof.
  destruct s as [|c t]; cbn [Index]; destruct (HasPrefix _ o); try discriminate; auto.
  destruct (Index o t); [discriminate | auto].
Qed.

(** A text in which no old string occurs is left as it is. *)
Lemma Replaces_no_occurrence (s : string) : forall prev,
  (forall o n, In (o, n) pairs -> Index o s = None) ->
  Replaces pairs prev s s.
Proof.
  induction s as [|c s IH]; intros prev H.
  - apply Replaces_end. apply find_none_iff. intros [o n] Hin.
    unfold matches. cbn [fst]. now rewrite (proj1 (Index_none _ _ (H o n Hin))).
  - apply Replaces_copy.
    + apply find_none_iff. intros [o n] Hin.
      unfold matches. cbn [fst]. now rewrite (proj1 (Index_none _ _ (H o n Hin))).
    + apply IH. intros o n Hin. exact (proj2 (Index_none _ _ (H o n Hin))).
Qed.

Hypothesis oneByte :
  forallb (fun p : subPair => Nat.eqb (String.length (fst p)) 1) pairs = true.

Lemma oneByte_matchAt (c : ascii) (s : string) (prev : bool) :
  matchAt pairs (String c s) prev = matchAt pairs (String c "") false.
Proof.
  unfold matchAt. revert oneByte. induction pairs as [|[o n] l IH]; [reflexivity|].
  cbn [forallb fst find]. intros [Ho Hl]%andb_true_iff. apply Nat.eqb_eq in Ho.
  rewrite !(oneByte_matches _ _ _ _ _ Ho).
  destruct (Ascii.eqb c (firstByte o)); [reflexivity | now apply IH].
Qed.

(** With old strings of one byte, each byte of the text is translated by
    itself. *)
Lemma Replaces_translate (s : string) :
  Replaces pairs false s (concatMap (translateByte pairs) s).
Proof.
  induction s as [|c s IH]; cbn [concatMap].
  - apply Replaces_end. now apply oneByte_matchAt_nil.
  - unfold translateByte at 1.
    destruct (matchAt pairs (String c "") false) as [[o n]|] eqn:M.
    + rewrite <- (oneByte_matchAt c s false) in M.
      destruct (matchAt_some _ _ _ _ _ M) as (Hin & _).
      assert (Ho := oneByte_In pairs oneByte o n Hin).
      eapply Replaces_match; [exact M|].
      rewrite (length_one _ Ho) at 1. rewrite Ho. exact IH.
    + apply Replaces_copy; [now rewrite oneByte_matchAt | exact IH].
Qed.

End ReplaceNoOp.

Lemma recordPairs_In (records : list (list string)) (o n : string) :
  In (o, n) (recordPairs records) ->
  exists r, In r records /\ o = nth 0 r "" /\ n = nth 1 r "".
Proof.
  unfold recordPairs. rewrite in_map_iff. intros (r & [= <- <-] & Hin). eauto.
Qed.

(* ================================================================== *)
(** * Further properties of the program *)

Section WalkProperties.

Variables (v : variant) (app : appEnv).


(** X2.  Every path [walkDir] returns is the path of a file of the tree
    whose base name matches no exclude-file glob and some include-file
    glob. *)
Theorem walkDir_returns_filtered_files (w : World) (d : entry) (p : string) :
  lstat w (dir app) = Ok d ->
  In p (snd (walkDir v app w)) ->
  exists name,
    reaches (dir app) d p name /\
    anyMatch (exFile app) name = false /\ anyMatch (incFile app) name = true.
Proof.
  intros Hl. destruct (walkDir_select app v w d Hl) as (w' & -> & _). cbn [snd].
  intros Hin. apply select_reaches.
  destruct v; [exact Hin | now apply selectEarlier_incl].
Qed.

(** X3.  A start directory that [os.Lstat] does not find is no error of
    [Exec]: after the substitutions are loaded, the walk gives a warning
    and no path, and [Exec] returns [nil] without having touched a file. *)
Theorem Exec_missing_dir (w w1 : World) (e : error) (replacer : Replacer) :
  lstat w (dir app) = Err e ->
  loadSubstitutions v app w = (w1, Ok replacer) ->
  Exec v app w = (warnWalk v e (record (EvLstat (dir app)) w1), None).
Proof.
  intros Hl Hload. unfold Exec. rewrite Hload.
  assert (Q := loadSubstitutions_quiet v app w). rewrite Hload in Q. cbn [fst] in Q.
  rewrite (walkDir_lstat_error app v w1 e) by (now rewrite (quiet_lstat _ _ Q)).
  reflexivity.
Qed.

End WalkProperties.


Lemma walkDir_returns_filtered_files_witness :
  lstat mixedWorld (dir (defaultApp "subs.csv" ".")) = Ok mixedTree /\
  In "src/b.txt" (snd (walkDir Current (defaultApp "subs.csv" ".") mixedWorld)) /\
  exists name,
    reaches "." mixedTree "src/b.txt" name /\
    anyMatch [".*"] name = false /\ anyMatch ["*"] name = true.
Proof.
  assert (Hin : In "src/b.txt" (snd (walkDir Current (defaultApp "subs.csv" ".") mixedWorld)))
    by (right; left; reflexivity).
  split; [reflexivity|]. split; [exact Hin|].
  exact (walkDir_returns_filtered_files Current (defaultApp "subs.csv" ".") mixedWorld
           mixedTree "src/b.txt" eq_refl Hin).
Defined.

Lemma Exec_missing_dir_witness :
  lstat plainWorld (dir nowhereApp) = Err noSuchFile /\
  loadSubstitutions Current nowhereApp plainWorld
  = (record (EvOpenPatterns "subs.csv") plainWorld, Ok (mkReplacer [("a", "b")])) /\
  Exec Current nowhereApp plainWorld
  = (record (EvLog Warning (MsgWalkError noSuchFile))
       (record (EvLstat "nowhere") (record (EvOpenPatterns "subs.csv") plainWorld)),
     None).
Proof.
  split; [reflexivity|]. split; [reflexivity|].
  exact (Exec_missing_dir Current nowhereApp plainWorld _ noSuchFile _ eq_refl eq_refl).
Defined.

Section VariantProperties.

Variable app : appEnv.


End VariantProperties.


Section FileProperties.

Variables (v : variant) (app : appEnv) (replacer : Replacer).


(** X6.  When [processFile] returns an error of reading or of [os.Stat],
    it has written nothing: the files are as before and what it did
    contains no writing. *)
Theorem processFile_fails_before_writing (p : string) (w : World) (err : error) :
  snd (processFile v app p replacer w) = Some err ->
  (forall c, err <> ErrWriting p c) ->
  files (fst (processFile v app p replacer w)) = files w /\
  exists evs,
    trace (fst (processFile v app p replacer w)) = (trace w ++ evs)%list /\
    existsb isWrite evs = false.
Proof.
  apply processFile_early_error.
Qed.

End FileProperties.


Lemma processFile_fails_before_writing_witness :
  snd (processFile Current (defaultApp "subs.csv" ".") "a.txt"
                   (mkReplacer [("a", "b")]) failingWorld)
  = Some (ErrReading "a.txt" (SysError "permission denied")) /\
  files (fst (processFile Current (defaultApp "subs.csv" ".") "a.txt"
                          (mkReplacer [("a", "b")]) failingWorld))
  = files failingWorld.
Proof.
  split; [reflexivity|].
  refine (proj1 (processFile_fails_before_writing Current (defaultApp "subs.csv" ".")
                   (mkReplacer [("a", "b")]) "a.txt" failingWorld
                   (ErrReading "a.txt" (SysError "permission denied")) eq_refl _)).
  intros c. discriminate.
Defined.

Section ExecProperties.

Variables (v : variant) (app : appEnv).

Lemma Exec_steps (w w1 w2 : World) (replacer : Replacer) (paths : list string) :
  loadSubstitutions v app w = (w1, Ok replacer) ->
  walkDir v app w1 = (w2, paths) ->
  Exec v app w = processFiles v app replacer paths w2 /\ quiet w w2.
Proof.
  intros Hload Hwalk. unfold Exec. rewrite Hload, Hwalk. split; [reflexivity|].
  assert (Q1 := loadSubstitutions_quiet v app w). rewrite Hload in Q1.
  assert (Q2 := walkDir_quiet app v w1). rewrite Hwalk in Q2.
  eapply quiet_trans; eassumption.
Qed.


Lemma Exec_report (w w1 w2 : World) (replacer : Replacer) (paths : list string) :
  dryRun app = true ->
  loadSubstitutions v app w = (w1, Ok replacer) ->
  walkDir v app w1 = (w2, paths) ->
  snd (Exec v app w) = None ->
  printedPaths (trace (fst (Exec v app w))) =
  (printedPaths (trace w) ++ filter (wouldChange replacer w) paths)%list.
Proof.
  intros Hdry Hload Hwalk.
  destruct (Exec_steps w w1 w2 replacer paths Hload Hwalk) as (-> & Q).
  destruct (processFiles v app replacer paths w2) as [w' r] eqn:E. cbn [fst snd].
  intros ->. rewrite (processFiles_report v app replacer paths w2 w' Hdry E).
  rewrite (quiet_printed _ _ Q). f_equal.
  apply filter_ext. intros p. apply wouldChange_files. now apply quiet_files.
Qed.




(** X9.  With [-dry-run], an [Exec] that returns [nil] has printed the
    selected paths whose content the replacer changes, each once, in the
    order of the selection, and no other path. *)
Theorem Exec_dryRun_report (w w1 w2 : World) (replacer : Replacer)
        (paths : list string) :
  dryRun app = true ->
  loadSubstitutions v app w = (w1, Ok replacer) ->
  walkDir v app w1 = (w2, paths) ->
  snd (Exec v app w) = None ->
  printedPaths (trace (fst (Exec v app w))) =
  (printedPaths (trace w) ++ filter (wouldChange replacer w) paths)%list.
Proof.
  apply Exec_report.
Qed.

End ExecProperties.



Lemma Exec_dryRun_report_witness :
  dryRun (setDryRun (defaultApp "subs.csv" ".") true) = true /\
  snd (Exec Current (setDryRun (defaultApp "subs.csv" ".") true) plainWorld) = None /\
  printedPaths (trace (fst (Exec Current (setDryRun (defaultApp "subs.csv" ".") true)
                                 plainWorld)))
  = ["a.txt"; "src/c.go"].
Proof.
  split; [reflexivity|]. split; [reflexivity|].
  rewrite (Exec_dryRun_report Current (setDryRun (defaultApp "subs.csv" ".") true)
             plainWorld _ _ (mkReplacer [("a", "b")]) ["a.txt"; "src/b.txt"; "src/c.go"]
             eq_refl eq_refl eq_refl eq_refl).
  reflexivity.
Defined.

Section DryRunProperties.

Variables (v : variant) (app : appEnv).


End DryRunProperties.


Section LoadProperties.

Variables (v : variant) (app : appEnv).

(** X11.  A patterns file with a record that has not two fields ends
    [Exec] with the error of reading the patterns file, before the walk:
    nothing but the opening of the patterns file was done. *)
Theorem Exec_rejects_field_count (w : World) (records : list (list string)) :
  patterns w (patFile app) = Records records ->
  twoFields records = false ->
  Exec v app w =
  (record (EvOpenPatterns (patFile app)) w,
   Some (ErrReadingPatterns (patFile app) ErrFieldCount)).
Proof.
  intros Hp Ht. unfold Exec, loadSubstitutions. rewrite Hp.
  unfold twoFields in Ht. now rewrite Ht.
Qed.

(** X12.  Substitutions whose new string is their old string change no
    text, whatever their order and whether they overlap or are empty. *)
Theorem Replace_same_fields (records : list (list string)) (text : string) :
  sameFields records ->
  Replace (mkReplacer (recordPairs records)) text = text.
Proof.
  intros Hs. apply Replace_unique.
  apply (Replaces_identity (recordPairs records)) with (k := String.length text);
    [|apply Nat.le_refl].
  intros o n Hin. apply recordPairs_In in Hin as (r & Hr & -> & ->). now apply Hs.
Qed.

(** X13.  A text in which no old string of the substitutions occurs is
    left as it is. *)
Theorem Replace_without_occurrence (records : list (list string)) (text : string) :
  (forall r, In r records -> Index (nth 0 r "") text = None) ->
  Replace (mkReplacer (recordPairs records)) text = text.
Proof.
  intros H. apply Replace_unique. apply Replaces_no_occurrence.
  intros o n Hin. apply recordPairs_In in Hin as (r & Hr & -> & _). now apply H.
Qed.

Lemma concatMap_app (f : ascii -> string) (s1 s2 : string) :
  concatMap f (s1 ++ s2) = concatMap f s1 ++ concatMap f s2.
Proof.
  induction s1 as [|c s1 IH]; cbn [append concatMap]; [reflexivity|].
  now rewrite IH, append_assoc.
Qed.

Lemma recordPairs_oneByte (records : list (list string)) :
  (forall r, In r records -> String.length (nth 0 r "") = 1) ->
  forallb (fun p : subPair => Nat.eqb (String.length (fst p)) 1) (recordPairs records)
  = true.
Proof.
  intros H. apply forallb_forall. intros [o n] Hin.
  apply recordPairs_In in Hin as (r & Hr & -> & _). cbn [fst].
  apply Nat.eqb_eq. now apply H.
Qed.

(** X14.  When every old string is one byte long, each byte of the text is
    translated by itself, to the new string of the first record with this
    byte or to itself; so the result for a text in two parts is the
    results for the parts, one after the other. *)
Theorem Replace_one_byte_records (records : list (list string)) :
  (forall r, In r records -> String.length (nth 0 r "") = 1) ->
  (forall text,
     Replace (mkReplacer (recordPairs records)) text =
     concatMap (translateByte (recordPairs records)) text) /\
  (forall s1 s2,
     Replace (mkReplacer (recordPairs records)) (s1 ++ s2) =
     Replace (mkReplacer (recordPairs records)) s1 ++
     Replace (mkReplacer (recordPairs records)) s2).
Proof.
  intros H.
  assert (T : forall text,
             Replace (mkReplacer (recordPairs records)) text =
             concatMap (translateByte (recordPairs records)) text).
  { intros text. apply Replace_unique. apply Replaces_translate.
    now apply recordPairs_oneByte. }
  split; [exact T|]. intros s1 s2. rewrite !T. apply concatMap_app.
Qed.

End LoadProperties.

Lemma Exec_rejects_field_count_witness :
  patterns shortRecordWorld (patFile (defaultApp "subs.csv" "."))
  = Records [["a"; "b"]; ["c"]] /\
  twoFields [["a"; "b"]; ["c"]] = false /\
  Exec Current (defaultApp "subs.csv" ".") shortRecordWorld =
  (record (EvOpenPatterns "subs.csv") shortRecordWorld,
   Some (ErrReadingPatterns "subs.csv" ErrFieldCount)).
Proof.
  split; [reflexivity|]. split; [reflexivity|].
  exact (Exec_rejects_field_count Current (defaultApp "subs.csv" ".") shortRecordWorld
           [["a"; "b"]; ["c"]] eq_refl eq_refl).
Defined.

Lemma Replace_same_fields_witness :
  sameFields [["ab"; "ab"]; ["b"; "b"]; [""; ""]] /\
  Replace (mkReplacer (recordPairs [["ab"; "ab"]; ["b"; "b"]; [""; ""]])) "abba" = "abba".
Proof.
  assert (Hs : sameFields [["ab"; "ab"]; ["b"; "b"]; [""; ""]])
    by (intros r [<-|[<-|[<-|[]]]]; reflexivity).
  split; [exact Hs|].
  exact (Replace_same_fields [["ab"; "ab"]; ["b"; "b"]; [""; ""]] "abba" Hs).
Defined.

Lemma Replace_without_occurrence_witness :
  (forall r, In r [["ba"; "x"]; ["c"; "y"]] -> Index (nth 0 r "") "aab" = None) /\
  Replace (mkReplacer (recordPairs [["ba"; "x"]; ["c"; "y"]])) "aab" = "aab".
Proof.
  assert (H : forall r, In r [["ba"; "x"]; ["c"; "y"]] -> Index (nth 0 r "") "aab" = None)
    by (intros r [<-|[<-|[]]]; reflexivity).
  split; [exact H|].
  exact (Replace_without_occurrence [["ba"; "x"]; ["c"; "y"]] "aab" H).
Defined.

Lemma Replace_one_byte_records_witness :
  (forall r, In r [["a"; "xy"]; ["b"; ""]; ["a"; "z"]] -> String.length (nth 0 r "") = 1) /\
  Replace (mkReplacer (recordPairs [["a"; "xy"]; ["b"; ""]; ["a"; "z"]])) "abc" = "xyc".
Proof.
  assert (H : forall r, In r [["a"; "xy"]; ["b"; ""]; ["a"; "z"]] ->
                        String.length (nth 0 r "") = 1)
    by (intros r [<-|[<-|[<-|[]]]]; reflexivity).
  split; [exact H|].
  rewrite (proj1 (Replace_one_byte_records [["a"; "xy"]; ["b"; ""]; ["a"; "z"]] H) "abc").
  reflexivity.
Defined.

Section NoRecords.

Variable app : appEnv.

(** X15.  A patterns file without a record is no error: the current
    variant gives the warning that it found no substitutions, with or
    without [-verbose], and the replacer it returns leaves every text as
    it is. *)
Theorem loadSubstitutions_no_records (w : World) :
  patterns w (patFile app) = Records [] ->
  exists replacer,
    loadSubstitutions Current app w =
    (record (EvLog Warning MsgNoSubstitutions)
            (record (EvOpenPatterns (patFile app)) w), Ok replacer) /\
    forall text, Replace replacer text = text.
Proof.
  intros Hp. exists (mkReplacer (recordPairs [])). split.
  - unfold loadSubstitutions. now rewrite Hp.
  - intros text. apply Replace_unique.
    apply (Replaces_identity []) with (k := String.length text); [|apply Nat.le_refl].
    intros o n [].
Qed.

End NoRecords.

Lemma loadSubstitutions_no_records_witness :
  patterns noRecordsWorld (patFile (defaultApp "subs.csv" ".")) = Records [] /\
  exists replacer,
    loadSubstitutions Current (defaultApp "subs.csv" ".") noRecordsWorld =
    (record (EvLog Warning MsgNoSubstitutions)
            (record (EvOpenPatterns "subs.csv") noRecordsWorld), Ok replacer) /\
    Replace replacer "abc" = "abc".
Proof.
  split; [reflexivity|].
  destruct (loadSubstitutions_no_records (defaultApp "subs.csv" ".") noRecordsWorld eq_refl)
    as (replacer & E & R).
  exists replacer. split; [exact E | apply R].
Defined.

Section FlagProperties.

(** X16.  When [ParseArgs] returns [nil], the flag [-pat] was set, by the
    arguments or by the environment, and none of the four lists of globs
    is empty. *)
Theorem ParseArgs_success (app0 : appEnv) (args : list string)
        (env : string -> option string) (app : appEnv) (actual : list string) :
  ParseArgs app0 args env = ParseDone app actual ->
  In "pat" actual /\
  incFile app <> [] /\ exFile app <> [] /\ incDir app <> [] /\ exDir app <> [].
Proof.
  unfold ParseArgs.
  destruct (parse _ [] args) as [app1 actual1| |]; try discriminate.
  destruct (parseEnv app1 actual1 env formalFlags) as [app2 actual2| |]; try discriminate.
  destruct (existsb (String.eqb "pat") actual2) eqn:Hpat; cbn [negb]; [|discriminate].
  intros [= <- <-]. split.
  - apply existsb_exists in Hpat as (x & Hin & Hx).
    apply String.eqb_eq in Hx. now subst x.
  - unfold withDefaults.
    destruct app2 as [pf d [|a1 l1] [|a2 l2] [|a3 l3] [|a4 l4] dr vb];
      cbn; repeat split; discriminate.
Qed.

(** X17.  When the flags [ParseArgs] read ask for a dry run, [CLI] leaves
    every file as it is and writes none, whatever [Exec] meets. *)
Theorem CLI_dryRun_keeps_files (v : variant) (args : list string)
        (env : string -> option string) (app : appEnv) (actual : list string)
        (w w' : World) (r : option error) :
  ParseArgs zeroApp args env = ParseDone app actual ->
  dryRun app = true ->
  CLI v args env w = Some (w', r) ->
  files w' = files w /\ (noWrite w -> noWrite w').
Proof.
  intros Hparse Hdry. unfold CLI. rewrite Hparse.
  destruct (Exec_dryRun_keeps v app w Hdry) as [F N].
  destruct (Exec v app w) as [w1 [e|]]; cbn [fst] in *; intros [= <- <-].
  - split; [exact F|]. intros H. apply noWrite_record; [reflexivity | auto].
  - auto.
Qed.

End FlagProperties.

Lemma ParseArgs_success_witness :
  ParseArgs zeroApp ["-pat"; "subs.csv"; "-match"; "*.txt"] noEnv
  = ParseDone cycleApp ["match"; "pat"] /\
  In "pat" ["match"; "pat"] /\
  incFile cycleApp <> [] /\ exFile cycleApp <> [] /\
  incDir cycleApp <> [] /\ exDir cycleApp <> [].
Proof.
  split; [reflexivity|].
  exact (ParseArgs_success zeroApp ["-pat"; "subs.csv"; "-match"; "*.txt"] noEnv
           cycleApp ["match"; "pat"] eq_refl).
Defined.

Lemma CLI_dryRun_keeps_files_witness :
  ParseArgs zeroApp ["-pat"; "subs.csv"; "-dry-run"] noEnv
  = ParseDone (setDryRun (defaultApp "subs.csv" ".") true) ["dry-run"; "pat"] /\
  exists w' r,
    CLI Current ["-pat"; "subs.csv"; "-dry-run"] noEnv plainWorld = Some (w', r) /\
    files w' = files plainWorld.
Proof.
  split; [reflexivity|].
  eexists. eexists. split; [reflexivity|].
  exact (proj1 (CLI_dryRun_keeps_files Current ["-pat"; "subs.csv"; "-dry-run"] noEnv
                  (setDryRun (defaultApp "subs.csv" ".") true) ["dry-run"; "pat"]
                  plainWorld _ _ eq_refl eq_refl eq_refl)).
Defined.

Section TemplateProperties.

(** X18.  [Exec] of the first revision copies the source to the standard
    output and then closes it, once, whether the copy failed or not; it
    returns the error of the copy if there is one and otherwise that of
    [Close]; with [-verbose] the last line of the log, after the closing,
    is [done]. *)
Theorem Template_Exec_closes_source (app : Template.appEnv) (out : list Template.output) :
  exists outs,
    fst (Template.Exec app out) = (out ++ outs)%list /\
    filter (fun o => negb (Template.isLog o)) outs =
    [Template.OutStdout (Template.data (Template.src app)); Template.OutClose] /\
    last outs Template.OutClose =
    (if Template.verbose app then Template.OutLog Template.Done else Template.OutClose) /\
    snd (Template.Exec app out) =
    match Template.readErr (Template.src app) with
    | Some e => Some e
    | None => Template.closeErr (Template.src app)
    end.
Proof.
  unfold Template.Exec, Template.Copy, Template.runDeferred, Template.deferClose,
    Template.deferDone, Template.println.
  cbn [fold_left fst snd].
  destruct (Template.verbose app); rewrite <- ?app_assoc; cbn [List.app];
    eexists; (split; [reflexivity|]); (split; [reflexivity|]);
    (split; [reflexivity|]);
    destruct (Template.readErr (Template.src app)); reflexivity.
Qed.

End TemplateProperties.

Section DefaultFilters.




End DefaultFilters.

